(** * Statistical simulation notebooks: a shallow embedding

    The repository is four Jupyter notebooks of Monte Carlo and resampling
    exercises written against numpy's legacy global random generator.
    The cells are embedded as functions in a state-and-exception monad over
    the state of the notebook's kernel; the generator is an oracle (a
    tape of the values the next sampler calls will emit), so that a theorem
    quantified over kernels holds for every sequence of draws.

    Numbers are exact rationals ([Q]); numpy's [nan] is [None]. The cells
    compute in floating point. What is proved of a cell's numbers is
    either a statement of that exact arithmetic (the arithmetic mean, the
    interpolated percentile, the count formula of a p-value) or is stated so
    that rounding does not decide it: by orders, signs and counts, and
    with a margin where a comparison could fall either way. *)

From Stdlib Require Import QArith Qround Qabs Qminmax Qpower Qreals Reals Psatz.
From Stdlib Require Import Permutation Sorted.
From stdpp Require Import gmap strings list fin_maps.

Set Default Proof Using "Type".
Set Warnings "-abstract-large-number".

(** ** numpy: the part of the library the notebooks call *)
Module Np.

(** Exceptions the library raises on malformed arguments. *)
Inductive exn : Type :=
| ValueError
| IndexError
| KeyError
| TypeError.

Inductive res (A : Type) : Type :=
| Ok (a : A)
| Raise (e : exn).
Arguments Ok {A} a.
Arguments Raise {A} e.

(** A card of the imported deck: [(suit, value)]. *)
Definition card : Type := string * nat.

(** The state of one notebook kernel.

    - [tape c i] is the [i]-th raw value the [c]-th sampler call emits;
      every sampler maps raw values into its own range. A row stands for
      the stretch of the generator's stream its call consumes in the run
      at hand: how long that stretch is depends on the calls before it,
      so the rows of one run say nothing about a run that makes other
      calls first.
    - [cursor] counts sampler calls since the generator was last seeded.
    - [seeded s] is the tape [np.random.seed(s)] installs.
    - [calls] logs the notebook functions entered, most recent first.
    - [heap] holds the list objects that cells share by reference. *)
Record kernel : Type := Kernel {
  tape : nat -> nat -> Q;
  cursor : nat;
  seeded : Z -> nat -> nat -> Q;
  calls : list string;
  heap : gmap nat (list card)
}.

Definition M (A : Type) : Type := kernel -> res A * kernel.

Definition ret {A} (a : A) : M A := fun k => (Ok a, k).

Definition bind {A B} (m : M A) (f : A -> M B) : M B :=
  fun k => match m k with
           | (Ok a, k') => f a k'
           | (Raise e, k') => (Raise e, k')
           end.

Definition raise {A} (e : exn) : M A := fun k => (Raise e, k).

Definition lift {A} (r : res A) : M A := fun k => (r, k).

Notation "x <- c1 ;; c2" := (bind c1 (fun x => c2))
  (at level 100, c1 at next level, right associativity).
Notation "c1 ;;; c2" := (bind c1 (fun _ => c2))
  (at level 100, right associativity).

(** [for x in xs: acc = body x acc] *)
Fixpoint for_each {A S} (xs : list A) (body : A -> S -> M S) (acc : S) : M S :=
  match xs with
  | [] => ret acc
  | x :: xs' => acc' <- body x acc ;; for_each xs' body acc'
  end.

(** [for i in range(n)] *)
Definition for_range {S} (n : nat) (body : nat -> S -> M S) (acc : S) : M S :=
  for_each (seq 0 n) body acc.

(** [[f(i) for i in range(n)]] *)
Definition comprehension {A} (n : nat) (f : nat -> M A) : M (list A) :=
  for_range n (fun i acc => a <- f i ;; ret (acc ++ [a])) [].

(** [while cond: body], run for at most [fuel] iterations; [None] when the
    fuel runs out before the loop ends. The body ends an iteration by
    falling through ([Continue]) or by [break]. *)
Inductive step (S : Type) : Type :=
| Continue (s : S)
| Break (s : S).
Arguments Continue {S} s.
Arguments Break {S} s.

Fixpoint while {S} (fuel : nat) (cond : S -> bool) (body : S -> M (step S)) (s : S)
    (k : kernel) : option (res S * kernel) :=
  match fuel with
  | O => None
  | Datatypes.S fuel' =>
    if cond s then
      match body s k with
      | (Ok (Continue s'), k') => while fuel' cond body s' k'
      | (Ok (Break s'), k') => Some (Ok s', k')
      | (Raise e, k') => Some (Raise e, k')
      end
    else Some (Ok s, k)
  end.

(** What follows a loop that has ended. *)
Definition and_then {A B} (r : option (res A * kernel)) (f : A -> B)
  : option (res B * kernel) :=
  match r with
  | Some (Ok a, k) => Some (Ok (f a), k)
  | Some (Raise e, k) => Some (Raise e, k)
  | None => None
  end.

(** Entering a function the notebook defines. *)
Definition enter (name : string) : M unit :=
  fun k => (Ok tt, Kernel (tape k) (cursor k) (seeded k) (name :: calls k) (heap k)).

(** The list a name refers to. *)
Definition read (l : nat) : M (list card) :=
  fun k => match heap k !! l with
           | Some x => (Ok x, k)
           | None => (Raise TypeError, k)
           end.

(** [x.copy()]: a new list object with the same items. *)
Definition copy (l : nat) : M nat :=
  fun k => match heap k !! l with
           | Some x =>
             let l' := fresh (dom (heap k)) in
             (Ok l', Kernel (tape k) (cursor k) (seeded k) (calls k) (<[l' := x]> (heap k)))
           | None => (Raise TypeError, k)
           end.

(** [d[key]] *)
Definition getitem {V} (d : gmap string V) (key : string) : M V :=
  match d !! key with
  | Some v => ret v
  | None => raise KeyError
  end.

Local Open Scope Q_scope.

(** *** The generator *)

(** One sampler call: it reads its row of the tape and moves the cursor. *)
Definition sampler {A} (f : (nat -> Q) -> res A) : M A :=
  fun k => (f (tape k (cursor k)),
            Kernel (tape k) (S (cursor k)) (seeded k) (calls k) (heap k)).

(** [np.random.seed(s)] *)
Definition seed (s : Z) : M unit :=
  fun k => (Ok tt, Kernel (seeded k s) 0%nat (seeded k) (calls k) (heap k)).

(** A raw value as an index below [n]. *)
Definition random_index (n : nat) (q : Q) : nat :=
  Z.to_nat (Qfloor q mod Z.of_nat n).

(** A raw value as a point of the unit interval, 0 included and 1 not. *)
Definition unit_interval (q : Q) : Q := q - inject_Z (Qfloor q).

(** [np.random.choice(a, size=size, replace=True)]: an empty [a] is
    refused unless no sample is taken. *)
Definition choice {A} (a : list A) (size : nat) : M (list A) :=
  sampler (fun row =>
    match a, size with
    | [], O => Ok []
    | [], S _ => Raise ValueError
    | d :: _, _ => Ok (map (fun i => nth (random_index (length a) (row i)) a d) (seq 0 size))
    end).

Fixpoint cumsum_from (acc : Q) (p : list Q) : list Q :=
  match p with
  | [] => []
  | x :: p' => (acc + x) :: cumsum_from (acc + x) p'
  end.

Definition cumsum (p : list Q) : list Q := cumsum_from 0 p.

(** [cdf.searchsorted(u, side='right')]: how many entries are at most [u]. *)
Definition searchsorted_right (cdf : list Q) (u : Q) : nat :=
  length (filter (fun c => Qle_bool c u = true) cdf).

Definition Qsum (xs : list Q) : Q := foldr Qplus 0 xs.

(** [np.random.choice(a, size=size, p=p, replace=True)]: the item whose
    stretch of the cumulated probabilities the draw falls in. The sums are
    exact here and rounded in numpy, which matters only for a draw at the
    very boundary of two stretches. *)
Definition choice_p {A} (a : list A) (p : list Q) (size : nat) : M (list A) :=
  sampler (fun row =>
    match a with
    | [] => Raise ValueError
    | d :: _ =>
      if negb (length a =? length p)%nat then Raise ValueError
      else if existsb (fun x => negb (Qle_bool 0 x)) p then Raise ValueError
      else if negb (Qeq_bool (Qsum p) 1) then Raise ValueError
      else Ok (map (fun i => nth (searchsorted_right (cumsum p) (unit_interval (row i))) a d)
                   (seq 0 size))
    end).

(** [x[i], x[j] = x[j], x[i]] *)
Definition swap {A} (x : list A) (i j : nat) : list A :=
  match x !! i, x !! j with
  | Some xi, Some xj => <[j := xi]> (<[i := xj]> x)
  | _, _ => x
  end.

(** The in-place shuffle's loop: [for i in reversed(range(1, n))], with
    [j] drawn from [0..i]. [i] runs from [n - 1] down to 1. *)
Fixpoint shuffle_from {A} (row : nat -> Q) (i : nat) (x : list A) : list A :=
  match i with
  | O => x
  | S i' => shuffle_from row i' (swap x i (random_index (S i) (row i)))
  end.

Definition shuffled {A} (row : nat -> Q) (x : list A) : list A :=
  shuffle_from row (length x - 1)%nat x.

(** [np.random.permutation(n)]: a shuffled [arange(n)]. *)
Definition permutation (n : nat) : M (list nat) :=
  sampler (fun row => Ok (shuffled row (seq 0 n))).

(** [np.random.shuffle(x)] where [x] names the list object at [l]. *)
Definition shuffle (l : nat) : M unit :=
  fun k =>
    match heap k !! l with
    | None => (Raise TypeError, k)
    | Some x =>
      (Ok tt, Kernel (tape k) (S (cursor k)) (seeded k) (calls k)
                     (<[l := shuffled (tape k (cursor k)) x]> (heap k)))
    end.

(** [np.random.normal(loc, scale, size=size)] *)
Definition normal (loc scale : Q) (size : nat) : M (list Q) :=
  sampler (fun row =>
    if Qle_bool 0 scale then Ok (map (fun i => loc + scale * row i) (seq 0 size))
    else Raise ValueError).

(** [np.random.normal(loc, scale)]: one draw. *)
Definition normal1 (loc scale : Q) : M Q :=
  sampler (fun row =>
    if Qle_bool 0 scale then Ok (loc + scale * row 0%nat) else Raise ValueError).

(** [np.random.uniform(low, high, size=size)]: [low + (high - low) * u]
    for a draw [u] of the unit interval, below [high] in exact arithmetic
    (rounding can reach [high]). *)
Definition uniform (low high : Q) (size : nat) : M (list Q) :=
  sampler (fun row =>
    Ok (map (fun i => low + (high - low) * unit_interval (row i)) (seq 0 size))).

(** [np.random.binomial(n, p)]: some count between 0 and [n]. *)
Definition binomial (n : nat) (p : Q) : M nat :=
  sampler (fun row =>
    if Qle_bool 0 p && Qle_bool p 1 then Ok (random_index (S n) (row 0%nat))
    else Raise ValueError).

(** [np.random.exponential(scale, size=size)]: non-negative values. *)
Definition exponential (scale : Q) (size : nat) : M (list Q) :=
  sampler (fun row =>
    if Qle_bool 0 scale then Ok (map (fun i => scale * Qabs (row i)) (seq 0 size))
    else Raise ValueError).

(** A raw value as a count. *)
Definition random_count (q : Q) : nat := Z.to_nat (Qfloor (Qabs q)).

(** [np.random.poisson(lam)] for an array [lam]. *)
Definition poisson_array (lam : list Q) : M (list nat) :=
  sampler (fun row =>
    if forallb (Qle_bool 0) lam
    then Ok (imap (fun i l => if Qeq_bool l 0 then 0%nat else random_count (row i)) lam)
    else Raise ValueError).

(** [np.random.binomial(n, p)] for an array [n]. *)
Definition binomial_array (n : list nat) (p : Q) : M (list nat) :=
  sampler (fun row =>
    if Qle_bool 0 p && Qle_bool p 1 then Ok (imap (fun i ni => random_index (S ni) (row i)) n)
    else Raise ValueError).

(** [np.random.normal(loc, scale, size=(rows, cols))]: a list of rows,
    filled row by row. *)
Definition normal_matrix (loc scale : Q) (rows cols : nat) : M (list (list Q)) :=
  sampler (fun row =>
    if Qle_bool 0 scale
    then Ok (map (fun r => map (fun c => loc + scale * row (r * cols + c)%nat) (seq 0 cols))
                 (seq 0 rows))
    else Raise ValueError).

(** *** Arrays of numbers; [None] is [nan] *)

Definition Qlt_bool (a b : Q) : bool := negb (Qle_bool b a).

Definition fl : Type := option Q.

Definition fl_lift2 (f : Q -> Q -> Q) (a b : fl) : fl :=
  match a, b with
  | Some x, Some y => Some (f x y)
  | _, _ => None
  end.

Definition fsub : fl -> fl -> fl := fl_lift2 Qminus.

Definition fabs (a : fl) : fl := option_map Qabs a.

(** [a >= b]; a comparison with [nan] is false. *)
Definition fge (a b : fl) : bool :=
  match a, b with
  | Some x, Some y => Qle_bool y x
  | _, _ => false
  end.

(** [a < b]; a comparison with [nan] is false. *)
Definition flt (a b : fl) : bool :=
  match a, b with
  | Some x, Some y => Qlt_bool x y
  | _, _ => false
  end.

(** [xs.mean()] of an array without [nan]: [nan] when it is empty. *)
Definition mean (xs : list Q) : fl :=
  match xs with
  | [] => None
  | _ => Some (Qsum xs / inject_Z (Z.of_nat (length xs)))
  end.

(** The numbers of an array, unless one of them is [nan]. *)
Fixpoint finite (xs : list fl) : option (list Q) :=
  match xs with
  | [] => Some []
  | None :: _ => None
  | Some x :: xs' => option_map (cons x) (finite xs')
  end.

(** [np.mean(xs)] *)
Definition fmean (xs : list fl) : fl :=
  match finite xs with
  | Some qs => mean qs
  | None => None
  end.

Fixpoint insert_sorted (x : Q) (s : list Q) : list Q :=
  match s with
  | [] => [x]
  | y :: s' => if Qle_bool x y then x :: s else y :: insert_sorted x s'
  end.

Definition sort (xs : list Q) : list Q := foldr insert_sorted [] xs.

(** [np.percentile(xs, q)] with the default linear interpolation between
    the two order statistics around position [q/100 * (n - 1)]. *)
Definition percentile (xs : list Q) (q : Q) : fl :=
  match xs with
  | [] => None
  | d :: _ =>
    let s := sort xs in
    let n := length xs in
    let pos := q / 100 * inject_Z (Z.of_nat (n - 1)%nat) in
    let below := Z.to_nat (Qfloor pos) in
    let above := Nat.min (S below) (n - 1)%nat in
    let w := pos - inject_Z (Qfloor pos) in
    Some (nth below s d * (1 - w) + nth above s d * w)
  end.

Definition fpercentile (xs : list fl) (q : Q) : fl :=
  match finite xs with
  | Some qs => percentile qs q
  | None => None
  end.

(** [np.median(xs)] *)
Definition median (xs : list Q) : fl := percentile xs 50.

(** [data[idx]] for an array of indices. *)
Definition take_at (data : list Q) (idx : list nat) : res (list Q) :=
  match mapM (fun i => data !! i) idx with
  | Some r => Ok r
  | None => Raise IndexError
  end.

(** [data[idx]] for a two-dimensional array of indices. *)
Fixpoint take_rows (data : list Q) (idx : list (list nat)) : res (list (list Q)) :=
  match idx with
  | [] => Ok []
  | r :: idx' =>
    match take_at data r, take_rows data idx' with
    | Ok a, Ok b => Ok (a :: b)
    | Raise e, _ => Raise e
    | _, Raise e => Raise e
    end
  end.

(** [xs[mask]] for a boolean mask as long as [xs]. *)
Fixpoint select {A} (xs : list A) (mask : list bool) : list A :=
  match xs, mask with
  | x :: xs', b :: mask' => if b then x :: select xs' mask' else select xs' mask'
  | _, _ => []
  end.

(** [np.sum(mask)] of a boolean array. *)
Definition count_true (mask : list bool) : nat :=
  foldr (fun (b : bool) n => if b then S n else n) 0%nat mask.

(** [max(xs)] and [min(xs)] of Python: an error on an empty sequence. *)
Definition py_max (xs : list nat) : res nat :=
  match xs with
  | [] => Raise ValueError
  | x :: xs' => Ok (foldr Nat.max x xs')
  end.

Definition py_min (xs : list nat) : res nat :=
  match xs with
  | [] => Raise ValueError
  | x :: xs' => Ok (foldr Nat.min x xs')
  end.

(** [m[:, j]] *)
Definition column (j : nat) (m : list (list Q)) : list Q := map (fun r => nth j r 0) m.

End Np.

(** ** Notebook "Basics of randomness & simulation" *)
Module Basics.
Import Np.
Local Open Scope Q_scope.

(** *** Shuffling a deck of cards

    [deck_of_cards] is the list object the import binds: the notebook's
    name and the data module's attribute refer to one object. *)
Definition shuffling_a_deck (deck_of_cards : nat) : M (list card) :=
  shuffle deck_of_cards ;;;
  deck <- read deck_of_cards ;;
  let card_choices_after_shuffle := take 3 deck in
  ret card_choices_after_shuffle.

(** *** Calculating a break-even lottery price

    [num_tickets], [grand_prize] and [chance_of_winning] are what the
    lottery cells before this one left in the kernel. *)
Definition num_tickets : Z := 1000.
Definition grand_prize : Z := 1000000.
Definition chance_of_winning : Q := 1 / inject_Z num_tickets.

Definition break_even_lottery_price (fuel : nat) (k : kernel) : option (res Z * kernel) :=
  let sims := 3000%nat in
  and_then
    (while fuel (fun _ => true)
       (fun lottery_ticket_cost : Z =>
          outcomes <- choice_p [(- lottery_ticket_cost)%Z; (grand_prize - lottery_ticket_cost)%Z]
                               [1 - chance_of_winning; chance_of_winning] sims ;;
          if flt (mean (map inject_Z outcomes)) (Some 0)
          then ret (Break lottery_ticket_cost)
          else ret (Continue (lottery_ticket_cost + 1)%Z))
       0%Z k)
    (fun lottery_ticket_cost => (lottery_ticket_cost - 1)%Z).

End Basics.

(** ** Notebook "Probability & data generation process" *)
Module Probability.
Import Np.
Local Open Scope Q_scope.

(** [cards_in_hand[card[1]] = cards_in_hand.get(card[1], 0) + 1] for every
    card of the hand. *)
Definition count_values (hand : list card) : gmap nat nat :=
  foldl (fun (cards_in_hand : gmap nat nat) (card : card) =>
           <[card.2 := (default 0 (cards_in_hand !! card.2) + 1)%nat]> cards_in_hand)
        ∅ hand.

(** [d.values()] *)
Definition values (d : gmap nat nat) : list nat := (map_to_list d).*2.

(** *** Two of a kind *)
Definition two_of_a_kind (deck_of_cards : nat) : M Q :=
  seed 123 ;;;
  let n_sims := 10000%nat in
  two_kind <- for_range n_sims (fun _ two_kind =>
      shuffle deck_of_cards ;;;
      deck <- read deck_of_cards ;;
      let hand := take 5 deck in
      let cards_in_hand := count_values hand in
      highest_card <- lift (py_max (values cards_in_hand)) ;;
      ret (if (2 <=? highest_card)%nat then S two_kind else two_kind)) 0%nat ;;
  ret (inject_Z (Z.of_nat two_kind) / inject_Z (Z.of_nat n_sims)).

(** *** Birthday problem *)
Definition days : list nat := seq 1 365.

Definition birthday_sim (people : nat) : M Q :=
  enter "birthday_sim" ;;;
  let sims := 2000%nat in
  unique_birthdays <- for_range sims (fun _ unique_birthdays =>
      draw <- choice days people ;;
      ret (if (length draw =? size (list_to_set draw : gset nat))%nat
           then S unique_birthdays else unique_birthdays)) 0%nat ;;
  let out := 1 - inject_Z (Z.of_nat unique_birthdays) / inject_Z (Z.of_nat sims) in
  ret out.

Definition birthday_problem (fuel : nat) (k : kernel) : option (res nat * kernel) :=
  while fuel (fun people => (0 <? people)%nat)
    (fun people =>
       prop_bds <- birthday_sim people ;;
       if Qlt_bool (1 # 2) prop_bds then ret (Break people)
       else ret (Continue (people + 1)%nat))
    2%nat k.

(** *** Full house: the probability, and the list the name
    [deck_of_cards] is bound to from here on. *)
Definition full_house (deck_of_cards : nat) : M (Q * nat) :=
  let n_sims := 50000%nat in
  deck_of_cards <- copy deck_of_cards ;;
  full_house <- for_range n_sims (fun _ full_house =>
      shuffle deck_of_cards ;;;
      deck <- read deck_of_cards ;;
      let hand := take 5 deck in
      let cards_in_hand := count_values hand in
      highest <- lift (py_max (values cards_in_hand)) ;;
      lowest <- lift (py_min (values cards_in_hand)) ;;
      let condition := (highest =? 3)%nat && (lowest =? 2)%nat in
      ret (if condition then S full_house else full_house)) 0%nat ;;
  ret (inject_Z (Z.of_nat full_house) / inject_Z (Z.of_nat n_sims), deck_of_cards).

(** *** Sign up Flow *)
Definition lambda_mean : Q := 100000.
Definition lambda_std : Q := 2000.

Definition get_signups (cost : string) (ct_rate su_rate : gmap string Q) (sims : nat)
  : M (list nat) :=
  enter "get_signups" ;;;
  lam <- normal lambda_mean lambda_std sims ;;
  impressions <- poisson_array lam ;;
  ct <- getitem ct_rate cost ;;
  clicks <- binomial_array impressions ct ;;
  su <- getitem su_rate cost ;;
  signups <- binomial_array clicks su ;;
  ret signups.

(** *** Purchase Flow *)
Definition purchase_value_mean : Q := 1000.
Definition hist_purchase_rate : Q := 1 # 10.

Definition get_revenue (signups : list nat) : M (list Q) :=
  enter "get_revenue" ;;;
  seed 123 ;;;
  for_each signups (fun s rev =>
      purchases <- binomial s hist_purchase_rate ;;
      purchase_values <- exponential purchase_value_mean purchases ;;
      ret (rev ++ [Qsum purchase_values])) [].

(** *** Probability of losing money; [ct_rate] and [su_rate] are the
    dictionaries the sign-up cell left in the kernel. *)
Definition probability_of_losing_money (ct_rate su_rate : gmap string Q) : M fl :=
  let sims := 10000%nat in
  let cost_diff := 3000 in
  signups_low <- get_signups "low" ct_rate su_rate sims ;;
  rev_low <- get_revenue signups_low ;;
  signups_high <- get_signups "high" ct_rate su_rate sims ;;
  rev_high <- get_revenue signups_high ;;
  let frac :=
    mean (map (fun d => if Qlt_bool d cost_diff then 1 else 0)
              (zip_with Qminus rev_high rev_low)) in
  ret frac.

End Probability.

(** ** Notebook "Resampling methods" *)
Module Resampling.
Import Np.
Local Open Scope Q_scope.

(** *** Running a simple bootstrap *)
Definition simple_bootstrap (wrench_lengths : list Q) : M (fl * list fl) :=
  let sims := 1000%nat in
  mean_lengths <- for_range sims (fun _ mean_lengths =>
      temp_sample <- choice wrench_lengths (length wrench_lengths) ;;
      let sample_mean := mean temp_sample in
      ret (mean_lengths ++ [sample_mean])) [] ;;
  let boot_mean := fmean mean_lengths in
  let boot_95_ci := map (fpercentile mean_lengths) [25 # 10; 975 # 10] in
  ret (boot_mean, boot_95_ci).

(** *** Basic jackknife estimation - mean *)

(** [wrench_lengths[index != i]] *)
Definition jk_sample (wrench_lengths : list Q) (index : list nat) (i : nat) : list Q :=
  select wrench_lengths (map (fun k => negb (k =? i)%nat) index).


(** *** Hypothesis testing - Difference of means *)
Definition reps : nat := 1000.

(** [2*np.sum(samples >= np.abs(test_stat))/reps] *)
Definition p_value (samples : list fl) (test_stat : fl) : Q :=
  inject_Z (2 * Z.of_nat (count_true (map (fun s => fge s (fabs test_stat)) samples)))
  / inject_Z (Z.of_nat reps).

(** The cell; [data] is the concatenation the cell before it left in the
    kernel. It leaves the permuted datasets for the next cell. *)
Definition difference_of_means (donations_A donations_B : list Q)
  : M (Q * list (list Q) * list (list Q)) :=
  let data := donations_A ++ donations_B in
  perm <- comprehension reps
            (fun _ => permutation (length donations_A + length donations_B)) ;;
  permuted_A_datasets <- lift (take_rows data (map (take (length donations_A)) perm)) ;;
  permuted_B_datasets <- lift (take_rows data (map (drop (length donations_A)) perm)) ;;
  let samples := zip_with fsub (map mean permuted_A_datasets) (map mean permuted_B_datasets) in
  let test_stat := fsub (mean donations_A) (mean donations_B) in
  let p_val := p_value samples test_stat in
  ret (p_val, permuted_A_datasets, permuted_B_datasets).

(** *** Hypothesis testing - Non-standard statistics *)
Definition nonstandard_statistics (donations_A donations_B : list Q)
    (permuted_A_datasets permuted_B_datasets : list (list Q)) : Q * Q :=
  let samples_percentile :=
    zip_with fsub (map (fun r => percentile r 80) permuted_A_datasets)
                  (map (fun r => percentile r 80) permuted_B_datasets) in
  let samples_median :=
    zip_with fsub (map median permuted_A_datasets) (map median permuted_B_datasets) in
  let test_stat_percentile := fsub (percentile donations_A 80) (percentile donations_B 80) in
  let test_stat_median := fsub (median donations_A) (median donations_B) in
  let p_val_percentile := p_value samples_percentile test_stat_percentile in
  let p_val_median := p_value samples_median test_stat_median in
  (p_val_percentile, p_val_median).

End Resampling.

(** ** Notebook "Advanced Applications of Simulation" *)
Module Applications.
Import Np.

(** A Python number as the corn model meets it: a float or a complex. *)
Inductive pynum : Type :=
| PyFloat (x : R)
| PyComplex (re im : R).

(** [x ** y] for floats, [y] positive and not a whole number: a negative
    base gives the principal complex power. *)
Definition py_pow (x y : R) : pynum :=
  if Rlt_dec x 0
  then PyComplex (Rpower (- x) y * cos (y * PI)) (Rpower (- x) y * sin (y * PI))
  else if Req_dec_T x 0 then PyFloat 0
  else PyFloat (Rpower x y).

(** [a * b] *)
Definition py_mul (a b : pynum) : pynum :=
  match a, b with
  | PyFloat x, PyFloat y => PyFloat (x * y)
  | PyFloat x, PyComplex re im => PyComplex (x * re) (x * im)
  | PyComplex re im, PyFloat y => PyComplex (re * y) (im * y)
  | PyComplex r1 i1, PyComplex r2 i2 => PyComplex (r1 * r2 - i1 * i2) (r1 * i2 + i1 * r2)
  end.

(** [np.random.poisson(lam=lam)] for a [lam] that is one of numpy's
    numbers, as it is when the cost is an item of [np.arange]: a complex
    [lam] is cast to its real part (the ComplexWarning the notebook's
    output records). *)
Definition poisson (lam : pynum) : M nat :=
  sampler (fun row =>
    let x := match lam with PyFloat x => x | PyComplex re _ => re end in
    if Rlt_dec x 0 then Raise ValueError
    else if Req_dec_T x 0 then Ok 0%nat
    else Ok (random_count (row 0%nat))).

(** *** Modeling Corn Production *)
Definition corn_mean (rain cost : Q) : pynum :=
  py_mul (py_mul (PyFloat 100) (py_pow (Q2R cost) (1 / 10))) (py_pow (Q2R rain) (2 / 10)).

Definition corn_produced (rain cost : Q) : M nat :=
  enter "corn_produced" ;;;
  let mean_corn := corn_mean rain cost in
  corn <- poisson mean_corn ;;
  ret corn.

Local Open Scope Q_scope.

(** *** Modeling Profits *)
Definition corn_demanded (price : Q) : M Q :=
  enter "corn_demanded" ;;;
  ret (984 - 23 * price).

Definition profits (cost : Q) : M Q :=
  enter "profits" ;;;
  rain <- normal1 50 15 ;;
  price <- normal1 40 10 ;;
  supply <- corn_produced rain cost ;;
  demand <- corn_demanded price ;;
  let equil_short := Qle_bool (inject_Z (Z.of_nat supply)) demand in
  if equil_short then
    let tmp := price * inject_Z (Z.of_nat supply) - cost in
    ret tmp
  else
    let tmp2 := price * demand - cost in
    ret tmp2.

(** *** Calculating the value of pi *)
Definition value_of_pi : M Q :=
  let sims := 10000%nat in
  circle_points <- for_range sims (fun _ circle_points =>
      point <- uniform (-1) 1 2 ;;
      let within_circle := Qle_bool (nth 0 point 0 ^ 2 + nth 1 point 0 ^ 2) 1 in
      ret (if within_circle then S circle_points else circle_points)) 0%nat ;;
  let pi_sim := 4 * inject_Z (Z.of_nat circle_points) / inject_Z (Z.of_nat sims) in
  ret pi_sim.

(** *** Power Analysis - Part II *)
Section Power.

(** [above_critical df t2]: whether [t2], the square of a t statistic,
    lies above the square of the two-sided 5% critical value of Student's
    distribution with [df] degrees of freedom, that is whether the
    p-value the library derives from the statistic is below 0.05. *)
Variable above_critical : nat -> Q -> bool.

(** [np.var(xs, ddof=1)] times [n - 1]: the sum of squared deviations. *)
Definition squared_deviations (xs : list Q) : Q :=
  let m := Qsum xs / inject_Z (Z.of_nat (length xs)) in
  Qsum (map (fun x => (x - m) ^ 2) xs).

(** [ttest_ind(a, b)[1] < 0.05] for two samples: the pooled-variance
    statistic is [d / denom]; it is infinite (p-value 0) when only the
    denominator vanishes and [nan] when both do. *)
Definition ttest_ind_below_005 (a b : list Q) : bool :=
  match a, b with
  | [], _ | _, [] => false
  | _, _ =>
    let n1 := inject_Z (Z.of_nat (length a)) in
    let n2 := inject_Z (Z.of_nat (length b)) in
    let v1 := squared_deviations a / (n1 - 1) in
    let v2 := squared_deviations b / (n2 - 1) in
    let df := (length a + length b - 2)%nat in
    let svar := ((n1 - 1) * v1 + (n2 - 1) * v2) / (n1 + n2 - 2) in
    let denom2 := svar * (1 / n1 + 1 / n2) in
    let d := Qsum a / n1 - Qsum b / n2 in
    if Qeq_bool denom2 0 then negb (Qeq_bool d 0)
    else above_critical df (d * d / denom2)
  end.

(** [control_mean] and [control_sd] are what Part I left in the kernel. *)
Definition control_mean : Q := 1.
Definition control_sd : Q := 5 # 10.

(** One pass of the loop body: the simulated power at a sample size. *)
Definition simulated_power (sample_size : nat) : M Q :=
  let sims := 1000%nat in
  let effect_size := 1 # 10 in
  control_time_spent <- normal_matrix control_mean control_sd sample_size sims ;;
  treatment_time_spent <-
    normal_matrix (control_mean * (1 + effect_size)) control_sd sample_size sims ;;
  let p_below := map (fun j => ttest_ind_below_005 (column j treatment_time_spent)
                                                    (column j control_time_spent))
                     (seq 0 sims) in
  let power := inject_Z (Z.of_nat (count_true p_below)) / inject_Z (Z.of_nat sims) in
  ret power.

(** The rest of the loop body: stop at 80% power, else ten more. *)
Definition power_body (sample_size : nat) : M (step nat) :=
  power <- simulated_power sample_size ;;
  if Qle_bool (80 # 100) power then ret (Break sample_size)
  else ret (Continue (sample_size + 10)%nat).

Definition power_analysis (fuel : nat) (k : kernel) : option (res nat * kernel) :=
  while fuel (fun _ => true) power_body 50%nat k.

End Power.

End Applications.

(** * What the claims speak of

    Kernels after some draws, the arrays a cell draws, the quantities of
    the claims in their own words, and the inputs of the examples. *)
Section Words.
Import Np Basics Probability Resampling Applications.

(** The kernel after [n] more sampler calls. *)
Definition advance (n : nat) (k : kernel) : kernel :=
  Kernel (tape k) (cursor k + n)%nat (seeded k) (calls k) (heap k).

(** The deck after the first [n] shuffles of a kernel. *)
Definition shuffled_times (k : kernel) (n : nat) (deck : list card) : list card :=
  foldl (fun d call => shuffled (tape k (cursor k + call)) d) deck (seq 0 n).

(** Modelled from the spec: the imported card deck (its data module is
    not among the sources), thirteen values of each of four suits. *)
Definition standard_deck : list card :=
  flat_map (fun suit => map (fun value => (suit, value)) (seq 0 13))
           ["Heart"; "Club"; "Spade"; "Diamond"]%string.

(** A kernel that holds the deck at 0. Its next sampler call, and the
    first call after seeding, pick position 0 at every step of a shuffle;
    every later call after seeding picks the position a step is at, which
    moves nothing. *)
Definition dealt_kernel : kernel :=
  Kernel (fun _ _ => 0%Q) 0
         (fun _ call i => if (call =? 0)%nat then 0%Q else inject_Z (Z.of_nat i))
         [] {[ 0%nat := standard_deck ]}.

Local Open Scope Q_scope.

(** The [i]-th resample of the exercise, in the claim's words: as many
    draws as the sample has observations, each draw an observation picked by
    its own raw value, whatever the other draws picked. *)
Definition resample (wrench_lengths : list Q) (k : kernel) (i : nat) : list Q :=
  map (fun j => nth (random_index (length wrench_lengths) (tape k (cursor k + i)%nat j))
                    wrench_lengths 0)
      (seq 0 (length wrench_lengths)).

(** The statistic of each of the 1000 resamples. *)
Definition resample_means (wrench_lengths : list Q) (k : kernel) : list fl :=
  map (fun i => mean (resample wrench_lengths k i)) (seq 0 1000).

(** The margin the properties leave for floating-point rounding: a
    billionth, far more than rounding moves the numbers the cells compare
    when those are of moderate size. *)
Definition rounding_margin : Q := 1 # 1000000000.

(** A number of moderate size. *)
Definition moderate (x : Q) : Prop := -1000 <= x <= 1000.

(** Equal up to floating-point rounding. *)
Definition close (x y : Q) : Prop := Qabs (x - y) <= rounding_margin.

(** In the claim's words, with the operations of the rationals alone:
    the arithmetic mean of some numbers. *)
Definition arithmetic_mean (xs : list Q) : Q :=
  fold_right Qplus 0 xs / inject_Z (Z.of_nat (length xs)).

(** In the claim's words: [v] is the [q]-th percentile of [xs]. Put in
    ascending order the numbers take the positions 0 to [length xs - 1];
    the percentile sits at position [q / 100 * (length xs - 1)], on the
    straight line between the numbers at the whole positions around it. *)
Definition percentile_of (q : Q) (xs : list Q) (v : Q) : Prop :=
  exists (ascending : list Q) (lo hi : Q),
    Permutation ascending xs
    /\ StronglySorted Qle ascending
    /\ let pos := q / 100 * inject_Z (Z.of_nat (length xs) - 1) in
       ascending !! Z.to_nat (Qfloor pos) = Some lo
       /\ ascending !! Z.to_nat (Qceiling pos) = Some hi
       /\ v == lo + (hi - lo) * (pos - inject_Z (Qfloor pos)).

(** A sample of 100 lengths and a kernel whose tape counts upwards. *)
Definition wrench_sample : list Q := map (fun i => (1000 + Z.of_nat i) # 100) (seq 0 100).

Definition counting_kernel : kernel :=
  Kernel (fun call i => inject_Z (Z.of_nat (call + i))) 0
         (fun s call i => inject_Z (s + Z.of_nat (call + i))) [] ∅.

(** The permutations the cell draws, one per sampler call. *)
Definition drawn_permutations (n : nat) (k : kernel) : list (list nat) :=
  map (fun c => shuffled (tape k (cursor k + c)%nat) (seq 0 n)) (seq 0 1000).

(** The data in the order a permutation puts them. *)
Definition permuted_data (donations_A donations_B : list Q) (perm : list nat) : list Q :=
  map (fun i => nth i (donations_A ++ donations_B) 0) perm.

(** The mean of the permuted A part minus the mean of the permuted B part,
    as the cell computes it. *)
Definition permuted_difference (donations_A donations_B : list Q) (perm : list nat) : fl :=
  fsub (mean (take (length donations_A) (permuted_data donations_A donations_B perm)))
       (mean (drop (length donations_A) (permuted_data donations_A donations_B perm))).

(** The observed difference in means of the original arrays. *)
Definition observed_difference (donations_A donations_B : list Q) : fl :=
  fsub (mean donations_A) (mean donations_B).

(** The p-value of the cell as a function of the permutations it draws. *)
Definition p_value_in_words (donations_A donations_B : list Q) (perms : list (list nat)) : Q :=
  inject_Z (2 * Z.of_nat (length (filter
     (fun perm => fge (permuted_difference donations_A donations_B perm)
                      (fabs (observed_difference donations_A donations_B)) = true)
     perms)))
  / 1000.





(** The power one pass of the loop body simulates at a sample size, from
    the two sampler calls a kernel is about to make. *)
Definition power_in (above_critical : nat -> Q -> bool) (sample_size : nat) (k : kernel) : Q :=
  match simulated_power above_critical sample_size k with
  | (Ok power, _) => power
  | (Raise _, _) => 0
  end.

(** The draws: every control call emits 0 and every treatment call -1/5,
    which puts every observation of either group at 1. *)
Definition equal_draws : kernel :=
  Kernel (fun call _ => if Nat.even call then 0 else - (1 # 5)) 0 (fun _ _ _ => 0) [] ∅.

(** The revenue of the [j]-th entry of a signups list in one run of
    [get_revenue]: the purchases are drawn by the run's call [2 j] and
    their values by its call [2 j + 1]. *)
Definition revenue_entry (stream : nat -> nat -> Q) (j s : nat) : Q :=
  Qsum (map (fun i => purchase_value_mean * Qabs (stream (2 * j + 1)%nat i))
            (seq 0 (random_index (S s) (stream (2 * j)%nat 0%nat)))).

Definition revenue_from (stream : nat -> nat -> Q) (signups : list nat) : list Q :=
  imap (revenue_entry stream) signups.

(** A computation that leaves the call log and the seeding table alone. *)
Definition keeps {A} (m : M A) : Prop :=
  forall k, calls (m k).2 = calls k /\ seeded (m k).2 = seeded k.

(** A kernel whose every raw value is 0, and rates like the notebook's. *)
Definition quiet_kernel : kernel := Kernel (fun _ _ => 0) 0 (fun _ _ _ => 0) [] ∅.

Definition some_ct_rate : gmap string Q := {[ "low"%string := 1 # 100; "high"%string := 11 # 1000 ]}.
Definition some_su_rate : gmap string Q := {[ "low"%string := 2 # 10; "high"%string := 22 # 100 ]}.

(** The [i]-th point the cell draws. *)
Definition point_of (k : kernel) (i : nat) : list Q :=
  map (fun c => -1 + (1 - -1) * unit_interval (tape k (cursor k + i)%nat c)) (seq 0 2).

Definition within_circle (point : list Q) : bool :=
  Qle_bool (nth 0 point 0 ^ 2 + nth 1 point 0 ^ 2) 1.

(** How many of the first [n] points lie within the unit circle. *)
Definition hits (k : kernel) (n : nat) : nat :=
  count_true (map (fun i => within_circle (point_of k i)) (seq 0 n)).

End Words.

(** ** numpy: the samplers the other cells call *)
Module Sampling.
Import Np.
Local Open Scope Q_scope.

(** [np.random.choice(a, size=size, replace=False)]: the items at the
    first [size] positions of a permutation of the positions; a sample
    larger than the population is refused. *)
Definition choice_without_replacement {A} (a : list A) (size : nat) : M (list A) :=
  sampler (fun row =>
    match a with
    | [] => Raise ValueError
    | d :: _ =>
      if (length a <? size)%nat then Raise ValueError
      else Ok (map (fun i => nth i a d) (take size (shuffled row (seq 0 (length a)))))
    end).

(** [np.random.choice(a, p=p)]: one draw, as a scalar. *)
Definition choice_p1 {A} (a : list A) (p : list Q) : M A :=
  sampler (fun row =>
    match a with
    | [] => Raise ValueError
    | d :: _ =>
      if negb (length a =? length p)%nat then Raise ValueError
      else if existsb (fun x => negb (Qle_bool 0 x)) p then Raise ValueError
      else if negb (Qeq_bool (Qsum p) 1) then Raise ValueError
      else Ok (nth (searchsorted_right (cumsum p) (unit_interval (row 0%nat))) a d)
    end).

(** The truth value of a boolean array, as an [if] takes it: that of its
    item when it has one, false when it is empty, an error otherwise. *)
Definition truth (bs : list bool) : res bool :=
  match bs with
  | [] => Ok false
  | [b] => Ok b
  | _ => Raise ValueError
  end.

(** [np.random.binomial(n, p)] for an array [p]: a count between 0 and
    [n] for every probability. *)
Definition binomial_p (n : nat) (p : list Q) : M (list nat) :=
  sampler (fun row =>
    if forallb (fun x => Qle_bool 0 x && Qle_bool x 1) p
    then Ok (imap (fun i _ => random_index (S n) (row i)) p)
    else Raise ValueError).

End Sampling.

(** ** Notebook "Advanced Applications of Simulation": the portfolio cells *)
Module Investing.
Import Np.
Local Open Scope Q_scope.

(** *** Portfolio Simulation - Part I *)
Definition portfolio_return (yrs : nat) (avg_return sd_of_return principal : Q) : M Q :=
  enter "portfolio_return" ;;;
  rates <- normal avg_return sd_of_return yrs ;;
  let end_return := principal in
  end_return <- for_each rates (fun x end_return => ret (end_return * (1 + x))) end_return ;;
  ret end_return.


(** *** Portfolio Simulation - Part III; [sims] is what Part II left in
    the kernel. *)
Definition stocks_vs_bonds : M fl :=
  let sims := 1000%nat in
  seed 123 ;;;
  rets <- for_range sims (fun i (rets : list Q * list Q) =>
      stock <- portfolio_return 10 (7 # 100) (3 # 10) 10000 ;;
      bond <- portfolio_return 10 (4 # 100) (1 # 10) 10000 ;;
      ret (rets.1 ++ [stock], rets.2 ++ [bond])) ([], []) ;;
  let rets_stock_perc := percentile rets.1 25 in
  let rets_bond_perc := percentile rets.2 25 in
  let additional_returns := fsub rets_stock_perc rets_bond_perc in
  ret additional_returns.

End Investing.

(** ** Notebook "Advanced Applications of Simulation": integration *)
Module Integration.
Import Np.
Local Open Scope Q_scope.

(** [min(xs)] and [max(xs)] of Python over numbers: the first smallest and
    the first largest item; an error on an empty sequence. *)
Definition py_min_Q (xs : list Q) : res Q :=
  match xs with
  | [] => Raise ValueError
  | x :: xs' => Ok (foldl (fun m item => if Qlt_bool item m then item else m) x xs')
  end.

Definition py_max_Q (xs : list Q) : res Q :=
  match xs with
  | [] => Raise ValueError
  | x :: xs' => Ok (foldl (fun m item => if Qlt_bool m item then item else m) x xs')
  end.

(** *** Integrating a Simple Function; [func] maps an array item by item,
    as the function of the notebook's call does. *)
Definition sim_integrate (func : Q -> Q) (xmin xmax : Q) (sims : nat) : M Q :=
  enter "sim_integrate" ;;;
  x <- uniform xmin xmax sims ;;
  lowest <- lift (py_min_Q (map func x)) ;;
  low <- lift (py_min_Q [lowest; 0]) ;;
  high <- lift (py_max_Q (map func x)) ;;
  y <- uniform low high sims ;;
  max_y <- lift (py_max_Q y) ;;
  min_y <- lift (py_min_Q y) ;;
  let area := (max_y - min_y) * (xmax - xmin) in
  let below := zip_with (fun yi fi => Qlt_bool (Qabs yi) (Qabs fi)) y (map func x) in
  let result := area * inject_Z (Z.of_nat (count_true below)) / inject_Z (Z.of_nat sims) in
  ret result.

End Integration.

(** ** Notebook "Probability & data generation process": more cells *)
Module DataGeneration.
Import Np Sampling.
Local Open Scope Q_scope.

(** [xs[0]] *)
Definition first {A} (xs : list A) : M A :=
  match xs with
  | x :: _ => ret x
  | [] => raise IndexError
  end.

(** *** Driving test *)
Definition p_pass : gmap string Q := {[ "sun"%string := 9 # 10; "rain"%string := 3 # 10 ]}.

Definition test_outcome (p_rain : Q) : M (list string) :=
  enter "test_outcome" ;;;
  weather <- choice_p ["rain"; "sun"]%string [p_rain; 1 - p_rain] 1 ;;
  w <- first weather ;;
  p <- getitem p_pass w ;;
  w' <- first weather ;;
  p' <- getitem p_pass w' ;;
  choice_p ["pass"; "fail"]%string [p; 1 - p'] 1.

(** *** Game of thirteen *)
Definition game_of_thirteen : M Q :=
  let deck := seq 1 13 in
  let sims := 10000%nat in
  coincidences <- for_range sims (fun _ coincidences =>
      draw <- choice_without_replacement deck (length deck) ;;
      let coincidence := existsb (fun b : bool => b) (zip_with Nat.eqb draw (seq 1 13)) in
      ret (if Bool.eqb coincidence false then S coincidences else coincidences)) 0%nat ;;
  let prob_of_winning := inject_Z (Z.of_nat coincidences) / inject_Z (Z.of_nat sims) in
  ret prob_of_winning.

(** *** National elections; [p] is the list of the states'
    probabilities the data module holds. *)
Definition national_elections (p : list Q) : M fl :=
  let sims := 1000%nat in
  let probs := p in
  outcomes <- for_range sims (fun _ outcomes =>
      election <- binomial_p 1 probs ;;
      ret (outcomes ++ [mean (map (fun e => inject_Z (Z.of_nat e)) election)])) [] ;;
  let prob_red_wins :=
    mean (map (fun o => if flt o (Some (45 # 100)) then 1 else 0) outcomes) in
  ret prob_red_wins.

(** *** Fitness goals: the net steps of each simulated month, and the
    share of months with a weight loss. *)
Definition fitness_goals : M (list Z * fl) :=
  let sims := 1000%nat in
  let days := 30%nat in
  outcomes <- for_range sims (fun _ outcomes =>
      w <- for_range days (fun i w =>
          lam <- choice_p [5000; 15000] [6 # 10; 4 # 10] 1 ;;
          steps <- poisson_array lam ;;
          many <- lift (truth (map (fun s => (10000 <? s)%nat) steps)) ;;
          prob <- (if many then ret [2 # 10; 8 # 10]
                   else
                     few <- lift (truth (map (fun s => (s <? 8000)%nat) steps)) ;;
                     if few then ret [8 # 10; 2 # 10] else ret [5 # 10; 5 # 10]) ;;
          x <- choice_p1 [1; -1]%Z prob ;;
          ret (w ++ [x])) [] ;;
      ret (outcomes ++ [foldl Z.add 0%Z w])) [] ;;
  let weight_loss_outcomes_frac :=
    mean (map (fun o => if (o <? 0)%Z then 1 else 0) outcomes) in
  ret (outcomes, weight_loss_outcomes_frac).

End DataGeneration.

(** ** Notebook "Resampling methods": more cells *)
Module Permuting.
Import Np.
Local Open Scope Q_scope.

(** *** Generating a single permutation *)
Definition single_permutation (donations_A donations_B : list Q) : M (list Q * list Q * fl) :=
  let len_A := length donations_A in
  let len_B := length donations_B in
  let data := donations_A ++ donations_B in
  perm <- permutation (length donations_A + length donations_B) ;;
  permuted_A <- lift (take_at data (take (length donations_A) perm)) ;;
  permuted_B <- lift (take_at data (drop (length donations_A) perm)) ;;
  let diff_in_means := fsub (mean permuted_A) (mean permuted_B) in
  ret (permuted_A, permuted_B, diff_in_means).

End Permuting.

(** ** Notebook "Basics of randomness & simulation": dice and lottery *)
Module Games.
Import Np.
Local Open Scope Q_scope.

(** [xs[i]] *)
Definition item {A} (xs : list A) (i : nat) : M A :=
  match xs !! i with
  | Some x => ret x
  | None => raise IndexError
  end.

(** *** Simulating the dice game *)
Definition dice_game : M nat :=
  let die := [1; 2; 3; 4; 5; 6]%Z in
  let probabilities := [1 / 6; 1 / 6; 1 / 6; 1 / 6; 1 / 6; 1 / 6] in
  let num_dice := 2%nat in
  let sims := 100%nat in
  for_range sims (fun _ wins =>
      outcomes <- choice_p die probabilities num_dice ;;
      first_die <- item outcomes 0 ;;
      second_die <- item outcomes 1 ;;
      ret (if (first_die =? second_die)%Z then (wins + 1)%nat else wins)) 0%nat.

(** *** Simulating lottery payoffs *)
Definition lottery_payoffs : M fl :=
  let lottery_ticket_cost := 10%Z in
  let num_tickets := 1000%Z in
  let grand_prize := 1000000%Z in
  let chance_of_winning := 1 / inject_Z num_tickets in
  let size := 2000%nat in
  let payoffs := [(- lottery_ticket_cost)%Z; (grand_prize - lottery_ticket_cost)%Z] in
  let probs := [1 - chance_of_winning; chance_of_winning] in
  outcomes <- choice_p payoffs probs size ;;
  let answer := mean (map inject_Z outcomes) in
  ret answer.

End Games.

(** ** Notebook "Advanced Applications of Simulation": optimizing costs *)
Module Optimizing.
Import Np Applications.
Local Open Scope Q_scope.

(** A dictionary in insertion order. [d[key] = value] replaces the value
    of a key the dictionary has and appends a new key; [d[key]] raises on
    a key it lacks. *)
Fixpoint dict_set (d : list (Z * fl)) (key : Z) (value : fl) : list (Z * fl) :=
  match d with
  | [] => [(key, value)]
  | (k, v) :: d' =>
    if (k =? key)%Z then (k, value) :: d' else (k, v) :: dict_set d' key value
  end.

Fixpoint dict_get (d : list (Z * fl)) (key : Z) : res fl :=
  match d with
  | [] => Raise KeyError
  | (k, v) :: d' => if (k =? key)%Z then Ok v else dict_get d' key
  end.

(** [max(xs)] of Python over floats: an item replaces the largest so far
    when it compares greater, which [nan] never does. *)
Definition py_max_fl (xs : list fl) : res fl :=
  match xs with
  | [] => Raise ValueError
  | x :: xs' => Ok (foldl (fun m item => if flt m item then item else m) x xs')
  end.

(** [a == b]; [nan] equals nothing. *)
Definition feq (a b : fl) : bool :=
  match a, b with
  | Some x, Some y => Qeq_bool x y
  | _, _ => false
  end.

(** [np.arange(100, 5100, 100)] *)
Definition cost_levels : list Z := map (fun i => (100 + 100 * Z.of_nat i)%Z) (seq 0 50).

(** *** Optimizing Costs: the mean profit of every cost level *)
Definition average_profits : M (list (Z * fl)) :=
  let sims := 1000%nat in
  for_each cost_levels (fun cost results =>
      tmp_profits <- for_range sims (fun i tmp_profits =>
          profit <- profits (inject_Z cost) ;;
          ret (tmp_profits ++ [profit])) [] ;;
      ret (dict_set results cost (mean tmp_profits))) [].

(** The cost that maximizes the average profit. *)
Definition optimizing_costs : M Z :=
  results <- average_profits ;;
  best <- for_each (map fst results) (fun x best =>
      v <- lift (dict_get results x) ;;
      highest <- lift (py_max_fl (map snd results)) ;;
      ret (if feq v highest then best ++ [x] else best)) [] ;;
  match best with
  | cost_max :: _ => ret cost_max
  | [] => raise IndexError
  end.

End Optimizing.

(** ** Notebook "Resampling methods": the jackknife interval *)
Module JackknifeMedian.
Import Np Resampling.
Local Open Scope Q_scope.

(** [np.var(xs)]: the mean squared deviation from the mean. *)
Definition var (xs : list Q) : fl :=
  match mean xs with
  | Some m => mean (map (fun x => (x - m) ^ 2) xs)
  | None => None
  end.

Definition fvar (xs : list fl) : fl :=
  match finite xs with
  | Some qs => var qs
  | None => None
  end.

(** A float that need not be rational; [None] is [nan]. *)
Definition rl : Type := option R.

Definition rl_lift2 (f : R -> R -> R) (a b : rl) : rl :=
  match a, b with
  | Some x, Some y => Some (f x y)
  | _, _ => None
  end.

(** [np.sqrt(x)]: [nan] for a negative number. *)
Definition np_sqrt (x : fl) : rl :=
  match x with
  | Some q => if Qle_bool 0 q then Some (sqrt (Q2R q)) else None
  | None => None
  end.

(** *** Jackknife confidence interval for the median; [n], [index] and
    the array [wrench_lengths] are what the cell before left in the
    kernel. *)
Definition jackknife_median_ci (wrench_lengths : list Q) : fl * rl * rl :=
  let n := length wrench_lengths in
  let index := seq 0 n in
  let median_lengths :=
    foldl (fun median_lengths i =>
             median_lengths ++ [median (jk_sample wrench_lengths index i)])
          [] (seq 0 n) in
  let jk_median_length := fmean median_lengths in
  let jk_var := fl_lift2 Qmult (Some (inject_Z (Z.of_nat n - 1))) (fvar median_lengths) in
  let half_width := rl_lift2 Rmult (Some (196 / 100)%R) (np_sqrt jk_var) in
  let jk_lower_ci := rl_lift2 Rminus (option_map Q2R jk_median_length) half_width in
  let jk_upper_ci := rl_lift2 Rplus (option_map Q2R jk_median_length) half_width in
  (jk_median_length, jk_lower_ci, jk_upper_ci).

End JackknifeMedian.

(** ** Notebook "Probability & data generation process": the rates *)
Module Rates.
Import Np.
Local Open Scope Q_scope.

(** [np.random.uniform(low=low, high=high)]: one draw. *)
Definition uniform1 (low high : Q) : M Q :=
  sampler (fun row => Ok (low + (high - low) * unit_interval (row 0%nat))).

(** *** Sign up Flow: the dictionaries of the rates *)
Definition hist_ctr : Q := 1 # 100.
Definition hist_sur : Q := 2 # 10.
Definition hight_rate : Q := 12 # 10.

Definition signup_rates : M (gmap string Q * gmap string Q) :=
  high_ctr <- uniform1 hist_ctr (hight_rate * hist_ctr) ;;
  let ct_rate : gmap string Q := <["high"%string := high_ctr]> {[ "low"%string := hist_ctr ]} in
  high_sur <- uniform1 hist_sur (hight_rate * hist_sur) ;;
  let su_rate : gmap string Q := <["high"%string := high_sur]> {[ "low"%string := hist_sur ]} in
  ret (ct_rate, su_rate).

End Rates.

(** * What the further properties speak of

    Kernels after a function ran, the arrays a cell draws, and the
    quantities the properties of the further cells are stated with. *)
Section Quantities.
Import Np.
Local Open Scope Q_scope.

(** What a principal of 1 grows to over years with the given rates. *)
Definition growth (rates : list Q) : Q := foldr (fun x acc => (1 + x) * acc) 1 rates.

(** What a principal has grown to after the years of the given rates,
    one multiplication a year. *)
Definition compounded (principal : Q) (rates : list Q) : Q :=
  foldl (fun end_return x => end_return * (1 + x)) principal rates.

(** The return of the [n]-th call of [portfolio_return] after seeding,
    read off the stream the seed installs: ten yearly rates from row [n]. *)
Definition return_of (stream : nat -> nat -> Q) (avg_return sd_of_return : Q) (n : nat) : Q :=
  compounded 10000 (map (fun y => avg_return + sd_of_return * stream n y) (seq 0 10)).

Definition stock_returns (stream : nat -> nat -> Q) : list Q :=
  map (fun i => return_of stream (7 # 100) (3 # 10) (2 * i)) (seq 0 1000).

Definition bond_returns (stream : nat -> nat -> Q) : list Q :=
  map (fun i => return_of stream (4 # 100) (1 # 10) (2 * i + 1)) (seq 0 1000).

(** The kernel after a notebook function was entered and made one
    sampler call. *)
Definition entered (name : string) (k : kernel) : kernel :=
  Kernel (tape k) (S (cursor k)) (seeded k) (name :: calls k) (heap k).

(** The points at which [sim_integrate] evaluates the function: its
    first sampler call. *)
Definition integration_points (xmin xmax : Q) (sims : nat) (k : kernel) : list Q :=
  map (fun i => xmin + (xmax - xmin) * unit_interval (tape k (cursor k) i)) (seq 0 sims).

(** The means [get_signups] draws with its first sampler call, and the
    impressions it draws from them with its second. *)
Definition drawn_lam (sims : nat) (k : kernel) : list Q :=
  map (fun i => Probability.lambda_mean + Probability.lambda_std * tape k (cursor k) i)
      (seq 0 sims).

Definition drawn_impressions (sims : nat) (k : kernel) : list nat :=
  imap (fun i l => if Qeq_bool l 0 then 0%nat else random_count (tape k (S (cursor k)) i))
       (drawn_lam sims k).

(** The kernel after [get_signups] made [n] sampler calls. *)
Definition signups_kernel (n : nat) (k : kernel) : kernel :=
  Kernel (tape k) (n + cursor k) (seeded k) ("get_signups" :: calls k) (heap k).

(** The cards of the [i]-th game of thirteen, in the order drawn. *)
Definition thirteen_draw (k : kernel) (i : nat) : list nat :=
  map (fun j => nth j (seq 1 13) 1%nat)
      (take 13 (shuffled (tape k (cursor k + i)%nat) (seq 0 13))).

(** No card of a draw is the card its turn calls: the [j]-th card drawn,
    counting from 0, is not [j + 1]. *)
Definition no_coincidence (draw : list nat) : bool :=
  forallb (fun jc : nat * nat => negb (jc.2 =? S jc.1)%nat) (imap pair draw).

(** The value [np.percentile] interpolates at a position of the sorted
    array. *)
Definition interpolate (s : list Q) (d : Q) (pos : Q) : Q :=
  let below := Z.to_nat (Qfloor pos) in
  let above := Nat.min (S below) (length s - 1)%nat in
  let w := pos - inject_Z (Qfloor pos) in
  nth below s d * (1 - w) + nth above s d * w.

(** How many cards of a hand show a value. *)
Definition occurrences (value : nat) (hand : list card) : nat :=
  length (filter (fun c : card => c.2 = value) hand).

(** The square of the distance of a point from the centre. *)
Definition squared_distance (point : list Q) : Q := nth 0 point 0 ^ 2 + nth 1 point 0 ^ 2.

(** The face a die shows for a draw from the unit interval. *)
Definition face (u : Q) : Z := (1 + Qfloor (6 * u))%Z.

(** The [j]-th die of the [i]-th game. *)
Definition die_of (k : kernel) (i j : nat) : Z :=
  face (unit_interval (tape k (cursor k + i)%nat j)).

(** The draw from the unit interval that decides the [j]-th die of the
    [i]-th game. *)
Definition die_draw (k : kernel) (i j : nat) : Q :=
  unit_interval (tape k (cursor k + i)%nat j).

(** A draw that rounding cannot move to another sixth of the unit
    interval: it is not within the margin of a boundary between sixths. *)
Definition away_from_sixths (u : Q) : Prop :=
  rounding_margin <= 6 * u - inject_Z (Qfloor (6 * u)) <= 1 - rounding_margin.

(** The draw from the unit interval that decides the [i]-th lottery
    ticket. *)
Definition ticket_draw (k : kernel) (i : nat) : Q := unit_interval (tape k (cursor k) i).

End Quantities.

(** * Properties *)

(** ** The monad and the generator *)
Section Generator.
Import Np.
Local Open Scope Q_scope.

Lemma advance_0 k : advance 0 k = k.
Proof. destruct k; unfold advance; simpl. by rewrite Nat.add_0_r. Qed.

Lemma advance_S n k :
  advance n (Kernel (tape k) (S (cursor k)) (seeded k) (calls k) (heap k)) = advance (S n) k.
Proof. unfold advance; simpl. f_equal. lia. Qed.

(** A loop whose body makes one sampler call that cannot fail and appends
    a function of the draw: the array it builds, and the calls it uses. *)
Lemma for_each_sampler_append {A B C} (g : A -> (nat -> Q) -> B) (h : A -> B -> C) :
  forall (xs : list A) (acc : list C) (k : kernel),
    for_each xs (fun x acc => b <- sampler (fun row => Ok (g x row)) ;; ret (acc ++ [h x b])) acc k
    = (Ok (acc ++ imap (fun j x => h x (g x (tape k (cursor k + j)%nat))) xs),
       advance (length xs) k).
Proof.
  induction xs as [|x xs IH]; intros acc k.
  - simpl. by rewrite app_nil_r, advance_0.
  - cbn [for_each]. unfold bind at 1. unfold bind at 1. unfold sampler at 1. cbn [ret].
    rewrite IH. cbn [tape cursor length imap]. rewrite advance_S.
    rewrite <- app_assoc. cbn [app]. rewrite Nat.add_0_r.
    do 4 f_equal. apply imap_ext. intros j y _. cbn. do 3 f_equal. lia.
Qed.

Lemma bind_Ok {A B} (m : M A) (f : A -> M B) (k k' : kernel) (a : A) :
  m k = (Ok a, k') -> bind m f k = f a k'.
Proof. intros H. unfold bind. by rewrite H. Qed.

(** An exception passes through what follows unchanged: nothing catches it. *)
Lemma bind_Raise {A B} (m : M A) (f : A -> M B) (k k' : kernel) (e : exn) :
  m k = (Raise e, k') -> bind m f k = (Raise e, k').
Proof. intros H. unfold bind. by rewrite H. Qed.

(** A loop whose body cannot fail, by an invariant indexed by the
    number of iterations made. *)
Lemma for_each_invariant {A St} (xs : list A) (body : A -> St -> M St) :
  forall (I : nat -> St -> kernel -> Prop) (acc : St) (k : kernel),
    I 0%nat acc k ->
    (forall j x acc k, xs !! j = Some x -> I j acc k ->
       exists acc' k', body x acc k = (Ok acc', k') /\ I (S j) acc' k') ->
    exists acc' k', for_each xs body acc k = (Ok acc', k') /\ I (length xs) acc' k'.
Proof.
  induction xs as [|x xs IH]; intros I acc k H0 Hstep.
  - exists acc, k. by split.
  - destruct (Hstep 0%nat x acc k eq_refl H0) as (acc1 & k1 & Hb & H1).
    destruct (IH (fun j => I (S j)) acc1 k1 H1) as (acc' & k' & Hl & HI).
    { intros j y a kk Hj. apply (Hstep (S j)). exact Hj. }
    exists acc', k'. split; [|exact HI].
    cbn [for_each]. unfold bind. by rewrite Hb.
Qed.

Lemma for_range_invariant {St} (n : nat) (body : nat -> St -> M St) :
  forall (I : nat -> St -> kernel -> Prop) (acc : St) (k : kernel),
    I 0%nat acc k ->
    (forall j acc k, (j < n)%nat -> I j acc k ->
       exists acc' k', body j acc k = (Ok acc', k') /\ I (S j) acc' k') ->
    exists acc' k', for_range n body acc k = (Ok acc', k') /\ I n acc' k'.
Proof.
  intros I acc k H0 Hstep. unfold for_range.
  destruct (for_each_invariant (seq 0 n) body I acc k H0) as (acc' & k' & H & HI).
  - intros j x a kk Hj. apply lookup_seq in Hj as [-> Hj]. by apply Hstep.
  - exists acc', k'. by rewrite length_seq in HI.
Qed.

Lemma advance_advance (a b : nat) (k : kernel) : advance a (advance b k) = advance (b + a) k.
Proof. unfold advance; cbn. f_equal. lia. Qed.

(** More fuel does not change the result of a loop that has ended. *)
Lemma while_more_fuel {St} (cond : St -> bool) (body : St -> M (step St)) :
  forall (fuel : nat) (s : St) (k : kernel) r,
    while fuel cond body s k = Some r ->
    forall fuel', (fuel <= fuel')%nat -> while fuel' cond body s k = Some r.
Proof.
  induction fuel as [|fuel IH]; intros s k r H fuel' Hle; [done|].
  destruct fuel' as [|fuel']; [lia|]. cbn [while] in *.
  destruct (cond s); [|done].
  destruct (body s k) as [[[s'|s']|e] k']; [|done..].
  apply (IH _ _ _ H). lia.
Qed.

Lemma lookup_map_seq {B} (f : nat -> B) (n i : nat) :
  (i < n)%nat -> map f (seq 0 n) !! i = Some (f i).
Proof.
  intros Hi. change (map f (seq 0 n)) with (f <$> seq 0 n).
  rewrite list_lookup_fmap, lookup_seq_lt by exact Hi. reflexivity.
Qed.

End Generator.

(** Step over a computation whose run is known. *)
Ltac run_bind H := rewrite (bind_Ok _ _ _ _ _ H).

(** ** Running a simple bootstrap *)
Section Bootstrap.
Import Np Resampling.
Local Open Scope Q_scope.

Lemma random_index_lt (n : nat) (q : Q) : (0 < n)%nat -> (random_index n q < n)%nat.
Proof.
  intros Hn. unfold random_index.
  assert (0 <= Qfloor q mod Z.of_nat n < Z.of_nat n)%Z by (apply Z.mod_pos_bound; lia).
  lia.
Qed.

Lemma resample_length wl k i : length (resample wl k i) = length wl.
Proof. unfold resample. by rewrite length_map, length_seq. Qed.

Lemma resample_elem_of wl k i x : x ∈ resample wl k i -> x ∈ wl.
Proof.
  unfold resample. intros Hx. apply list_elem_of_fmap in Hx as (j & -> & Hj).
  apply list_elem_of_In, nth_In, random_index_lt.
  apply elem_of_seq in Hj. lia.
Qed.

Lemma mean_nonempty (xs : list Q) :
  xs <> [] -> mean xs = Some (Qsum xs / inject_Z (Z.of_nat (length xs))).
Proof. by destruct xs. Qed.

End Bootstrap.

(** ** Basic jackknife estimation - mean *)
Section Jackknife.
Import Np Resampling.
Local Open Scope Q_scope.

Lemma Qsum_cons x xs : Qsum (x :: xs) = x + Qsum xs.
Proof. reflexivity. Qed.




Lemma foldl_append {A B} (f : A -> B) (xs : list A) (acc : list B) :
  foldl (fun acc i => acc ++ [f i]) acc xs = acc ++ map f xs.
Proof.
  revert acc. induction xs as [|x xs IH]; intros acc; simpl.
  - by rewrite app_nil_r.
  - rewrite IH, <- app_assoc. reflexivity.
Qed.

(** A mask that excludes an index the array does not reach keeps it all. *)
Lemma select_keep_all (xs : list Q) (s t : nat) :
  (t < s)%nat ->
  select xs (map (fun k => negb (k =? t)%nat) (seq s (length xs))) = xs.
Proof.
  revert s. induction xs as [|x xs IH]; intros s Hts; [done|].
  cbn [length seq map select].
  destruct (Nat.eqb_spec s t); [lia|]. cbn [negb]. f_equal. apply IH. lia.
Qed.

(** The [i]-th jackknife sample leaves out the [i]-th observation and
    nothing else. *)
Lemma jk_sample_delete_from (xs : list Q) (s i : nat) :
  select xs (map (fun k => negb (k =? s + i)%nat) (seq s (length xs))) = delete i xs.
Proof.
  revert s i. induction xs as [|x xs IH]; intros s i; [done|].
  cbn [length seq map select]. destruct i as [|i].
  - rewrite Nat.add_0_r, Nat.eqb_refl. cbn [negb delete list_delete].
    apply select_keep_all. lia.
  - destruct (Nat.eqb_spec s (s + S i)); [lia|]. cbn [negb delete list_delete]. f_equal.
    replace (s + S i)%nat with (S s + i)%nat by lia. apply IH.
Qed.

Lemma jk_sample_delete (xs : list Q) (i : nat) :
  jk_sample xs (seq 0 (length xs)) i = delete i xs.
Proof. unfold jk_sample. apply (jk_sample_delete_from xs 0 i). Qed.





End Jackknife.

(** ** Shuffles and permutations *)
Section Shuffle.
Import Np.
Context {A : Type}.
Implicit Types (x : list A) (row : nat -> Q).

Lemma insert_Permutation x i y :
  (i < length x)%nat -> <[i := y]> x ≡ₚ y :: delete i x.
Proof.
  intros Hi. rewrite insert_take_drop, delete_take_drop by done.
  symmetry. apply Permutation_middle.
Qed.

Lemma swap_length x i j : length (swap x i j) = length x.
Proof.
  unfold swap. destruct (x !! i), (x !! j); try done.
  by rewrite !length_insert.
Qed.

(** Exchanging two entries rearranges the list and nothing more. *)
Lemma swap_Permutation x i j : swap x i j ≡ₚ x.
Proof.
  unfold swap. destruct (x !! i) as [xi|] eqn:Hi; [|done].
  destruct (x !! j) as [xj|] eqn:Hj; [|done].
  assert (Hli : (i < length x)%nat) by (by eapply lookup_lt_Some).
  assert (Hlj : (j < length x)%nat) by (by eapply lookup_lt_Some).
  assert (H1 : <[i := xj]> x ≡ₚ xj :: delete i x) by (by apply insert_Permutation).
  assert (H1j : <[i := xj]> x !! j = Some xj).
  { destruct (decide (i = j)) as [->|Hne].
    - by apply list_lookup_insert_eq.
    - by rewrite list_lookup_insert_ne. }
  rewrite insert_Permutation by (by rewrite length_insert).
  apply delete_Permutation in H1j. rewrite H1j in H1.
  apply Permutation_cons_inv in H1. rewrite H1.
  symmetry. by apply delete_Permutation.
Qed.

Lemma shuffle_from_Permutation row i x : shuffle_from row i x ≡ₚ x.
Proof.
  revert x. induction i as [|i IH]; intros x; [done|].
  cbn [shuffle_from]. rewrite IH. apply swap_Permutation.
Qed.

(** A shuffle keeps every element, each as often as before. *)
Lemma shuffled_Permutation row x : shuffled row x ≡ₚ x.
Proof. apply shuffle_from_Permutation. Qed.

End Shuffle.

(** ** Hypothesis testing - Difference of means *)
Section PermutationTest.
Import Np Resampling.
Local Open Scope Q_scope.

Lemma comprehension_sampler {B} (g : (nat -> Q) -> B) (m : nat) (k : kernel) :
  comprehension m (fun _ => sampler (fun row => Ok (g row))) k
  = (Ok (map (fun c => g (tape k (cursor k + c)%nat)) (seq 0 m)), advance m k).
Proof.
  unfold comprehension, for_range.
  rewrite (for_each_sampler_append (fun (_ : nat) row => g row) (fun _ b => b)).
  rewrite app_nil_l, length_seq.
  by rewrite (imap_seq_0 (seq 0 m) (fun j => g (tape k (cursor k + j)%nat))), length_seq.
Qed.

Lemma take_at_Ok (data : list Q) (idx : list nat) :
  Forall (fun i => (i < length data)%nat) idx ->
  take_at data idx = Ok (map (fun i => nth i data 0) idx).
Proof.
  intros H. unfold take_at.
  assert (Hm : mapM (fun i => data !! i) idx = Some (map (fun i => nth i data 0) idx)).
  { apply mapM_Some. induction H as [|i idx Hi _ IH]; [constructor|].
    cbn [map]. constructor; [|done].
    apply lookup_lt_is_Some in Hi as [x Hx]. by rewrite (nth_lookup_Some _ _ _ _ Hx). }
  by rewrite Hm.
Qed.

Lemma take_rows_Ok (data : list Q) (idx : list (list nat)) :
  Forall (Forall (fun i => (i < length data)%nat)) idx ->
  take_rows data idx = Ok (map (map (fun i => nth i data 0)) idx).
Proof.
  induction 1 as [|r idx Hr _ IH]; [done|].
  cbn [take_rows map]. by rewrite (take_at_Ok _ _ Hr), IH.
Qed.

Lemma count_true_filter {B} (f : B -> bool) (l : list B) :
  count_true (map f l) = length (filter (fun x => f x = true) l).
Proof.
  induction l as [|x l IH]; [done|].
  cbn [map count_true foldr]. rewrite filter_cons.
  destruct (f x) eqn:E.
  - rewrite decide_True by done. cbn [length]. f_equal. exact IH.
  - rewrite decide_False by done. exact IH.
Qed.

Lemma zip_with_map_map {B C D E} (f : C -> D -> E) (g : B -> C) (h : B -> D) (l : list B) :
  zip_with f (map g l) (map h l) = map (fun x => f (g x) (h x)) l.
Proof. induction l as [|x l IH]; [done|]. cbn. by rewrite IH. Qed.

Lemma drawn_permutations_length n k : length (drawn_permutations n k) = 1000%nat.
Proof. unfold drawn_permutations. by rewrite length_map, length_seq. Qed.

Lemma drawn_permutations_Permutation n k :
  Forall (fun perm => perm ≡ₚ seq 0 n) (drawn_permutations n k).
Proof.
  unfold drawn_permutations. apply Forall_forall. intros perm Hp.
  apply list_elem_of_fmap in Hp as (c & -> & _). apply shuffled_Permutation.
Qed.

Lemma Permutation_seq_bound (perm : list nat) (n : nat) :
  perm ≡ₚ seq 0 n -> Forall (fun i => (i < n)%nat) perm.
Proof.
  intros H. apply Forall_forall. intros i Hi. rewrite H in Hi.
  apply elem_of_seq in Hi. lia.
Qed.

(** What the cell computes, for every pair of arrays and every kernel. *)
Lemma difference_of_means_run (donations_A donations_B : list Q) (k : kernel) :
  let perms := drawn_permutations (length donations_A + length donations_B) k in
  difference_of_means donations_A donations_B k
  = (Ok (p_value_in_words donations_A donations_B perms,
         map (fun perm => take (length donations_A) (permuted_data donations_A donations_B perm))
             perms,
         map (fun perm => drop (length donations_A) (permuted_data donations_A donations_B perm))
             perms),
     advance 1000 k).
Proof.
  intros perms. unfold difference_of_means.
  unfold bind at 1. unfold permutation, reps.
  rewrite (comprehension_sampler
             (fun row => shuffled row (seq 0 (length donations_A + length donations_B)))).
  fold (drawn_permutations (length donations_A + length donations_B) k). fold perms.
  assert (Hb : Forall (Forall (fun i => (i < length (donations_A ++ donations_B))%nat)) perms).
  { eapply Forall_impl; [apply drawn_permutations_Permutation|].
    intros perm Hp. rewrite length_app. by apply Permutation_seq_bound. }
  unfold bind, lift, ret.
  rewrite !take_rows_Ok.
  2:{ apply Forall_fmap. eapply Forall_impl; [exact Hb|]. intros perm Hp. cbn.
      by apply Forall_drop. }
  2:{ apply Forall_fmap. eapply Forall_impl; [exact Hb|]. intros perm Hp. cbn.
      by apply Forall_take. }
  rewrite !map_map.
  assert (HA : map (fun perm => map (fun i => nth i (donations_A ++ donations_B) 0)
                                    (take (length donations_A) perm)) perms
               = map (fun perm => take (length donations_A)
                                       (permuted_data donations_A donations_B perm)) perms).
  { apply map_ext. intros perm. unfold permuted_data. apply fmap_take. }
  assert (HB : map (fun perm => map (fun i => nth i (donations_A ++ donations_B) 0)
                                    (drop (length donations_A) perm)) perms
               = map (fun perm => drop (length donations_A)
                                       (permuted_data donations_A donations_B perm)) perms).
  { apply map_ext. intros perm. unfold permuted_data. apply fmap_drop. }
  rewrite HA, HB. do 3 f_equal.
  unfold p_value, p_value_in_words.
  rewrite zip_with_map_map, map_map.
  rewrite (map_ext _ (fun perm => fge (permuted_difference donations_A donations_B perm)
                                      (fabs (observed_difference donations_A donations_B)))).
  2:{ intros perm. unfold permuted_difference, permuted_data.
      by rewrite fmap_take, fmap_drop. }
  rewrite count_true_filter. reflexivity.
Qed.







Lemma count_true_le (bs : list bool) : (count_true bs <= length bs)%nat.
Proof.
  induction bs as [|b bs IH]; [done|].
  change (count_true (b :: bs)) with (if b then S (count_true bs) else count_true bs).
  destruct b; cbn [length]; lia.
Qed.

(** Twice a count over at most 1000 comparisons, divided by 1000. *)
Lemma p_value_bounds (samples : list fl) (test_stat : fl) :
  (length samples <= 1000)%nat -> 0 <= p_value samples test_stat <= 2.
Proof.
  intros Hlen. unfold p_value.
  set (c := count_true _).
  assert (Hc : (c <= 1000)%nat).
  { subst c. etrans; [apply count_true_le|]. by rewrite length_map. }
  change (inject_Z (Z.of_nat reps)) with 1000.
  split.
  - apply Qle_shift_div_l; [reflexivity|]. rewrite Qmult_0_l.
    change 0 with (inject_Z 0). rewrite <- Zle_Qle. lia.
  - apply Qle_shift_div_r; [reflexivity|].
    change (2 * 1000) with (inject_Z 2000). rewrite <- Zle_Qle. lia.
Qed.

Lemma length_filter_Forall {B} (P : B -> Prop) `{!forall x, Decision (P x)} (l : list B) :
  Forall P l -> length (filter P l) = length l.
Proof.
  induction 1 as [|x l Hx _ IH]; [done|].
  rewrite filter_cons, decide_True by done. cbn [length]. by rewrite IH.
Qed.

(** C8. Each p-value of the permutation-test cells lies between 0 and 2,
    whatever the arrays and the draws; and for the arrays [[1]] and [[1]]
    the difference-of-means p-value is above 1 (it is 2) whatever the
    draws: the doubled one-sided count is not capped at 1. *)
Theorem p_value_within_0_2_not_capped :
  (forall (donations_A donations_B : list Q) (k : kernel),
     exists p_val permuted_A_datasets permuted_B_datasets k',
       difference_of_means donations_A donations_B k
       = (Ok (p_val, permuted_A_datasets, permuted_B_datasets), k')
       /\ 0 <= p_val <= 2
       /\ 0 <= (nonstandard_statistics donations_A donations_B
                  permuted_A_datasets permuted_B_datasets).1 <= 2
       /\ 0 <= (nonstandard_statistics donations_A donations_B
                  permuted_A_datasets permuted_B_datasets).2 <= 2)
  /\ (forall k : kernel,
        exists p_val permuted_A_datasets permuted_B_datasets k',
          difference_of_means [1] [1] k
          = (Ok (p_val, permuted_A_datasets, permuted_B_datasets), k')
          /\ 1 < p_val).
Proof.
  split.
  - intros A B k. eexists _, _, _, _. split; [apply difference_of_means_run|].
    pose proof (drawn_permutations_length (length A + length B) k) as Hlen.
    split; [|split].
    + pose proof (p_value_bounds
               (map (permuted_difference A B) (drawn_permutations (length A + length B) k))
               (observed_difference A B)) as Hb.
      unfold p_value in Hb. rewrite map_map, count_true_filter in Hb.
      apply Hb. rewrite length_map. lia.
    + cbn [nonstandard_statistics fst]. apply p_value_bounds.
      rewrite length_zip_with, !length_map. lia.
    + cbn [nonstandard_statistics snd]. apply p_value_bounds.
      rewrite length_zip_with, !length_map. lia.
  - intros k. eexists _, _, _, _. split; [apply difference_of_means_run|].
    unfold p_value_in_words.
    rewrite length_filter_Forall.
    + rewrite drawn_permutations_length. reflexivity.
    + eapply Forall_impl; [apply drawn_permutations_Permutation|].
      intros perm Hp. cbn in Hp. symmetry in Hp.
      apply Permutation_length_2_inv in Hp as [-> | ->]; reflexivity.
Qed.

End PermutationTest.

(** ** The while loops *)
Section Lottery.
Import Np Basics.
Local Open Scope Q_scope.

Lemma Qsum_negative (xs : list Q) :
  xs <> [] -> Forall (fun x => x < 0) xs -> Qsum xs < 0.
Proof.
  intros Hne H. induction H as [|x xs Hx Hxs IH]; [done|].
  rewrite Qsum_cons. destruct xs as [|y ys].
  - unfold Qsum; simpl. lra.
  - assert (Qsum (y :: ys) < 0) by (by apply IH). lra.
Qed.

(** One drawing of [size] tickets at a price: the outcomes are losses of
    the price or the prize less the price. *)
Lemma lottery_draw (cost : Z) (size : nat) (k : kernel) :
  exists outcomes,
    choice_p [(- cost)%Z; (grand_prize - cost)%Z] [1 - chance_of_winning; chance_of_winning]
             size k
    = (Ok outcomes, advance 1 k)
    /\ length outcomes = size
    /\ Forall (fun o => o = (- cost)%Z \/ o = (grand_prize - cost)%Z) outcomes.
Proof.
  eexists. split; [|split].
  - unfold choice_p, sampler.
    change (negb (Nat.eqb (length [(- cost)%Z; (grand_prize - cost)%Z])
                          (length [1 - chance_of_winning; chance_of_winning]))) with false.
    change (existsb (fun x => negb (Qle_bool 0 x)) [1 - chance_of_winning; chance_of_winning])
      with false.
    change (negb (Qeq_bool (Qsum [1 - chance_of_winning; chance_of_winning]) 1)) with false.
    cbv iota. unfold advance. by rewrite Nat.add_1_r.
  - by rewrite length_map, length_seq.
  - apply Forall_forall. intros o Ho. apply list_elem_of_fmap in Ho as (i & -> & _).
    generalize (searchsorted_right (cumsum [1 - chance_of_winning; chance_of_winning])
                  (unit_interval (tape k (cursor k) i))).
    intros [|[|[|n]]]; cbn; auto.
Qed.

(** Above the prize every outcome is a loss, so the mean payoff is negative. *)
Lemma lottery_mean_negative (cost : Z) (outcomes : list Z) :
  outcomes <> [] -> (grand_prize < cost)%Z ->
  Forall (fun o => o = (- cost)%Z \/ o = (grand_prize - cost)%Z) outcomes ->
  flt (mean (map inject_Z outcomes)) (Some 0) = true.
Proof.
  intros Hne Hc H. unfold mean.
  destruct (map inject_Z outcomes) as [|q qs] eqn:E.
  { destruct outcomes; [done|discriminate]. }
  rewrite <- E. clear E q qs. cbn [flt]. unfold Qlt_bool.
  apply negb_true_iff. destruct (Qle_bool _ _) eqn:Hle; [|done]. exfalso.
  apply Qle_bool_iff in Hle.
  assert (Hs : Qsum (map inject_Z outcomes) < 0).
  { apply Qsum_negative; [by destruct outcomes|].
    apply Forall_forall. intros q Hq.
    apply list_elem_of_fmap in Hq as (o & -> & Ho).
    rewrite Forall_forall in H. change 0 with (inject_Z 0). rewrite <- Zlt_Qlt.
    unfold grand_prize in *. destruct (H o Ho); lia. }
  assert (Hn : 0 < inject_Z (Z.of_nat (length (map inject_Z outcomes)))).
  { change 0 with (inject_Z 0). rewrite <- Zlt_Qlt. rewrite length_map.
    destruct outcomes; [done|]. cbn [length]. lia. }
  assert (Hd : Qsum (map inject_Z outcomes) / inject_Z (Z.of_nat (length (map inject_Z outcomes))) < 0).
  { apply Qlt_shift_div_r; [exact Hn|]. lra. }
  lra.
Qed.

(** The loop from a price [cost] ends within [m + 1] iterations when the
    prize is at most [m] prices away. *)
Lemma lottery_loop_ends (m : nat) :
  forall (cost : Z) (k : kernel),
    (grand_prize + 1 - cost <= Z.of_nat m)%Z ->
    exists fuel cost' k',
      (fuel <= S m)%nat
      /\ while fuel (fun _ => true)
           (fun lottery_ticket_cost : Z =>
              outcomes <- choice_p [(- lottery_ticket_cost)%Z;
                                    (grand_prize - lottery_ticket_cost)%Z]
                                   [1 - chance_of_winning; chance_of_winning] 3000 ;;
              if flt (mean (map inject_Z outcomes)) (Some 0)
              then ret (Break lottery_ticket_cost)
              else ret (Continue (lottery_ticket_cost + 1)%Z))
           cost k
         = Some (Ok cost', k')
      /\ (cost <= cost' <= Z.max cost (grand_prize + 1))%Z.
Proof.
  induction m as [|m IH]; intros cost k Hm;
    destruct (lottery_draw cost 3000 k) as (outcomes & Hdraw & Hlen & Hout);
    assert (Hne : outcomes <> []) by (intros ->; discriminate Hlen);
    clear Hlen.
  - exists 1%nat, cost, (advance 1 k). split; [lia|]. split; [|lia].
    cbn [while]. run_bind Hdraw.
    rewrite (lottery_mean_negative cost outcomes Hne); [reflexivity|lia|exact Hout].
  - destruct (flt (mean (map inject_Z outcomes)) (Some 0)) eqn:Hneg.
    + exists 1%nat, cost, (advance 1 k). split; [lia|]. split; [|lia].
      cbn [while]. rewrite (bind_Ok _ _ _ _ _ Hdraw), Hneg. reflexivity.
    + assert (Hle : (cost <= grand_prize)%Z).
      { destruct (Z_lt_le_dec grand_prize cost) as [Hgt|Hle]; [|exact Hle].
        rewrite (lottery_mean_negative cost outcomes Hne Hgt Hout) in Hneg.
        discriminate Hneg. }
      destruct (IH (cost + 1)%Z (advance 1 k)) as (fuel & cost' & k' & Hf & Hw & Hb); [lia|].
      exists (S fuel), cost', k'. split; [lia|]. split; [|lia].
      cbn [while]. rewrite (bind_Ok _ _ _ _ _ Hdraw), Hneg. exact Hw.
Qed.

Lemma Qsum_nonnegative (xs : list Q) : Forall (fun x => 0 <= x) xs -> 0 <= Qsum xs.
Proof.
  induction 1 as [|x xs Hx _ IH]; [by compute|]. rewrite Qsum_cons. lra.
Qed.

(** At a price of 0 no outcome is a loss, so the mean payoff is not negative. *)
Lemma lottery_mean_not_negative (outcomes : list Z) :
  Forall (fun o => (0 <= o)%Z) outcomes ->
  flt (mean (map inject_Z outcomes)) (Some 0) = false.
Proof.
  intros H. unfold mean. destruct (map inject_Z outcomes) as [|q qs] eqn:E; [done|].
  rewrite <- E. clear E q qs. cbn [flt]. unfold Qlt_bool.
  apply negb_false_iff, Qle_bool_iff.
  destruct outcomes as [|o outcomes]; [by compute|].
  apply Qle_shift_div_l.
  - change 0 with (inject_Z 0). rewrite <- Zlt_Qlt. cbn [map length]. lia.
  - rewrite Qmult_0_l. apply Qsum_nonnegative.
    apply Forall_forall. intros q Hq. apply list_elem_of_fmap in Hq as (z & -> & Hz).
    rewrite Forall_forall in H. change 0 with (inject_Z 0). rewrite <- Zle_Qle. by apply H.
Qed.

(** The break-even loop ends for every kernel, within 1,000,002
    iterations, at a price of at most the prize. *)
Lemma break_even_lottery_price_ends (k : kernel) :
  exists fuel answer k',
    (Z.of_nat fuel <= 1000002)%Z
    /\ break_even_lottery_price fuel k = Some (Ok answer, k')
    /\ (0 <= answer <= 1000000)%Z.
Proof.
  destruct (lottery_draw 0 3000 k) as (outcomes & Hdraw & _ & Hout).
  assert (Hfirst : flt (mean (map inject_Z outcomes)) (Some 0) = false).
  { apply lottery_mean_not_negative. eapply Forall_impl; [exact Hout|].
    intros o Ho. cbv beta in Ho. unfold grand_prize in Ho. lia. }
  destruct (lottery_loop_ends (Z.to_nat 1000000) 1%Z (advance 1 k))
    as (fuel & cost' & k' & Hf & Hw & Hb).
  { unfold grand_prize. lia. }
  exists (S fuel), (cost' - 1)%Z, k'. split; [lia|]. split.
  - unfold break_even_lottery_price. cbn [while]. run_bind Hdraw.
    rewrite Hfirst. unfold ret at 1. cbv beta iota.
    change (0 + 1)%Z with 1%Z. rewrite Hw. reflexivity.
  - unfold grand_prize in Hb. lia.
Qed.

End Lottery.

Section Birthday.
Import Np Probability.
Local Open Scope Q_scope.

Lemma choice_nonempty {A} (a : list A) (size : nat) (k : kernel) :
  a <> [] ->
  exists draw,
    choice a size k = (Ok draw, advance 1 k)
    /\ length draw = size
    /\ Forall (fun x => x ∈ a) draw.
Proof.
  intros Hne. destruct a as [|d a']; [done|].
  eexists. split; [|split].
  - unfold choice, sampler, advance. by rewrite Nat.add_1_r.
  - by rewrite length_map, length_seq.
  - apply Forall_forall. intros x Hx. apply list_elem_of_fmap in Hx as (i & -> & _).
    apply list_elem_of_In, nth_In, random_index_lt. cbn [length]. lia.
Qed.

(** More people than days: two of them share a birthday. *)
Lemma more_people_than_days (draw : list nat) :
  (365 < length draw)%nat -> Forall (fun x => x ∈ days) draw ->
  (length draw =? size (list_to_set draw : gset nat))%nat = false.
Proof.
  intros Hlen Hin. apply Nat.eqb_neq.
  assert (Hsub : (list_to_set draw : gset nat) ⊆ list_to_set days).
  { intros x Hx. apply elem_of_list_to_set in Hx. apply elem_of_list_to_set.
    rewrite Forall_forall in Hin. by apply Hin. }
  apply subseteq_size in Hsub.
  rewrite (size_list_to_set days) in Hsub by apply NoDup_seq.
  unfold days in Hsub. rewrite length_seq in Hsub. lia.
Qed.

(** [birthday_sim] returns for every number of people, and with more
    than 365 people the simulated probability of a match is 1. *)
Lemma birthday_sim_returns (people : nat) (k : kernel) :
  exists out k',
    birthday_sim people k = (Ok out, k')
    /\ ((365 < people)%nat -> Qlt_bool (1 # 2) out = true).
Proof.
  unfold birthday_sim, bind at 1, enter.
  set (k0 := Kernel _ _ _ _ _).
  destruct (for_range_invariant 2000
              (fun (_ : nat) unique_birthdays =>
                 draw <- choice days people ;;
                 ret (if (length draw =? size (list_to_set draw : gset nat))%nat
                      then S unique_birthdays else unique_birthdays))
              (fun _ u _ => (365 < people)%nat -> u = 0%nat) 0%nat k0)
    as (u & k' & Hrun & Hu).
  - done.
  - intros j acc kk _ Hacc.
    destruct (choice_nonempty days people kk) as (draw & Hd & Hlen & Hin).
    { unfold days. intros H. apply (f_equal length) in H. by rewrite length_seq in H. }
    eexists _, _. split.
    + unfold bind. rewrite Hd. reflexivity.
    + intros Hp. rewrite more_people_than_days by (by rewrite ?Hlen). by apply Hacc.
  - eexists _, k'. split.
    + run_bind Hrun. reflexivity.
    + intros Hp. rewrite (Hu Hp). reflexivity.
Qed.

Lemma birthday_loop_ends (d m : nat) :
  (forall people k, exists out k',
      birthday_sim people k = (Ok out, k')
      /\ ((d < people)%nat -> Qlt_bool (1 # 2) out = true)) ->
  forall (people : nat) (k : kernel),
    (0 < people <= S d)%nat -> (S d - people <= m)%nat ->
    exists fuel people' k',
      (fuel <= S m)%nat
      /\ while fuel (fun people => (0 <? people)%nat)
           (fun people =>
              prop_bds <- birthday_sim people ;;
              if Qlt_bool (1 # 2) prop_bds then ret (Break people)
              else ret (Continue (people + 1)%nat))
           people k
         = Some (Ok people', k')
      /\ (people <= people' <= S d)%nat.
Proof.
  intros Hsim_returns.
  induction m as [|m IH]; intros people k Hpos Hm;
    destruct (Hsim_returns people k) as (out & k1 & Hsim & Hout);
    assert (Hcond : (0 <? people)%nat = true) by (apply Nat.ltb_lt; lia).
  - exists 1%nat, people, k1. split; [lia|]. split; [|lia].
    cbn [while]. rewrite Hcond, (bind_Ok _ _ _ _ _ Hsim), Hout by lia. reflexivity.
  - destruct (Qlt_bool (1 # 2) out) eqn:Hlt.
    + exists 1%nat, people, k1. split; [lia|]. split; [|lia].
      cbn [while]. rewrite Hcond, (bind_Ok _ _ _ _ _ Hsim), Hlt. reflexivity.
    + assert (Hle : (people <= d)%nat).
      { destruct (le_lt_dec people d) as [Hle|Hgt]; [exact Hle|].
        pose proof (Hout Hgt) as Htrue. congruence. }
      destruct (IH (people + 1)%nat k1) as (fuel & people' & k' & Hf & Hw & Hb); [lia..|].
      exists (S fuel), people', k'. split; [lia|]. split; [|lia].
      cbn [while]. rewrite Hcond, (bind_Ok _ _ _ _ _ Hsim), Hlt. exact Hw.
Qed.

(** The birthday loop ends for every kernel, within 365 iterations, at
    no more than 366 people. *)
Lemma birthday_problem_ends (k : kernel) :
  exists fuel people k',
    (fuel <= 365)%nat
    /\ birthday_problem fuel k = Some (Ok people, k')
    /\ (2 <= people <= 366)%nat.
Proof.
  destruct (birthday_loop_ends 365 364 birthday_sim_returns 2%nat k)
    as (fuel & people & k' & Hf & Hw & Hb).
  - split; [apply Nat.lt_0_succ|]. apply le_n_S, le_n_S, Nat.le_0_l.
  - apply Nat.eq_le_incl. reflexivity.
  - exists fuel, people, k'. split; [exact Hf|]. split; [exact Hw|exact Hb].
Qed.

End Birthday.

Section PowerLoop.
Import Np Applications.
Local Open Scope Q_scope.
Variable above_critical : nat -> Q -> bool.

Lemma normal_matrix_run (loc scale : Q) (rows cols : nat) (k : kernel) :
  Qle_bool 0 scale = true ->
  normal_matrix loc scale rows cols k
  = (Ok (map (fun r => map (fun c => loc + scale * tape k (cursor k) (r * cols + c)%nat)
                           (seq 0 cols))
             (seq 0 rows)),
     advance 1 k).
Proof.
  intros Hs. unfold normal_matrix, sampler, advance. rewrite Hs. by rewrite Nat.add_1_r.
Qed.

Lemma simulated_power_run (sample_size : nat) (k : kernel) :
  simulated_power above_critical sample_size k = (Ok (power_in above_critical sample_size k), advance 2 k).
Proof.
  assert (Hsd : Qle_bool 0 control_sd = true) by reflexivity.
  unfold power_in, simulated_power.
  rewrite (bind_Ok _ _ _ _ _ (normal_matrix_run _ _ _ _ k Hsd)).
  rewrite (bind_Ok _ _ _ _ _ (normal_matrix_run _ _ _ _ (advance 1 k) Hsd)).
  unfold ret. by rewrite advance_advance.
Qed.

Lemma power_body_run (n : nat) (k : kernel) :
  power_body above_critical n k
  = (Ok (if Qle_bool (80 # 100) (power_in above_critical n k) then Break n else Continue (n + 10)%nat),
     advance 2 k).
Proof.
  unfold power_body. run_bind (simulated_power_run n k).
  by destruct (Qle_bool _ _).
Qed.

(** The loop stops at the first pass whose simulated power reaches 0.80. *)
Lemma power_loop_stops (i : nat) :
  forall (n : nat) (k : kernel) (fuel : nat),
    (forall j, (j < i)%nat ->
       Qle_bool (80 # 100) (power_in above_critical (n + 10 * j) (advance (2 * j) k)) = false) ->
    Qle_bool (80 # 100) (power_in above_critical (n + 10 * i) (advance (2 * i) k)) = true ->
    (i < fuel)%nat ->
    while fuel (fun _ => true) (power_body above_critical) n k
    = Some (Ok (n + 10 * i)%nat, advance (2 * S i) k).
Proof.
  induction i as [|i IH]; intros n k fuel Hbefore Hat Hfuel;
    (destruct fuel as [|fuel]; [lia|]); cbn [while]; rewrite power_body_run.
  - rewrite Nat.mul_0_r, Nat.add_0_r, advance_0 in Hat. rewrite Hat.
    by rewrite Nat.add_0_r.
  - pose proof (Hbefore 0%nat ltac:(lia)) as H0.
    rewrite Nat.mul_0_r, Nat.add_0_r, advance_0 in H0. rewrite H0.
    rewrite (IH (n + 10)%nat (advance 2 k) fuel).
    + rewrite advance_advance. do 3 f_equal; lia.
    + intros j Hj. specialize (Hbefore (S j) ltac:(lia)).
      rewrite advance_advance.
      replace (n + 10 + 10 * j)%nat with (n + 10 * S j)%nat by lia.
      replace (2 + 2 * j)%nat with (2 * S j)%nat by lia. exact Hbefore.
    + rewrite advance_advance.
      replace (n + 10 + 10 * i)%nat with (n + 10 * S i)%nat by lia.
      replace (2 + 2 * i)%nat with (2 * S i)%nat by lia. exact Hat.
    + lia.
Qed.

(** While no pass reaches 0.80 the loop goes on. *)
Lemma power_loop_runs_on (fuel : nat) :
  forall (n : nat) (k : kernel),
    (forall j, (j < fuel)%nat ->
       Qle_bool (80 # 100) (power_in above_critical (n + 10 * j) (advance (2 * j) k)) = false) ->
    while fuel (fun _ => true) (power_body above_critical) n k = None.
Proof.
  induction fuel as [|fuel IH]; intros n k Hbelow; [done|].
  cbn [while]. rewrite power_body_run.
  pose proof (Hbelow 0%nat ltac:(lia)) as H0.
  rewrite Nat.mul_0_r, Nat.add_0_r, advance_0 in H0. rewrite H0.
  apply IH. intros j Hj. specialize (Hbelow (S j) ltac:(lia)).
  rewrite advance_advance.
  replace (n + 10 + 10 * j)%nat with (n + 10 * S j)%nat by lia.
  replace (2 + 2 * j)%nat with (2 * S j)%nat by lia. exact Hbelow.
Qed.

End PowerLoop.

(** *** Draws on which the power analysis never stops *)
Section EqualDraws.
Import Np Applications.
Local Open Scope Q_scope.

Lemma Qsum_replicate (n : nat) (v : Q) :
  Qsum (replicate n v) == inject_Z (Z.of_nat n) * v.
Proof.
  induction n as [|n IH].
  - unfold Qsum; simpl. ring.
  - cbn [replicate]. rewrite Qsum_cons, IH, Nat2Z.inj_succ.
    unfold Z.succ. rewrite inject_Z_plus. ring.
Qed.

Lemma squared_deviations_replicate (n : nat) (v : Q) :
  squared_deviations (replicate n v) == 0.
Proof.
  unfold squared_deviations. rewrite length_replicate.
  change (map ?f (replicate n v)) with (f <$> replicate n v).
  rewrite fmap_replicate, Qsum_replicate, Qsum_replicate.
  destruct n as [|n].
  - simpl. ring.
  - assert (Hn : ~ inject_Z (Z.of_nat (S n)) == 0).
    { change 0 with (inject_Z 0). rewrite inject_Z_injective. lia. }
    assert (Hm : inject_Z (Z.of_nat (S n)) * v / inject_Z (Z.of_nat (S n)) == v)
      by (field; exact Hn).
    rewrite Hm. ring.
Qed.

(** Two constant samples of one size and one value: the statistic is
    [nan], which is not below 0.05, whatever the critical values are. *)
Lemma ttest_equal_constant_samples (above_critical : nat -> Q -> bool) (n : nat) (t c : Q) :
  t == c ->
  ttest_ind_below_005 above_critical (replicate n t) (replicate n c) = false.
Proof.
  intros Htc. destruct n as [|n]; [reflexivity|].
  unfold ttest_ind_below_005.
  change (replicate (S n) t) with (t :: replicate n t) at 1.
  change (replicate (S n) c) with (c :: replicate n c) at 1.
  cbv iota.
  set (a := replicate (S n) t). set (b := replicate (S n) c).
  assert (Ha : squared_deviations a == 0) by apply squared_deviations_replicate.
  assert (Hb : squared_deviations b == 0) by apply squared_deviations_replicate.
  assert (Hla : length a = S n) by apply length_replicate.
  assert (Hlb : length b = S n) by apply length_replicate.
  assert (Hn : ~ inject_Z (Z.of_nat (S n)) == 0).
  { change 0 with (inject_Z 0). rewrite inject_Z_injective. lia. }
  assert (Hd : Qsum a / inject_Z (Z.of_nat (length a))
               - Qsum b / inject_Z (Z.of_nat (length b)) == 0).
  { rewrite Hla, Hlb. unfold a, b. rewrite !Qsum_replicate, Htc. field. exact Hn. }
  assert (Hden :
    ((inject_Z (Z.of_nat (length a)) - 1)
       * (squared_deviations a / (inject_Z (Z.of_nat (length a)) - 1))
     + (inject_Z (Z.of_nat (length b)) - 1)
       * (squared_deviations b / (inject_Z (Z.of_nat (length b)) - 1)))
    / (inject_Z (Z.of_nat (length a)) + inject_Z (Z.of_nat (length b)) - 2)
    * (1 / inject_Z (Z.of_nat (length a)) + 1 / inject_Z (Z.of_nat (length b))) == 0).
  { rewrite Ha, Hb. unfold Qdiv. ring. }
  apply Qeq_bool_iff in Hd. apply Qeq_bool_iff in Hden.
  rewrite Hden, Hd. reflexivity.
Qed.

Lemma column_constant (rows cols j : nat) (v : Q) :
  (j < cols)%nat ->
  column j (map (fun _ => map (fun _ => v) (seq 0 cols)) (seq 0 rows)) = replicate rows v.
Proof.
  intros Hj. unfold column. rewrite map_map.
  rewrite (map_ext _ (fun _ => v)).
  - generalize 0%nat. induction rows as [|rows IH]; intros s0; [done|].
    cbn [seq map replicate]. by rewrite IH.
  - intros r. rewrite (nth_indep _ 0 v) by (by rewrite length_map, length_seq).
    apply (map_nth (fun _ : nat => v) (seq 0 cols) 0%nat j).
Qed.

Lemma equal_draws_power (above_critical : nat -> Q -> bool) (n : nat) (k : kernel) :
  tape k = tape equal_draws -> Nat.even (cursor k) = true ->
  Qle_bool (80 # 100) (power_in above_critical n k) = false.
Proof.
  intros Htape Heven.
  assert (Hsd : Qle_bool 0 control_sd = true) by reflexivity.
  unfold power_in, simulated_power.
  rewrite (bind_Ok _ _ _ _ _ (normal_matrix_run _ _ _ _ k Hsd)).
  rewrite (bind_Ok _ _ _ _ _ (normal_matrix_run _ _ _ _ (advance 1 k) Hsd)).
  cbn [ret advance tape cursor]. rewrite Htape. cbn [equal_draws tape].
  rewrite Heven, Nat.add_1_r, Nat.even_succ, <- Nat.negb_even, Heven. cbn [negb].
  rewrite (map_ext_in _ (fun _ => false)).
  - assert (Hc : forall l : list nat, count_true (map (fun _ => false) l) = 0%nat).
    { induction l as [|x l IH]; [done|]. exact IH. }
    rewrite Hc. reflexivity.
  - intros j Hj. apply in_seq in Hj. destruct Hj as [_ Hj].
    rewrite !column_constant by exact Hj.
    apply ttest_equal_constant_samples. reflexivity.
Qed.

Lemma equal_draws_forever (above_critical : nat -> Q -> bool) (fuel : nat) :
  power_analysis above_critical fuel equal_draws = None.
Proof.
  unfold power_analysis. apply power_loop_runs_on.
  intros j _. apply equal_draws_power.
  - reflexivity.
  - unfold advance, equal_draws. cbn [cursor]. rewrite Nat.add_0_l, Nat.even_mul. reflexivity.
Qed.

End EqualDraws.

(** C3 as the code has it. The lottery loop ends for every kernel within
    1,000,002 passes and the birthday loop within 365, at no more than 366
    people. The power-analysis loop ends exactly when a pass simulates a
    power of at least 0.80: it then returns that pass's sample size, and
    while no pass reaches 0.80 it keeps going, whatever the critical values
    of the t distribution are. *)
Theorem lottery_birthday_loops_end_power_loop_waits :
  (forall k : Np.kernel, exists fuel answer k',
      (Z.of_nat fuel <= 1000002)%Z
      /\ Basics.break_even_lottery_price fuel k = Some (Np.Ok answer, k')
      /\ (0 <= answer <= 1000000)%Z)
  /\ (forall k : Np.kernel, exists fuel people k',
        (fuel <= 365)%nat
        /\ Probability.birthday_problem fuel k = Some (Np.Ok people, k')
        /\ (2 <= people <= 366)%nat)
  /\ (forall (above_critical : nat -> Q -> bool) (k : Np.kernel) (i fuel : nat),
        (forall j, (j < i)%nat ->
           Qle_bool (80 # 100)
             (power_in above_critical (50 + 10 * j) (advance (2 * j) k)) = false) ->
        Qle_bool (80 # 100)
          (power_in above_critical (50 + 10 * i) (advance (2 * i) k)) = true ->
        (i < fuel)%nat ->
        Applications.power_analysis above_critical fuel k
        = Some (Np.Ok (50 + 10 * i)%nat, advance (2 * S i) k))
  /\ (forall (above_critical : nat -> Q -> bool) (k : Np.kernel) (fuel : nat),
        (forall j, (j < fuel)%nat ->
           Qle_bool (80 # 100)
             (power_in above_critical (50 + 10 * j) (advance (2 * j) k)) = false) ->
        Applications.power_analysis above_critical fuel k = None).
Proof.
  split; [exact break_even_lottery_price_ends|].
  split; [exact birthday_problem_ends|].
  split.
  - intros ac k i fuel Hbefore Hat Hfuel. unfold Applications.power_analysis.
    by apply power_loop_stops.
  - intros ac k fuel Hbelow. unfold Applications.power_analysis.
    by apply power_loop_runs_on.
Qed.

(** On [equal_draws] three passes of the power analysis have not ended it. *)
Lemma lottery_birthday_loops_end_power_loop_waits_witness :
  Applications.power_analysis (fun _ _ => true) 3 equal_draws = None.
Proof.
  apply (proj2 (proj2 (proj2 lottery_birthday_loops_end_power_loop_waits))).
  intros j _. apply equal_draws_power.
  - reflexivity.
  - unfold advance, equal_draws. cbn [Np.cursor].
    rewrite Nat.add_0_l, Nat.even_mul. reflexivity.
Defined.

(** C3 as stated fails: on the draws of [equal_draws] the power-analysis
    loop returns for no amount of fuel, whatever the critical values. *)
Lemma power_analysis_never_returns :
  ~ exists (above_critical : nat -> Q -> bool) (fuel : nat) result,
      Applications.power_analysis above_critical fuel equal_draws = Some result.
Proof.
  intros (ac & fuel & result & H). by rewrite equal_draws_forever in H.
Qed.

(** ** The shared deck of cards *)
Section Deck.
Import Np Basics Probability.

Lemma shuffled_times_Permutation k n deck : shuffled_times k n deck ≡ₚ deck.
Proof.
  unfold shuffled_times. generalize (seq 0 n). intros calls. revert deck.
  induction calls as [|c calls IH]; intros deck; [done|].
  cbn [foldl]. rewrite IH. apply shuffled_Permutation.
Qed.

Lemma shuffle_run (l : nat) (x : list card) (k : kernel) :
  heap k !! l = Some x ->
  shuffle l k
  = (Ok tt, Kernel (tape k) (S (cursor k)) (seeded k) (calls k)
                   (<[l := shuffled (tape k (cursor k)) x]> (heap k))).
Proof. intros H. unfold shuffle. by rewrite H. Qed.

(** A loop that shuffles the list at [l] once per pass and otherwise only
    reads it: where it leaves the kernel. *)
Lemma shuffle_loop {St} (body : nat -> St -> M St) (l : nat) (deck : list card) (n : nat) :
  (forall j acc k d,
     heap k !! l = Some d -> d ≡ₚ deck ->
     exists acc', body j acc k = (Ok acc', (shuffle l k).2)) ->
  forall (acc : St) (k : kernel),
    heap k !! l = Some deck ->
    exists acc',
      for_range n body acc k
      = (Ok acc', Kernel (tape k) (cursor k + n) (seeded k) (calls k)
                         (<[l := shuffled_times k n deck]> (heap k))).
Proof.
  intros Hbody acc k Hl.
  destruct (for_range_invariant n body
              (fun j _ k' =>
                 k' = Kernel (tape k) (cursor k + j) (seeded k) (calls k)
                             (<[l := shuffled_times k j deck]> (heap k)))
              acc k) as (acc' & k' & Hrun & ->).
  - unfold shuffled_times. cbn [seq foldl]. rewrite Nat.add_0_r, insert_id by done.
    by destruct k.
  - intros j a kj _ ->.
    destruct (Hbody j a
                (Kernel (tape k) (cursor k + j) (seeded k) (calls k)
                        (<[l := shuffled_times k j deck]> (heap k)))
                (shuffled_times k j deck)) as (a' & Ha).
    + cbn [heap]. apply lookup_insert_eq.
    + apply shuffled_times_Permutation.
    + exists a'. eexists. split; [exact Ha|].
      rewrite (shuffle_run l (shuffled_times k j deck)) by (cbn [heap]; apply lookup_insert_eq).
      cbn [snd tape cursor seeded calls heap]. rewrite insert_insert_eq.
      f_equal; [lia|]. f_equal. unfold shuffled_times.
      by rewrite seq_S, foldl_app.
  - by exists acc'.
Qed.

(** A hand of at least one card has a value that occurs in it. *)
Lemma values_count_values_nonempty (hand : list card) :
  hand <> [] -> values (count_values hand) <> [].
Proof.
  intros Hne Hnil. induction hand as [|c hand' _] using rev_ind; [done|].
  unfold values in Hnil. apply fmap_nil_inv in Hnil.
  apply map_to_list_empty_iff in Hnil.
  unfold count_values in Hnil. rewrite foldl_app in Hnil. cbn [foldl] in Hnil.
  apply (f_equal (fun m : gmap nat nat => m !! c.2)) in Hnil.
  by rewrite lookup_insert_eq, lookup_empty in Hnil.
Qed.

Lemma take_5_nonempty (d deck : list card) : deck <> [] -> d ≡ₚ deck -> take 5 d <> [].
Proof.
  intros Hne Hp. destruct d as [|c d]; [|done].
  apply Permutation_nil in Hp. by symmetry in Hp.
Qed.

(** One pass of "Two of a kind" on a deck that is not empty. *)
Lemma two_of_a_kind_pass (l : nat) (deck : list card) :
  deck <> [] ->
  forall (j two_kind : nat) (k : kernel) (d : list card),
    heap k !! l = Some d -> d ≡ₚ deck ->
    exists two_kind',
      (shuffle l ;;;
       deck <- read l ;;
       let hand := take 5 deck in
       let cards_in_hand := count_values hand in
       highest_card <- lift (py_max (values cards_in_hand)) ;;
       ret (if (2 <=? highest_card)%nat then S two_kind else two_kind)) k
      = (Ok two_kind', (shuffle l k).2).
Proof.
  intros Hne j two_kind k d Hl Hp.
  rewrite (shuffle_run l d k Hl). cbn [snd].
  set (d1 := shuffled _ d). set (k1 := Kernel _ _ _ _ _).
  assert (Hread : read l k1 = (Ok d1, k1)).
  { unfold read, k1. cbn [heap]. by rewrite lookup_insert_eq. }
  rewrite (bind_Ok _ _ k k1 tt) by (by apply shuffle_run).
  run_bind Hread. cbv zeta.
  destruct (values (count_values (take 5 d1))) as [|v vs] eqn:Hv.
  { exfalso. revert Hv. apply values_count_values_nonempty.
    apply (take_5_nonempty d1 deck Hne). unfold d1. by rewrite shuffled_Permutation. }
  eexists. unfold bind, lift, py_max, ret. reflexivity.
Qed.

(** "Two of a kind" returns when the imported deck is not empty, and leaves
    at [l] the deck shuffled 10000 times by the tape of seed 123. *)
Lemma two_of_a_kind_run (l : nat) (deck : list card) (k : kernel) :
  deck <> [] -> heap k !! l = Some deck ->
  exists p,
    two_of_a_kind l k
    = (Ok p, Kernel (seeded k 123) 10000 (seeded k) (calls k)
                    (<[l := shuffled_times (Kernel (seeded k 123) 0 (seeded k) (calls k) (heap k))
                                           10000 deck]> (heap k))).
Proof.
  intros Hne Hl. unfold two_of_a_kind.
  set (k0 := Kernel (seeded k 123) 0 (seeded k) (calls k) (heap k)).
  rewrite (bind_Ok _ _ k k0 tt) by reflexivity.
  destruct (shuffle_loop
              (fun (_ : nat) two_kind =>
                 shuffle l ;;;
                 deck <- read l ;;
                 let hand := take 5 deck in
                 let cards_in_hand := count_values hand in
                 highest_card <- lift (py_max (values cards_in_hand)) ;;
                 ret (if (2 <=? highest_card)%nat then S two_kind else two_kind))
              l deck 10000 (two_of_a_kind_pass l deck Hne) 0%nat k0 Hl) as (two_kind & Hloop).
  run_bind Hloop. eexists. reflexivity.
Qed.

(** One pass of "Full house". *)
Lemma full_house_pass (l : nat) (deck : list card) :
  deck <> [] ->
  forall (j full_house : nat) (k : kernel) (d : list card),
    heap k !! l = Some d -> d ≡ₚ deck ->
    exists full_house',
      (shuffle l ;;;
       deck <- read l ;;
       let hand := take 5 deck in
       let cards_in_hand := count_values hand in
       highest <- lift (py_max (values cards_in_hand)) ;;
       lowest <- lift (py_min (values cards_in_hand)) ;;
       let condition := (highest =? 3)%nat && (lowest =? 2)%nat in
       ret (if condition then S full_house else full_house)) k
      = (Ok full_house', (shuffle l k).2).
Proof.
  intros Hne j full_house k d Hl Hp.
  rewrite (shuffle_run l d k Hl). cbn [snd].
  set (d1 := shuffled _ d). set (k1 := Kernel _ _ _ _ _).
  assert (Hread : read l k1 = (Ok d1, k1)).
  { unfold read, k1. cbn [heap]. by rewrite lookup_insert_eq. }
  rewrite (bind_Ok _ _ k k1 tt) by (by apply shuffle_run).
  run_bind Hread. cbv zeta.
  destruct (values (count_values (take 5 d1))) as [|v vs] eqn:Hv.
  { exfalso. revert Hv. apply values_count_values_nonempty.
    apply (take_5_nonempty d1 deck Hne). unfold d1. by rewrite shuffled_Permutation. }
  eexists. unfold bind, lift, py_max, py_min, ret. reflexivity.
Qed.

(** "Full house" shuffles a copy: the list it was given stays as it was,
    like every other list object of the kernel. *)
Lemma full_house_run (l : nat) (deck : list card) (k : kernel) :
  deck <> [] -> heap k !! l = Some deck ->
  exists p l2 k',
    full_house l k = (Ok (p, l2), k')
    /\ (l2 ∉ dom (heap k))
    /\ (exists deck', heap k' !! l2 = Some deck' /\ deck' ≡ₚ deck)
    /\ forall l', l' ∈ dom (heap k) -> heap k' !! l' = heap k !! l'.
Proof.
  intros Hne Hl. unfold full_house.
  set (l2 := fresh (dom (heap k))).
  set (k1 := Kernel (tape k) (cursor k) (seeded k) (calls k) (<[l2 := deck]> (heap k))).
  assert (Hfresh : l2 ∉ dom (heap k)) by apply is_fresh.
  assert (Hcopy : copy l k = (Ok l2, k1)).
  { unfold copy. by rewrite Hl. }
  run_bind Hcopy.
  assert (Hl2 : heap k1 !! l2 = Some deck) by (cbn [heap k1]; apply lookup_insert_eq).
  destruct (shuffle_loop
              (fun (_ : nat) full_house =>
                 shuffle l2 ;;;
                 deck <- read l2 ;;
                 let hand := take 5 deck in
                 let cards_in_hand := count_values hand in
                 highest <- lift (py_max (values cards_in_hand)) ;;
                 lowest <- lift (py_min (values cards_in_hand)) ;;
                 let condition := (highest =? 3)%nat && (lowest =? 2)%nat in
                 ret (if condition then S full_house else full_house))
              l2 deck 50000 (full_house_pass l2 deck Hne) 0%nat k1 Hl2) as (fh & Hloop).
  run_bind Hloop.
  eexists _, l2, _. split; [reflexivity|]. split; [exact Hfresh|]. split.
  - eexists. cbn [heap]. split; [apply lookup_insert_eq|apply shuffled_times_Permutation].
  - intros l' Hl'. cbn [heap k1].
    assert (l2 <> l') by (intros ->; contradiction).
    by rewrite !lookup_insert_ne.
Qed.

(** C5 as the code has it: the deck exercises return on a deck that is
    not empty. "Shuffling a deck of cards" and "Two of a kind" shuffle the
    imported list itself: afterwards it holds the same cards in an order
    the draws decide, and no other list object has changed. "Full house"
    shuffles a copy: every list object that existed before it, the imported
    deck included, is as it was. *)
Theorem shuffles_reorder_the_shared_deck (l : nat) (deck : list card) (k : kernel) :
  deck <> [] -> heap k !! l = Some deck ->
  (exists top k',
     shuffling_a_deck l k = (Ok top, k')
     /\ heap k' !! l = Some (shuffled (tape k (cursor k)) deck)
     /\ shuffled (tape k (cursor k)) deck ≡ₚ deck
     /\ forall l', l' <> l -> heap k' !! l' = heap k !! l')
  /\ (exists p k' deck',
        two_of_a_kind l k = (Ok p, k')
        /\ heap k' !! l = Some deck'
        /\ deck' ≡ₚ deck
        /\ forall l', l' <> l -> heap k' !! l' = heap k !! l')
  /\ (exists p l2 k',
        full_house l k = (Ok (p, l2), k')
        /\ l2 <> l
        /\ forall l', l' ∈ dom (heap k) -> heap k' !! l' = heap k !! l').
Proof.
  intros Hne Hl. split; [|split].
  - unfold shuffling_a_deck.
    run_bind (shuffle_run l deck k Hl).
    set (k1 := Kernel _ _ _ _ _).
    assert (Hread : read l k1 = (Ok (shuffled (tape k (cursor k)) deck), k1)).
    { unfold read, k1. cbn [heap]. by rewrite lookup_insert_eq. }
    run_bind Hread.
    eexists _, k1. split; [reflexivity|]. split; [apply lookup_insert_eq|].
    split; [apply shuffled_Permutation|].
    intros l' Hne'. cbn [heap k1]. by rewrite lookup_insert_ne.
  - destruct (two_of_a_kind_run l deck k Hne Hl) as (p & Hrun).
    eexists p, _, _. split; [exact Hrun|]. cbn [heap].
    split; [apply lookup_insert_eq|]. split; [apply shuffled_times_Permutation|].
    intros l' Hne'. by rewrite lookup_insert_ne.
  - destruct (full_house_run l deck k Hne Hl) as (p & l2 & k' & Hrun & Hfresh & _ & Hframe).
    exists p, l2, k'. split; [exact Hrun|]. split; [|exact Hframe].
    intros ->. apply Hfresh. apply elem_of_dom. by rewrite Hl.
Qed.

Lemma swap_same {A} (x : list A) (i : nat) : swap x i i = x.
Proof.
  unfold swap. destruct (x !! i) as [xi|] eqn:Hi; [|done].
  rewrite (list_insert_id x i xi Hi). by apply list_insert_id.
Qed.

Lemma shuffled_identity {A} (row : nat -> Q) (x : list A) :
  (forall i, row i = inject_Z (Z.of_nat i)) -> shuffled row x = x.
Proof.
  intros Hrow. unfold shuffled. generalize (length x - 1)%nat. intros i. revert x.
  induction i as [|i IH]; intros x; [done|].
  cbn [shuffle_from].
  assert (Hj : random_index (S (S i)) (row (S i)) = S i).
  { unfold random_index. rewrite Hrow, Qfloor_Z, Z.mod_small by lia. lia. }
  by rewrite Hj, swap_same, IH.
Qed.

Lemma foldl_fixed {A B} (f : A -> B -> A) (a : A) (bs : list B) :
  (forall b, b ∈ bs -> forall a', f a' b = a') -> foldl f a bs = a.
Proof.
  revert a. induction bs as [|b bs IH]; intros a H; [done|].
  cbn [foldl]. rewrite (H b) by left. apply IH. intros b' Hb'. apply H. by right.
Qed.

(** When every call but the next one moves nothing, any number of
    shuffles leaves what the next one leaves. *)
Lemma shuffled_times_first_only (k : kernel) (n : nat) (deck : list card) :
  (forall call i, tape k (cursor k + S call) i = inject_Z (Z.of_nat i)) ->
  shuffled_times k (S n) deck = shuffled (tape k (cursor k)) deck.
Proof.
  intros Hid. unfold shuffled_times. rewrite <- cons_seq. cbn [foldl].
  rewrite Nat.add_0_r. apply foldl_fixed.
  intros call Hcall d. apply shuffled_identity. intros i.
  apply elem_of_seq in Hcall. destruct Hcall as [Hge _].
  destruct call as [|call]; [inversion Hge|]. apply Hid.
Qed.

Lemma dealt_kernel_deck : heap dealt_kernel !! 0%nat = Some standard_deck.
Proof. reflexivity. Qed.

Lemma dealt_kernel_shuffled_times :
  shuffled_times (Kernel (seeded dealt_kernel 123) 0 (seeded dealt_kernel)
                         (calls dealt_kernel) (heap dealt_kernel))
                 (S 9999) standard_deck
  = shuffled (fun _ => 0%Q) standard_deck.
Proof.
  rewrite shuffled_times_first_only.
  - reflexivity.
  - intros call i. reflexivity.
Qed.

Lemma ten_thousand : 10000%nat = S 9999.
Proof. vm_compute. reflexivity. Qed.

(** C5 as stated fails: on [dealt_kernel] both "Shuffling a deck of
    cards" and "Two of a kind" leave the imported deck in another order
    than they found it. *)
Lemma shuffling_changes_the_shared_deck :
  heap dealt_kernel !! 0%nat = Some standard_deck
  /\ heap (shuffling_a_deck 0 dealt_kernel).2 !! 0%nat
     = Some (shuffled (fun _ => 0%Q) standard_deck)
  /\ heap (two_of_a_kind 0 dealt_kernel).2 !! 0%nat
     = Some (shuffled (fun _ => 0%Q) standard_deck)
  /\ shuffled (fun _ => 0%Q) standard_deck <> standard_deck.
Proof.
  split; [exact dealt_kernel_deck|]. split; [|split].
  - unfold shuffling_a_deck.
    run_bind (shuffle_run 0 standard_deck dealt_kernel dealt_kernel_deck).
    set (k1 := Kernel _ _ _ _ _).
    assert (Hread : read 0 k1 = (Ok (shuffled (tape dealt_kernel (cursor dealt_kernel))
                                              standard_deck), k1)).
    { unfold read, k1. cbn [heap]. rewrite lookup_insert_eq. reflexivity. }
    run_bind Hread. cbn [ret snd k1 heap].
    rewrite lookup_insert_eq. reflexivity.
  - destruct (two_of_a_kind_run 0 standard_deck dealt_kernel) as (p & Hrun);
      [discriminate|exact dealt_kernel_deck|].
    rewrite Hrun. cbn [snd heap]. rewrite lookup_insert_eq. apply (f_equal Some).
    rewrite ten_thousand. apply dealt_kernel_shuffled_times.
  - vm_compute. discriminate.
Qed.

Lemma shuffles_reorder_the_shared_deck_witness :
  exists p l2 k',
    full_house 0 dealt_kernel = (Ok (p, l2), k')
    /\ l2 <> 0%nat
    /\ forall l', l' ∈ dom (heap dealt_kernel) -> heap k' !! l' = heap dealt_kernel !! l'.
Proof.
  apply (shuffles_reorder_the_shared_deck 0 standard_deck dealt_kernel).
  - discriminate.
  - exact dealt_kernel_deck.
Defined.

End Deck.

(** ** Purchase flow: the revenue is drawn from the stream of seed 123 *)
Section Revenue.
Import Np Probability.
Local Open Scope Q_scope.

Lemma get_revenue_loop (signups : list nat) :
  forall (rev : list Q) (T : nat -> nat -> Q) (c : nat) sd cl hp,
    for_each signups
      (fun s rev =>
         purchases <- binomial s hist_purchase_rate ;;
         purchase_values <- exponential purchase_value_mean purchases ;;
         ret (rev ++ [Qsum purchase_values]))
      rev (Kernel T (2 * c) sd cl hp)
    = (Ok (rev ++ imap (fun j s => revenue_entry T (c + j) s) signups),
       Kernel T (2 * (c + length signups)) sd cl hp).
Proof.
  induction signups as [|s signups IH]; intros rev T c sd cl hp.
  - cbn [for_each imap length]. unfold ret. by rewrite app_nil_r, Nat.add_0_r.
  - cbn [for_each].
    assert (Hbody :
      (purchases <- binomial s hist_purchase_rate ;;
       purchase_values <- exponential purchase_value_mean purchases ;;
       ret (rev ++ [Qsum purchase_values])) (Kernel T (2 * c) sd cl hp)
      = (Ok (rev ++ [revenue_entry T c s]), Kernel T (2 * S c) sd cl hp)).
    { unfold bind, binomial, exponential, sampler, ret. cbn [tape cursor seeded calls heap].
      change (Qle_bool 0 hist_purchase_rate && Qle_bool hist_purchase_rate 1) with true.
      change (Qle_bool 0 purchase_value_mean) with true. cbv iota.
      unfold revenue_entry. rewrite Nat.add_1_r.
      do 2 f_equal. f_equal. lia. }
    rewrite (bind_Ok _ _ _ _ _ Hbody), IH. cbn [imap length].
    rewrite <- app_assoc. cbn [app]. rewrite Nat.add_0_r.
    f_equal; [|f_equal; lia].
    do 3 f_equal. apply imap_ext. intros j y _. cbn. f_equal. lia.
Qed.

(** Every call of [get_revenue] returns the revenue list read off the
    stream of seed 123 from its start, whatever the generator did before. *)
Lemma get_revenue_run (signups : list nat) (k : kernel) :
  get_revenue signups k
  = (Ok (revenue_from (seeded k 123) signups),
     Kernel (seeded k 123) (2 * length signups) (seeded k) ("get_revenue" :: calls k)%string
            (heap k)).
Proof.
  unfold get_revenue, bind at 1, bind at 1, enter, seed. cbn [seeded calls heap].
  change 0%nat with (2 * 0)%nat at 1. rewrite get_revenue_loop.
  rewrite app_nil_l. reflexivity.
Qed.

Lemma keeps_bind {A B} (m : M A) (f : A -> M B) :
  keeps m -> (forall a, keeps (f a)) -> keeps (bind m f).
Proof.
  intros Hm Hf k. unfold bind. specialize (Hm k).
  destruct (m k) as [[a|e] k1]; cbn [snd] in *; [|exact Hm].
  destruct (Hf a k1) as [H1 H2]. destruct Hm as [H3 H4]. split; congruence.
Qed.

Lemma keeps_sampler {A} (f : (nat -> Q) -> res A) : keeps (sampler f).
Proof. by intros k. Qed.

Lemma keeps_ret {A} (a : A) : keeps (ret a).
Proof. by intros k. Qed.

Lemma keeps_getitem {V} (d : gmap string V) (key : string) : keeps (getitem d key).
Proof. intros k. unfold getitem. by destruct (d !! key). Qed.

(** [get_signups] logs its call and leaves the seeding table alone, whether
    it returns or raises. *)
Lemma get_signups_effect (cost : string) (ct_rate su_rate : gmap string Q) (sims : nat)
    (k : kernel) :
  calls (get_signups cost ct_rate su_rate sims k).2 = ("get_signups" :: calls k)%string
  /\ seeded (get_signups cost ct_rate su_rate sims k).2 = seeded k.
Proof.
  assert (Hk : keeps (lam <- normal lambda_mean lambda_std sims ;;
                      impressions <- poisson_array lam ;;
                      ct <- getitem ct_rate cost ;;
                      clicks <- binomial_array impressions ct ;;
                      su <- getitem su_rate cost ;;
                      signups <- binomial_array clicks su ;;
                      ret signups));
    [|exact (Hk (Kernel (tape k) (cursor k) (seeded k) ("get_signups" :: calls k)%string
                        (heap k)))].
  apply keeps_bind; [apply keeps_sampler|]. intros lam.
  apply keeps_bind; [apply keeps_sampler|]. intros impressions.
  apply keeps_bind; [apply keeps_getitem|]. intros ct.
  apply keeps_bind; [apply keeps_sampler|]. intros clicks.
  apply keeps_bind; [apply keeps_getitem|]. intros su.
  apply keeps_bind; [apply keeps_sampler|]. intros signups.
  apply keeps_ret.
Qed.

(** What "Probability of losing money" does: it calls [get_signups], and
    when that returns [get_revenue], then both again; both revenue lists are
    read off the stream of seed 123 from its start. *)
Lemma probability_of_losing_money_run (ct_rate su_rate : gmap string Q) (k : kernel) :
  match probability_of_losing_money ct_rate su_rate k with
  | (Ok frac, k') =>
    exists signups_low signups_high,
      frac = mean (map (fun d => if Qlt_bool d 3000 then 1 else 0)
                       (zip_with Qminus (revenue_from (seeded k 123) signups_high)
                                        (revenue_from (seeded k 123) signups_low)))
      /\ calls k' = ["get_revenue"; "get_signups"; "get_revenue"; "get_signups"]%string
                    ++ calls k
  | (Raise _, k') =>
    calls k' = ("get_signups" :: calls k)%string
    \/ calls k' = ["get_signups"; "get_revenue"; "get_signups"]%string ++ calls k
  end.
Proof.
  unfold probability_of_losing_money.
  pose proof (get_signups_effect "low" ct_rate su_rate 10000 k) as [Hc1 Hs1].
  unfold bind at 1.
  destruct (get_signups "low" ct_rate su_rate 10000 k) as [[signups_low|e] k1];
    cbn [snd] in *; [|by left].
  run_bind (get_revenue_run signups_low k1).
  set (k2 := Kernel _ _ _ _ _).
  pose proof (get_signups_effect "high" ct_rate su_rate 10000 k2) as [Hc3 Hs3].
  unfold bind at 1.
  destruct (get_signups "high" ct_rate su_rate 10000 k2) as [[signups_high|e] k3];
    cbn [snd] in *.
  - run_bind (get_revenue_run signups_high k3). unfold ret.
    exists signups_low, signups_high.
    cbn [k2 seeded calls] in Hs3, Hc3. rewrite Hs3, Hs1, Hc3, Hc1. by split.
  - right. cbn [k2 calls] in Hc3. by rewrite Hc3, Hc1.
Qed.

(** C9. [get_revenue] reseeds the generator with 123 on every call. Two
    calls with the same signups list, from kernels with the same stream for
    seed 123, return the same revenue list, whatever else the kernels hold
    and wherever their generators stand. Every call returns a list as long
    as its argument and leaves the generator on the stream of seed 123. In
    "Probability of losing money" the low-cost and the high-cost revenue
    lists are both what [get_revenue] returns from the stream of seed 123 of
    the kernel the cell starts from, each for its signups list: one stream,
    read twice from its start, so that equal signups lists would get equal
    revenue lists. *)
Theorem get_revenue_rereads_the_stream_of_seed_123 :
  (forall (signups : list nat) (k1 k2 : kernel),
     seeded k1 123 = seeded k2 123 ->
     (get_revenue signups k1).1 = (get_revenue signups k2).1)
  /\ (forall (signups : list nat) (k : kernel),
        exists rev,
          (get_revenue signups k).1 = Ok rev
          /\ length rev = length signups
          /\ tape (get_revenue signups k).2 = seeded k 123
          /\ seeded (get_revenue signups k).2 = seeded k)
  /\ (forall (ct_rate su_rate : gmap string Q) (k : kernel),
        match probability_of_losing_money ct_rate su_rate k with
        | (Ok frac, _) =>
          exists signups_low signups_high rev_low rev_high,
            (get_revenue signups_low k).1 = Ok rev_low
            /\ (get_revenue signups_high k).1 = Ok rev_high
            /\ frac = mean (map (fun d => if Qlt_bool d 3000 then 1 else 0)
                             (zip_with Qminus rev_high rev_low))
            /\ (signups_low = signups_high -> rev_low = rev_high)
        | (Raise _, _) => True
        end).
Proof.
  split; [|split].
  - intros signups k1 k2 H. by rewrite !get_revenue_run, H.
  - intros signups k. rewrite get_revenue_run. eexists. split; [reflexivity|].
    split; [|by split]. unfold revenue_from. apply length_imap.
  - intros ct_rate su_rate k.
    pose proof (probability_of_losing_money_run ct_rate su_rate k) as Hrun.
    destruct (probability_of_losing_money ct_rate su_rate k) as [[frac|e] k']; [|done].
    destruct Hrun as (signups_low & signups_high & Hfrac & _).
    exists signups_low, signups_high. eexists _, _.
    rewrite !get_revenue_run. split; [reflexivity|]. split; [reflexivity|].
    split; [exact Hfrac|]. by intros ->.
Qed.

(** Two kernels that differ in everything but the seeding table. *)
Lemma get_revenue_rereads_the_stream_of_seed_123_witness :
  (get_revenue [3; 0; 7]%nat counting_kernel).1
  = (get_revenue [3; 0; 7]%nat
       (Kernel (fun _ _ => 5) 17 (seeded counting_kernel) ["profits"]%string ∅)).1.
Proof.
  apply (proj1 get_revenue_rereads_the_stream_of_seed_123).
  reflexivity.
Defined.

End Revenue.

(** ** Corn production and profits *)
Section Corn.
Import Np Applications.

Lemma py_pow_positive (x y : R) : (0 < x)%R -> py_pow x y = PyFloat (Rpower x y).
Proof.
  intros Hx. unfold py_pow.
  destruct (Rlt_dec x 0) as [Hlt|_]; [lra|].
  destruct (Req_dec_T x 0) as [Heq|_]; [lra|]. reflexivity.
Qed.

Lemma py_pow_negative (x y : R) :
  (x < 0)%R ->
  py_pow x y = PyComplex (Rpower (- x) y * cos (y * PI)) (Rpower (- x) y * sin (y * PI)).
Proof. intros Hx. unfold py_pow. by destruct (Rlt_dec x 0). Qed.

Lemma Rpower_positive (x y : R) : (0 < Rpower x y)%R.
Proof. unfold Rpower. apply exp_pos. Qed.

(** With negative rain the mean the model computes is a complex number
    with a positive imaginary part. *)
Lemma corn_mean_negative_rain (rain cost : Q) :
  (rain < 0)%Q -> (0 < cost)%Q ->
  exists re im, corn_mean rain cost = PyComplex re im /\ (0 < im)%R.
Proof.
  intros Hrain Hcost. unfold corn_mean.
  apply Qlt_Rlt in Hrain, Hcost. rewrite RMicromega.Q2R_0 in Hrain, Hcost.
  rewrite (py_pow_positive _ _ Hcost), (py_pow_negative _ _ Hrain). cbn [py_mul].
  eexists _, _. split; [reflexivity|].
  assert (H1 := Rpower_positive (Q2R cost) (1 / 10)).
  assert (H2 := Rpower_positive (- Q2R rain) (2 / 10)).
  assert (H3 : (0 < sin (2 / 10 * PI))%R).
  { pose proof PI_RGT_0. apply sin_gt_0; lra. }
  apply Rmult_lt_0_compat; [|by apply Rmult_lt_0_compat].
  apply Rmult_lt_0_compat; [lra|exact H1].
Qed.

(** C7 fails at [rain = -1], [cost = 5000]: the exponentiation, a step
    outside the sampler, yields a number that is not real. *)
Theorem corn_mean_at_negative_rain_is_complex :
  exists re im, corn_mean (-1) 5000 = PyComplex re im /\ im <> 0%R.
Proof.
  destruct (corn_mean_negative_rain (-1) 5000) as (re & im & H & Him); [reflexivity..|].
  exists re, im. split; [exact H|lra].
Qed.

(** [corn_produced] logs its call and makes one sampler call, whether the
    sampler returns or raises. *)
Lemma corn_produced_effect (rain cost : Q) (k : kernel) :
  (corn_produced rain cost k).2
  = Kernel (tape k) (S (cursor k)) (seeded k) ("corn_produced" :: calls k)%string (heap k).
Proof.
  unfold corn_produced, bind at 1, enter, bind, poisson, sampler.
  cbn [tape cursor seeded calls heap].
  destruct (Rlt_dec _ _); [done|]. by destruct (Req_dec_T _ _).
Qed.

(** What [profits] does: two draws, then [corn_produced], whose value is
    the supply, then [corn_demanded]. *)
Lemma profits_run (cost : Q) (k : kernel) :
  let rain := (50 + 15 * tape k (cursor k) 0%nat)%Q in
  let price := (40 + 10 * tape k (S (cursor k)) 0%nat)%Q in
  let k2 := Kernel (tape k) (S (S (cursor k))) (seeded k) ("profits" :: calls k)%string (heap k) in
  let demand := (984 - 23 * price)%Q in
  match corn_produced rain cost k2 with
  | (Ok supply, k3) =>
    profits cost k
    = (Ok (if Qle_bool (inject_Z (Z.of_nat supply)) demand
           then (price * inject_Z (Z.of_nat supply) - cost)%Q
           else (price * demand - cost)%Q),
       Kernel (tape k) (S (S (S (cursor k)))) (seeded k)
              ("corn_demanded" :: "corn_produced" :: "profits" :: calls k)%string (heap k))
  | (Raise e, k3) =>
    profits cost k
    = (Raise e, Kernel (tape k) (S (S (S (cursor k)))) (seeded k)
                       ("corn_produced" :: "profits" :: calls k)%string (heap k))
  end.
Proof.
  intros rain price k2 demand.
  pose proof (corn_produced_effect rain cost k2) as Heff.
  destruct (corn_produced rain cost k2) as [[supply|e] k3] eqn:Hcorn; cbn [snd] in Heff;
    subst k3; unfold profits, bind at 1, enter, bind at 1, normal1, sampler;
    cbn [tape cursor seeded calls heap];
    change (Qle_bool 0 15) with true; cbv iota;
    unfold bind at 1, normal1, sampler; cbn [tape cursor seeded calls heap];
    change (Qle_bool 0 10) with true; cbv iota;
    fold rain price k2.
  - run_bind Hcorn. cbv [bind corn_demanded enter ret].
    cbn [tape cursor seeded calls heap k2]. fold demand.
    by destruct (Qle_bool _ _).
  - by rewrite (bind_Raise _ _ _ _ _ Hcorn).
Qed.

End Corn.

(** ** Which exercises call functions of earlier exercises *)
Section Calls.
Import Np Probability Applications.
Local Open Scope Q_scope.

(** [get_signups] returns when the rates are there and are probabilities
    and the raw values of its first call are not negative. *)
Lemma get_signups_returns (cost : string) (ct_rate su_rate : gmap string Q) (sims : nat)
    (k : kernel) (ct su : Q) :
  ct_rate !! cost = Some ct -> su_rate !! cost = Some su ->
  Qle_bool 0 ct && Qle_bool ct 1 = true -> Qle_bool 0 su && Qle_bool su 1 = true ->
  (forall i, 0 <= tape k (cursor k) i) ->
  exists signups k', get_signups cost ct_rate su_rate sims k = (Ok signups, k').
Proof.
  intros Hct Hsu Hctp Hsup Htape.
  unfold get_signups, bind at 1, enter, bind at 1, normal, sampler.
  cbn [tape cursor seeded calls heap].
  change (Qle_bool 0 lambda_std) with true. cbv iota.
  unfold bind at 1, poisson_array, sampler. cbn [tape cursor seeded calls heap].
  assert (Hlam : forallb (Qle_bool 0)
                   (map (fun i => lambda_mean + lambda_std * tape k (cursor k) i) (seq 0 sims))
                 = true).
  { apply forallb_forall. intros x Hx. apply in_map_iff in Hx as (i & <- & _).
    apply Qle_bool_iff. specialize (Htape i). unfold lambda_mean, lambda_std. nra. }
  rewrite Hlam.
  unfold bind at 1, getitem. rewrite Hct. unfold ret at 1.
  unfold bind at 1, binomial_array, sampler. cbn [tape cursor seeded calls heap].
  rewrite Hctp.
  unfold bind at 1. rewrite Hsu. unfold ret at 1.
  unfold bind at 1, sampler. cbn [tape cursor seeded calls heap]. rewrite Hsup.
  eexists _, _. reflexivity.
Qed.

(** C6 as the code has it. [profits] calls [corn_produced], the function
    of the exercise before it, and computes its profit from the supply that
    call returns; if the call raises, so does [profits]. "Probability of
    losing money" calls [get_signups] and, when that returns,
    [get_revenue], then both once more. *)
Theorem exercises_call_earlier_functions :
  (forall (cost : Q) (k : kernel),
     let rain := 50 + 15 * tape k (cursor k) 0%nat in
     let price := 40 + 10 * tape k (S (cursor k)) 0%nat in
     let k2 := Kernel (tape k) (S (S (cursor k))) (seeded k) ("profits" :: calls k)%string
                      (heap k) in
     match corn_produced rain cost k2 with
     | (Ok supply, _) =>
       (profits cost k).1
       = Ok (if Qle_bool (inject_Z (Z.of_nat supply)) (984 - 23 * price)
             then price * inject_Z (Z.of_nat supply) - cost
             else price * (984 - 23 * price) - cost)
       /\ calls (profits cost k).2
          = ("corn_demanded" :: "corn_produced" :: "profits" :: calls k)%string
     | (Raise e, _) =>
       (profits cost k).1 = Raise e
       /\ calls (profits cost k).2 = ("corn_produced" :: "profits" :: calls k)%string
     end)
  /\ (forall (ct_rate su_rate : gmap string Q) (k : kernel),
        match probability_of_losing_money ct_rate su_rate k with
        | (Ok _, k') =>
          calls k' = ["get_revenue"; "get_signups"; "get_revenue"; "get_signups"]%string
                     ++ calls k
        | (Raise _, k') =>
          calls k' = ("get_signups" :: calls k)%string
          \/ calls k' = ["get_signups"; "get_revenue"; "get_signups"]%string ++ calls k
        end).
Proof.
  split.
  - intros cost k. cbv zeta. pose proof (profits_run cost k) as Hrun. cbv zeta in Hrun.
    destruct (corn_produced _ cost _) as [[supply|e] k3]; by rewrite Hrun.
  - intros ct_rate su_rate k.
    pose proof (probability_of_losing_money_run ct_rate su_rate k) as Hrun.
    destruct (probability_of_losing_money ct_rate su_rate k) as [[frac|e] k']; [|exact Hrun].
    by destruct Hrun as (_ & _ & _ & Hcalls).
Qed.

(** C6 as stated fails: on [quiet_kernel], [profits] enters
    [corn_produced], and "Probability of losing money" enters
    [get_signups] and [get_revenue], twice each. *)
Lemma exercises_do_call_earlier_functions :
  ("corn_produced"%string ∈ calls (profits 5000 quiet_kernel).2)
  /\ calls (probability_of_losing_money some_ct_rate some_su_rate quiet_kernel).2
     = ["get_revenue"; "get_signups"; "get_revenue"; "get_signups"]%string.
Proof.
  split.
  - pose proof (profits_run 5000 quiet_kernel) as Hrun. cbv zeta in Hrun.
    destruct (corn_produced _ 5000 _) as [[supply|e] k3]; rewrite Hrun; cbn [snd calls];
      set_solver.
  - pose proof (probability_of_losing_money_run some_ct_rate some_su_rate quiet_kernel) as Hrun.
    revert Hrun. unfold probability_of_losing_money.
    destruct (get_signups_returns "low" some_ct_rate some_su_rate 10000 quiet_kernel
                (1 # 100) (2 # 10)) as (s1 & k1 & H1); [reflexivity..|by intros|].
    pose proof (get_signups_effect "low" some_ct_rate some_su_rate 10000 quiet_kernel)
      as [_ Hs1].
    rewrite H1 in Hs1. cbn [snd] in Hs1.
    rewrite (bind_Ok _ _ _ _ _ H1), (bind_Ok _ _ _ _ _ (get_revenue_run s1 k1)).
    set (k2 := Kernel _ _ _ _ _).
    destruct (get_signups_returns "high" some_ct_rate some_su_rate 10000 k2
                (11 # 1000) (22 # 100)) as (s2 & k3 & H2); [reflexivity..| |].
    { intros i. cbn [k2 tape]. rewrite Hs1. by cbn. }
    rewrite (bind_Ok _ _ _ _ _ H2), (bind_Ok _ _ _ _ _ (get_revenue_run s2 k3)).
    unfold ret. intros (_ & _ & _ & Hcalls). cbn [snd]. by rewrite Hcalls.
Qed.

End Calls.

(** ** Calculating the value of pi: the deterministic half *)
Section Pi.
Import Np Applications.
Local Open Scope Q_scope.

Lemma count_true_snoc (bs : list bool) (b : bool) :
  count_true (bs ++ [b]) = (if b then S (count_true bs) else count_true bs).
Proof.
  induction bs as [|b' bs IH]; [by destruct b|].
  change (count_true ((b' :: bs) ++ [b]))
    with (if b' then S (count_true (bs ++ [b])) else count_true (bs ++ [b])).
  change (count_true (b' :: bs)) with (if b' then S (count_true bs) else count_true bs).
  rewrite IH. by destruct b', b.
Qed.

Lemma hits_S (k : kernel) (j : nat) :
  hits k (S j) = (if within_circle (point_of k j) then S (hits k j) else hits k j).
Proof.
  unfold hits. rewrite seq_S, map_app.
  change (map (fun i => within_circle (point_of k i)) [(0 + j)%nat])
    with [within_circle (point_of k j)].
  by rewrite count_true_snoc.
Qed.

Lemma unit_interval_bounds (q : Q) : 0 <= unit_interval q < 1.
Proof.
  unfold unit_interval. pose proof (Qfloor_le q) as Hle. pose proof (Qlt_floor q) as Hlt.
  rewrite inject_Z_plus in Hlt. change (inject_Z 1) with 1 in Hlt. lra.
Qed.

(** Every point lies in the square. *)
Lemma point_of_in_square (k : kernel) (i : nat) :
  Forall (fun x => -1 <= x < 1) (point_of k i).
Proof.
  unfold point_of. apply Forall_forall. intros x Hx.
  apply list_elem_of_fmap in Hx as (c & -> & _).
  pose proof (unit_interval_bounds (tape k (cursor k + i)%nat c)). lra.
Qed.

(** In the arithmetic of the rationals the estimate is exactly four times
    the number of points within the circle over the number of points, and
    so lies between 0 and 4. *)
Lemma value_of_pi_exact (k : kernel) :
  value_of_pi k
  = (Ok (4 * inject_Z (Z.of_nat (hits k 10000)) / inject_Z (Z.of_nat 10000)), advance 10000 k)
  /\ (hits k 10000 <= 10000)%nat
  /\ 0 <= 4 * inject_Z (Z.of_nat (hits k 10000)) / inject_Z (Z.of_nat 10000) <= 4.
Proof.
  assert (Hhits : forall n, (hits k n <= n)%nat).
  { intros n. unfold hits. etrans; [apply count_true_le|]. by rewrite length_map, length_seq. }
  split; [|split; [apply Hhits|]].
  - unfold value_of_pi. generalize 10000%nat. intros sims.
    destruct (for_range_invariant sims
                (fun (_ : nat) circle_points =>
                   point <- uniform (-1) 1 2 ;;
                   ret (if Qle_bool (nth 0 point 0 ^ 2 + nth 1 point 0 ^ 2) 1
                        then S circle_points else circle_points))
                (fun j cp k' => k' = advance j k /\ cp = hits k j) 0%nat k)
      as (cp & k' & Hrun & -> & ->).
    + by rewrite advance_0.
    + intros j cp kj _ [-> ->]. eexists _, _. split; [reflexivity|].
      cbn [snd]. split.
      * unfold advance. cbn [tape cursor seeded calls heap]. f_equal. lia.
      * rewrite hits_S. reflexivity.
    + run_bind Hrun. reflexivity.
  - generalize (Hhits 10000%nat). generalize (hits k 10000). generalize 10000%nat.
    intros n h Hh.
    destruct n as [|n].
    + assert (h = 0%nat) as -> by lia. by compute.
    + assert (Hn : 0 < inject_Z (Z.of_nat (S n))).
      { change 0 with (inject_Z 0). rewrite <- Zlt_Qlt. lia. }
      assert (Hh0 : 0 <= inject_Z (Z.of_nat h)).
      { change 0 with (inject_Z 0). rewrite <- Zle_Qle. lia. }
      assert (Hhn : inject_Z (Z.of_nat h) <= inject_Z (Z.of_nat (S n))).
      { rewrite <- Zle_Qle. lia. }
      split.
      * apply Qle_shift_div_l; [exact Hn|]. lra.
      * apply Qle_shift_div_r; [exact Hn|]. lra.
Qed.

(** Which points count, away from the circle itself. *)
Lemma within_circle_margin (k : kernel) (n i : nat) :
  (i < n)%nat ->
  length (point_of k i) = 2%nat
  /\ Forall (fun x => -1 <= x <= 1) (point_of k i)
  /\ (squared_distance (point_of k i) <= 1 - rounding_margin ->
      map (fun i => within_circle (point_of k i)) (seq 0 n) !! i = Some true)
  /\ (1 + rounding_margin <= squared_distance (point_of k i) ->
      map (fun i => within_circle (point_of k i)) (seq 0 n) !! i = Some false).
Proof.
  intros Hi. split; [reflexivity|]. split.
  { eapply Forall_impl; [apply point_of_in_square|]. intros x Hx. cbv beta in Hx. lra. }
  rewrite (lookup_map_seq (fun i => within_circle (point_of k i)) n i Hi). clear Hi.
  unfold within_circle. fold (squared_distance (point_of k i)).
  unfold rounding_margin.
  destruct (Qle_bool (squared_distance (point_of k i)) 1) eqn:E.
  - split; [done|]. intros H. apply Qle_bool_iff in E. lra.
  - split; [|done]. intros H.
    assert (Hle : Qle_bool (squared_distance (point_of k i)) 1 = true)
      by (apply Qle_bool_iff; lra).
    congruence.
Qed.

(** X1. The estimate is four times the share of the points that count as
    within the circle, and so lies between 0 and 4. Every point has both
    coordinates between -1 and 1. A point counts when the square of its
    distance from the centre is at most 1; the statement leaves open how a
    point counts for which that square is within a billionth of 1, where the
    rounding of the squares and of their sum decides the comparison. *)
Theorem value_of_pi_counts_the_points_within_the_circle (k : kernel) :
  exists counted : list bool,
    let circle_points := count_true counted in
    let pi_sim := 4 * inject_Z (Z.of_nat circle_points) / inject_Z (Z.of_nat 10000) in
    value_of_pi k = (Ok pi_sim, advance 10000 k)
    /\ length counted = 10000%nat
    /\ 0 <= pi_sim <= 4
    /\ forall i, (i < 10000)%nat ->
         length (point_of k i) = 2%nat
         /\ Forall (fun x => -1 <= x <= 1) (point_of k i)
         /\ (squared_distance (point_of k i) <= 1 - rounding_margin ->
             counted !! i = Some true)
         /\ (1 + rounding_margin <= squared_distance (point_of k i) ->
             counted !! i = Some false).
Proof.
  destruct (value_of_pi_exact k) as (Hrun & _ & Hb).
  revert Hrun Hb. unfold hits. generalize 10000%nat. intros n Hrun Hb.
  exists (map (fun i => within_circle (point_of k i)) (seq 0 n)).
  split; [exact Hrun|]. split; [by rewrite length_map, length_seq|]. split; [exact Hb|].
  apply within_circle_margin.
Qed.

End Pi.
(** ** Portfolio returns *)
Section PortfolioReturn.
Import Np Investing.
Local Open Scope Q_scope.

Lemma compounding_loop (rates : list Q) (k : kernel) :
  forall principal : Q,
    exists r, for_each rates (fun x end_return => ret (end_return * (1 + x))) principal k
              = (Ok r, k)
              /\ r == principal * growth rates.
Proof.
  induction rates as [|x rates IH]; intros principal.
  - exists principal. split; [reflexivity|]. unfold growth. cbn. ring.
  - destruct (IH (principal * (1 + x))) as (r & Hr & Heq).
    exists r. split; [exact Hr|]. rewrite Heq. unfold growth. cbn [map foldr]. ring.
Qed.

(** What [portfolio_return] does: one sampler call for the rates of all
    years, which fails on a negative deviation; then the principal
    compounds year by year. *)
Lemma portfolio_return_run (yrs : nat) (avg_return sd_of_return principal : Q) (k : kernel) :
  if Qle_bool 0 sd_of_return then
    exists r,
      portfolio_return yrs avg_return sd_of_return principal k
      = (Ok r, entered "portfolio_return" k)
      /\ r == principal
              * growth (map (fun i => avg_return + sd_of_return * tape k (cursor k) i)
                            (seq 0 yrs))
  else
    portfolio_return yrs avg_return sd_of_return principal k
    = (Raise ValueError, entered "portfolio_return" k).
Proof.
  unfold portfolio_return, bind at 1, enter, bind at 1, normal, sampler.
  cbn [tape cursor seeded calls heap].
  destruct (Qle_bool 0 sd_of_return); [|reflexivity].
  destruct (compounding_loop
              (map (fun i => avg_return + sd_of_return * tape k (cursor k) i) (seq 0 yrs))
              (entered "portfolio_return" k) principal) as (r & Hr & Heq).
  exists r. split; [|exact Heq].
  unfold entered in Hr |- *. run_bind Hr. reflexivity.
Qed.

Lemma growth_constant (x : Q) (n : nat) (f : nat -> Q) (s : nat) :
  (forall i, f i == x) ->
  growth (map f (seq s n)) == (1 + x) ^ Z.of_nat n.
Proof.
  intros Hf. revert s. induction n as [|n IH]; intros s.
  - reflexivity.
  - cbn [seq map]. unfold growth in *. cbn [foldr]. rewrite IH, Hf.
    rewrite Nat2Z.inj_succ. unfold Z.succ.
    rewrite Qpower.Qpower_plus' by lia. rewrite Qpower.Qpower_1_r. ring.
Qed.

(** X2. Without volatility the draws do not matter: whatever the generator
    emits, the function returns the same value, after one sampler call.
    With no years the principal is returned as it is. The value is the
    compound interest on the principal, up to the rounding of the yearly
    multiplications: for a return of at most 100% a year over at most 100
    years on a principal of at most a billion, it is within a billionth of
    the compound interest plus 1. *)
Theorem portfolio_return_without_volatility (yrs : nat) (avg_return principal : Q)
    (k1 k2 : kernel) :
  exists r1 r2,
    portfolio_return yrs avg_return 0 principal k1 = (Ok r1, entered "portfolio_return" k1)
    /\ portfolio_return yrs avg_return 0 principal k2 = (Ok r2, entered "portfolio_return" k2)
    /\ r1 == r2
    /\ (yrs = 0%nat -> r1 = principal)
    /\ (0 <= avg_return <= 1 -> 0 <= principal <= 1000000000 -> (Z.of_nat yrs <= 100)%Z ->
        let compound := principal * (1 + avg_return) ^ Z.of_nat yrs in
        Qabs (r1 - compound) <= rounding_margin * (1 + compound)).
Proof.
  pose proof (portfolio_return_run yrs avg_return 0 principal k1) as H1.
  pose proof (portfolio_return_run yrs avg_return 0 principal k2) as H2.
  change (Qle_bool 0 0) with true in H1, H2. cbv iota in H1, H2.
  destruct H1 as (r1 & Hr1 & E1), H2 as (r2 & Hr2 & E2).
  rewrite (growth_constant avg_return) in E1 by (intros i; ring).
  rewrite (growth_constant avg_return) in E2 by (intros i; ring).
  exists r1, r2. split; [exact Hr1|]. split; [exact Hr2|]. split; [by rewrite E1, E2|].
  split.
  - intros ->. unfold portfolio_return, bind, enter, normal, sampler, ret in Hr1.
    cbn in Hr1. by injection Hr1 as <-.
  - intros Havg Hp _. cbv zeta.
    assert (Hpow : 0 <= (1 + avg_return) ^ Z.of_nat yrs) by (apply Qpower_0_le; lra).
    set (g := (1 + avg_return) ^ Z.of_nat yrs) in *.
    assert (Hc : 0 <= principal * g) by (apply Qmult_le_0_compat; lra).
    assert (Hz : r1 - principal * g == 0) by (rewrite E1; ring).
    rewrite Hz. unfold rounding_margin. change (Qabs 0) with 0.
    set (c := principal * g) in *. lra.
Qed.

(** X3. A negative deviation is refused by the sampler, before any
    compounding and whatever the other arguments; with any other deviation
    the function returns, after one sampler call. With an average return
    and a deviation of moderate size, a principal of zero stays zero. *)
Theorem portfolio_return_refuses_a_negative_deviation
    (yrs : nat) (avg_return sd_of_return principal : Q) (k : kernel) :
  if Qle_bool 0 sd_of_return then
    exists r,
      portfolio_return yrs avg_return sd_of_return principal k
      = (Ok r, entered "portfolio_return" k)
      /\ (moderate avg_return -> moderate sd_of_return -> principal == 0 -> r == 0)
  else
    sd_of_return < 0
    /\ portfolio_return yrs avg_return sd_of_return principal k
       = (Raise ValueError, entered "portfolio_return" k).
Proof.
  pose proof (portfolio_return_run yrs avg_return sd_of_return principal k) as H.
  destruct (Qle_bool 0 sd_of_return) eqn:Hsd.
  - destruct H as (r & Hr & E). exists r. split; [exact Hr|].
    intros _ _ Hp. rewrite E, Hp. ring.
  - split; [|exact H].
    apply Qnot_le_lt. intros Hle. apply Qle_bool_iff in Hle. congruence.
Qed.

End PortfolioReturn.

(** ** Modeling Profits: the sampler accepts the corn mean it is given *)
Section ProfitsReturn.
Import Np Applications.

Lemma cos_tenths_positive (n : R) : (0 <= n <= 4)%R -> (0 < cos (n / 10 * PI))%R.
Proof.
  intros Hn. pose proof PI_RGT_0. apply cos_gt_0; nra.
Qed.

(** The real part of the corn mean, which is what the sampler is given,
    is never negative: a negative base turns the power by a fifth or a
    tenth of a half turn, which leaves the real part positive. *)
Lemma corn_mean_real_part (rain cost : Q) :
  (0 <= match corn_mean rain cost with PyFloat x => x | PyComplex re _ => re end)%R.
Proof.
  unfold corn_mean, py_pow.
  pose proof (Rpower_positive (Q2R cost) (1 / 10)) as Hc.
  pose proof (Rpower_positive (- Q2R cost) (1 / 10)) as Hc'.
  pose proof (Rpower_positive (Q2R rain) (2 / 10)) as Hr.
  pose proof (Rpower_positive (- Q2R rain) (2 / 10)) as Hr'.
  pose proof (cos_tenths_positive 1 ltac:(lra)) as C1.
  pose proof (cos_tenths_positive 2 ltac:(lra)) as C2.
  pose proof (cos_tenths_positive 3 ltac:(lra)) as C3.
  destruct (Rlt_dec (Q2R cost) 0) as [Hcost|Hcost];
    destruct (Rlt_dec (Q2R rain) 0) as [Hrain|Hrain]; cbn [py_mul].
  - set (a := Rpower (- Q2R cost) (1 / 10)) in *.
    set (b := Rpower (- Q2R rain) (2 / 10)) in *.
    replace (100 * (a * cos (1 / 10 * PI)) * (b * cos (2 / 10 * PI))
             - 100 * (a * sin (1 / 10 * PI)) * (b * sin (2 / 10 * PI)))%R
      with (100 * a * b * cos (3 / 10 * PI))%R.
    + apply Rlt_le. repeat apply Rmult_lt_0_compat; lra.
    + replace (3 / 10 * PI)%R with (1 / 10 * PI + 2 / 10 * PI)%R by lra.
      rewrite cos_plus. ring.
  - destruct (Req_dec_T (Q2R rain) 0); cbn [py_mul].
    + lra.
    + apply Rlt_le. repeat apply Rmult_lt_0_compat; lra.
  - destruct (Req_dec_T (Q2R cost) 0); cbn [py_mul].
    + lra.
    + apply Rlt_le. repeat apply Rmult_lt_0_compat; lra.
  - destruct (Req_dec_T (Q2R cost) 0); destruct (Req_dec_T (Q2R rain) 0); cbn [py_mul];
      try lra.
    apply Rlt_le. repeat apply Rmult_lt_0_compat; lra.
Qed.

Lemma corn_produced_returns (rain cost : Q) (k : kernel) :
  exists supply,
    corn_produced rain cost k
    = (Ok supply,
       Kernel (tape k) (S (cursor k)) (seeded k) ("corn_produced" :: calls k)%string (heap k)).
Proof.
  pose proof (corn_mean_real_part rain cost) as Hre.
  unfold corn_produced, bind at 1, enter, bind, poisson, sampler.
  cbn [tape cursor seeded calls heap].
  destruct (Rlt_dec _ 0) as [Hneg|_]; [lra|].
  destruct (Req_dec_T _ 0); eexists; reflexivity.
Qed.

Local Open Scope Q_scope.

Lemma profits_ok (cost : Q) (k : kernel) :
  exists (profit : Q) (k' : kernel), profits cost k = (Ok profit, k').
Proof.
  pose proof (profits_run cost k) as Hrun. cbv zeta in Hrun.
  destruct (corn_produced_returns (50 + 15 * tape k (cursor k) 0%nat) cost
              (Kernel (tape k) (S (S (cursor k))) (seeded k) ("profits" :: calls k)%string
                      (heap k))) as (supply & Hcorn).
  rewrite Hcorn in Hrun. eexists _, _. exact Hrun.
Qed.

End ProfitsReturn.

(** ** Integrating a Simple Function *)
Section Integrate.
Import Np Integration.
Local Open Scope Q_scope.

Lemma Qlt_bool_true (a b : Q) : Qlt_bool a b = true <-> a < b.
Proof.
  unfold Qlt_bool. rewrite negb_true_iff. split.
  - intros H. apply Qnot_le_lt. intros Hle. apply Qle_bool_iff in Hle. congruence.
  - intros H. destruct (Qle_bool b a) eqn:E; [|done].
    apply Qle_bool_iff in E. lra.
Qed.

Lemma Qlt_bool_false (a b : Q) : Qlt_bool a b = false <-> b <= a.
Proof.
  unfold Qlt_bool. rewrite negb_false_iff. apply Qle_bool_iff.
Qed.

Lemma py_min_Q_fold (xs : list Q) :
  forall x, let m := foldl (fun m item => if Qlt_bool item m then item else m) x xs in
            m ∈ x :: xs /\ Forall (fun y => m <= y) (x :: xs).
Proof.
  induction xs as [|y xs IH]; intros x; cbn [foldl].
  - split; [apply list_elem_of_here|]. repeat constructor. lra.
  - destruct (Qlt_bool y x) eqn:E.
    + destruct (IH y) as [Hin Hall]. split; [by apply list_elem_of_further|].
      apply Qlt_bool_true in E. inversion Hall as [|? ? Hy Hxs]; subst.
      constructor; [lra|]. by constructor.
    + destruct (IH x) as [Hin Hall]. split.
      { apply elem_of_cons in Hin as [->|Hin]; [apply list_elem_of_here|].
        by do 2 apply list_elem_of_further. }
      apply Qlt_bool_false in E. inversion Hall as [|? ? Hx Hxs]; subst.
      constructor; [exact Hx|]. constructor; [lra|exact Hxs].
Qed.

Lemma py_max_Q_fold (xs : list Q) :
  forall x, let m := foldl (fun m item => if Qlt_bool m item then item else m) x xs in
            m ∈ x :: xs /\ Forall (fun y => y <= m) (x :: xs).
Proof.
  induction xs as [|y xs IH]; intros x; cbn [foldl].
  - split; [apply list_elem_of_here|]. repeat constructor. lra.
  - destruct (Qlt_bool x y) eqn:E.
    + destruct (IH y) as [Hin Hall]. split; [by apply list_elem_of_further|].
      apply Qlt_bool_true in E. inversion Hall as [|? ? Hy Hxs]; subst.
      constructor; [lra|]. by constructor.
    + destruct (IH x) as [Hin Hall]. split.
      { apply elem_of_cons in Hin as [->|Hin]; [apply list_elem_of_here|].
        by do 2 apply list_elem_of_further. }
      apply Qlt_bool_false in E. inversion Hall as [|? ? Hx Hxs]; subst.
      constructor; [exact Hx|]. constructor; [lra|exact Hxs].
Qed.

Lemma py_min_Q_spec (xs : list Q) :
  xs <> [] -> exists m, py_min_Q xs = Ok m /\ m ∈ xs /\ Forall (fun y => m <= y) xs.
Proof.
  destruct xs as [|x xs]; [done|]. intros _. eexists. split; [reflexivity|].
  apply py_min_Q_fold.
Qed.

Lemma py_max_Q_spec (xs : list Q) :
  xs <> [] -> exists m, py_max_Q xs = Ok m /\ m ∈ xs /\ Forall (fun y => y <= m) xs.
Proof.
  destruct xs as [|x xs]; [done|]. intros _. eexists. split; [reflexivity|].
  apply py_max_Q_fold.
Qed.

Lemma uniform_run (low high : Q) (size : nat) (k : kernel) :
  uniform low high size k
  = (Ok (map (fun i => low + (high - low) * unit_interval (tape k (cursor k) i)) (seq 0 size)),
     Kernel (tape k) (S (cursor k)) (seeded k) (calls k) (heap k)).
Proof. reflexivity. Qed.

Lemma uniform_between (low high : Q) (size : nat) (row : nat -> Q) :
  low <= high ->
  Forall (fun y => low <= y <= high)
         (map (fun i => low + (high - low) * unit_interval (row i)) (seq 0 size)).
Proof.
  intros Hle. apply Forall_forall. intros y Hy.
  apply list_elem_of_fmap in Hy as (i & -> & _).
  pose proof (unit_interval_bounds (row i)) as [H0 H1].
  split; nra.
Qed.

(** X5. The estimate is never negative, for a function of either sign:
    what the function counts is the share of points between the curve and
    the horizontal axis, on either side of it. With no simulations there
    is nothing to take a minimum of, and the function raises after its
    first sampler call. The interval and the values of the function on it
    are of moderate size. *)
Theorem sim_integrate_is_never_negative (func : Q -> Q) (xmin xmax : Q) (sims : nat)
    (k : kernel) :
  xmin <= xmax -> moderate xmin -> moderate xmax ->
  (forall x, xmin <= x <= xmax -> moderate (func x)) ->
  match sims with
  | O => sim_integrate func xmin xmax sims k = (Raise ValueError, entered "sim_integrate" k)
  | S _ =>
    exists result k',
      sim_integrate func xmin xmax sims k = (Ok result, k')
      /\ 0 <= result
  end.
Proof.
  intros Hx _ _ _. destruct sims as [|n]; [reflexivity|].
  set (sims := S n) in *.
  set (x := integration_points xmin xmax sims k) in *.
  assert (Hlen : length x = sims) by (unfold x, integration_points; by rewrite length_map, length_seq).
  assert (Hne : map func x <> []).
  { intros E. apply (f_equal length) in E. rewrite length_map, Hlen in E. discriminate. }
  destruct (py_min_Q_spec _ Hne) as (lowest & Hmin & Hmin_in & Hmin_le).
  destruct (py_max_Q_spec _ Hne) as (high & Hmax & Hmax_in & Hmax_ge).
  rewrite Forall_forall in Hmin_le, Hmax_ge.
  pose proof (Hmin_le _ Hmax_in) as Hlh.
  set (low := if Qlt_bool 0 lowest then 0 else lowest).
  assert (Hlow : low <= lowest).
  { unfold low. destruct (Qlt_bool 0 lowest) eqn:E.
    - apply Qlt_bool_true in E. lra.
    - apply Qlt_bool_false in E. lra. }
  set (y := map (fun i => low + (high - low) * unit_interval (tape k (S (cursor k)) i))
                (seq 0 sims)).
  assert (Hyne : y <> []).
  { intros E. apply (f_equal length) in E. unfold y in E.
    rewrite length_map, length_seq in E. discriminate. }
  destruct (py_max_Q_spec _ Hyne) as (max_y & Hymax & Hymax_in & Hymax_ge).
  destruct (py_min_Q_spec _ Hyne) as (min_y & Hymin & Hymin_in & Hymin_le).
  rewrite Forall_forall in Hymin_le.
  pose proof (Hymin_le _ Hymax_in) as Hdu.
  eexists _, _. split.
  - unfold sim_integrate, bind at 1, enter. cbn [tape cursor seeded calls heap].
    unfold bind at 1. rewrite uniform_run. cbn [tape cursor seeded calls heap].
    fold (integration_points xmin xmax sims k). fold x.
    unfold bind at 1, lift at 1. rewrite Hmin.
    unfold bind at 1, lift at 1. cbn [py_min_Q foldl]. fold low.
    unfold bind at 1, lift at 1. rewrite Hmax.
    unfold bind at 1. rewrite uniform_run. cbn [tape cursor seeded calls heap].
    fold y.
    unfold bind at 1, lift at 1. rewrite Hymax.
    unfold bind at 1, lift at 1. rewrite Hymin.
    reflexivity.
  - set (c := count_true _).
    assert (Hs : 0 < inject_Z (Z.of_nat sims)).
    { change 0 with (inject_Z 0). rewrite <- Zlt_Qlt. unfold sims. lia. }
    assert (Hc : 0 <= inject_Z (Z.of_nat c)).
    { change 0 with (inject_Z 0). rewrite <- Zle_Qle. lia. }
    apply Qle_shift_div_l; [exact Hs|]. rewrite Qmult_0_l.
    apply Qmult_le_0_compat; [|exact Hc].
    apply Qmult_le_0_compat; lra.
Qed.

Lemma sim_integrate_is_never_negative_witness :
  exists result k',
    sim_integrate (fun x => x - 1) 0 1 2 quiet_kernel = (Ok result, k')
    /\ 0 <= result.
Proof.
  apply (sim_integrate_is_never_negative (fun x => x - 1) 0 1 2 quiet_kernel).
  - discriminate.
  - split; discriminate.
  - split; discriminate.
  - intros x Hx. unfold moderate. split; lra.
Defined.

End Integrate.

(** ** Driving test *)
Section DrivingTest.
Import Np DataGeneration.
Local Open Scope Q_scope.

(** A draw between two items with probabilities [p] and [1 - p]: the
    first item exactly when the uniform draw falls below [p]. *)
Lemma choice_p_two {A} (a b : A) (p : Q) (size : nat) (k : kernel) :
  choice_p [a; b] [p; 1 - p] size k
  = (if Qle_bool 0 p && Qle_bool p 1
     then Ok (map (fun i => if Qlt_bool (unit_interval (tape k (cursor k) i)) p then a else b)
                  (seq 0 size))
     else Raise ValueError,
     Kernel (tape k) (S (cursor k)) (seeded k) (calls k) (heap k)).
Proof.
  unfold choice_p, sampler. f_equal.
  change (negb (Nat.eqb (length [a; b]) (length [p; 1 - p]))) with false. cbv iota.
  cbn [existsb orb].
  assert (Hp1 : Qle_bool 0 (1 - p) = Qle_bool p 1).
  { destruct (Qle_bool p 1) eqn:E.
    - apply Qle_bool_iff in E. apply Qle_bool_iff. lra.
    - destruct (Qle_bool 0 (1 - p)) eqn:E'; [|done].
      apply Qle_bool_iff in E'. assert (p <= 1) as H%Qle_bool_iff by lra. congruence. }
  rewrite Hp1, orb_false_r.
  destruct (Qle_bool 0 p) eqn:H0; [|reflexivity].
  destruct (Qle_bool p 1) eqn:H1; [|reflexivity].
  cbn [negb orb andb].
  assert (Hsum : Qeq_bool (Qsum [p; 1 - p]) 1 = true).
  { apply Qeq_bool_iff. unfold Qsum. cbn [foldr]. ring. }
  rewrite Hsum. cbn [negb]. f_equal.
  apply map_ext. intros i.
  pose proof (unit_interval_bounds (tape k (cursor k) i)) as [Hu0 Hu1].
  set (u := unit_interval (tape k (cursor k) i)) in *.
  unfold searchsorted_right, cumsum. cbn [cumsum_from].
  rewrite !filter_cons, filter_nil.
  assert (Hlast : Qle_bool (0 + p + (1 - p)) u = false).
  { destruct (Qle_bool (0 + p + (1 - p)) u) eqn:E; [|done].
    apply Qle_bool_iff in E. lra. }
  destruct (Qlt_bool u p) eqn:Hlt.
  - apply Qlt_bool_true in Hlt.
    assert (Hfst : Qle_bool (0 + p) u = false).
    { destruct (Qle_bool (0 + p) u) eqn:E; [|done]. apply Qle_bool_iff in E. lra. }
    rewrite (decide_False (P := Qle_bool (0 + p) u = true)) by congruence.
    rewrite (decide_False (P := Qle_bool (0 + p + (1 - p)) u = true)) by congruence.
    reflexivity.
  - apply Qlt_bool_false in Hlt.
    assert (Hfst : Qle_bool (0 + p) u = true) by (apply Qle_bool_iff; lra).
    rewrite (decide_True (P := Qle_bool (0 + p) u = true)) by exact Hfst.
    rewrite (decide_False (P := Qle_bool (0 + p + (1 - p)) u = true)) by congruence.
    reflexivity.
Qed.

(** X6. The outcome of the test, from the two draws: it rains when the first
    draw falls below [p_rain]; the test is passed when the second draw
    falls below 0.3 in the rain and below 0.9 in the sun. No weather is
    missing from [p_pass]. A [p_rain] outside [0, 1] is refused by the first
    sampler call. *)
Theorem test_outcome_by_weather (p_rain : Q) (k : kernel) :
  let u1 := unit_interval (tape k (cursor k) 0%nat) in
  let u2 := unit_interval (tape k (S (cursor k)) 0%nat) in
  test_outcome p_rain k
  = if Qle_bool 0 p_rain && Qle_bool p_rain 1
    then (Ok [if Qlt_bool u2 (if Qlt_bool u1 p_rain then 3 # 10 else 9 # 10)
              then "pass" else "fail"]%string,
          Kernel (tape k) (S (S (cursor k))) (seeded k) ("test_outcome" :: calls k)%string
                 (heap k))
    else (Raise ValueError, entered "test_outcome" k).
Proof.
  intros u1 u2. unfold test_outcome, bind at 1, enter. cbn [tape cursor seeded calls heap].
  unfold bind at 1. rewrite choice_p_two. cbn [tape cursor seeded calls heap].
  destruct (Qle_bool 0 p_rain && Qle_bool p_rain 1); [|reflexivity].
  cbn [seq map]. fold u1.
  destruct (Qlt_bool u1 p_rain).
  - unfold bind at 1. cbn [first ret].
    assert (Hrain : p_pass !! "rain"%string = Some (3 # 10)) by reflexivity.
    unfold bind at 1, getitem at 1. rewrite Hrain. cbn [ret].
    unfold bind at 1. cbn [first ret].
    unfold bind at 1, getitem at 1. rewrite Hrain. cbn [ret].
    rewrite choice_p_two. cbn [tape cursor seeded calls heap].
    change (Qle_bool 0 (3 # 10) && Qle_bool (3 # 10) 1) with true. reflexivity.
  - unfold bind at 1. cbn [first ret].
    assert (Hsun : p_pass !! "sun"%string = Some (9 # 10)) by reflexivity.
    unfold bind at 1, getitem at 1. rewrite Hsun. cbn [ret].
    unfold bind at 1. cbn [first ret].
    unfold bind at 1, getitem at 1. rewrite Hsun. cbn [ret].
    rewrite choice_p_two. cbn [tape cursor seeded calls heap].
    change (Qle_bool 0 (9 # 10) && Qle_bool (9 # 10) 1) with true. reflexivity.
Qed.

End DrivingTest.

(** ** Birthday problem: the ends of the range *)
Section BirthdayEdges.
Import Np Probability.
Local Open Scope Q_scope.

Lemma share_bounds (c n : nat) :
  (0 < n)%nat -> (c <= n)%nat ->
  0 <= 1 - inject_Z (Z.of_nat c) / inject_Z (Z.of_nat n) <= 1.
Proof.
  intros Hn Hc.
  assert (Hpos : 0 < inject_Z (Z.of_nat n)).
  { change 0 with (inject_Z 0). rewrite <- Zlt_Qlt. lia. }
  assert (0 <= inject_Z (Z.of_nat c) / inject_Z (Z.of_nat n)).
  { apply Qle_shift_div_l; [done|]. rewrite Qmult_0_l.
    change 0 with (inject_Z 0). rewrite <- Zle_Qle. lia. }
  assert (inject_Z (Z.of_nat c) / inject_Z (Z.of_nat n) <= 1).
  { apply Qle_shift_div_r; [done|]. rewrite Qmult_1_l. rewrite <- Zle_Qle. lia. }
  lra.
Qed.

(** Fewer than two people cannot share a birthday. *)
Lemma fewer_than_two_people (draw : list nat) :
  (length draw <= 1)%nat ->
  (length draw =? size (list_to_set draw : gset nat))%nat = true.
Proof.
  intros Hlen. apply Nat.eqb_eq.
  destruct draw as [|x [|y draw]]; cbn in Hlen; [| |lia].
  - reflexivity.
  - cbn [list_to_set length]. rewrite union_empty_r_L, size_singleton. reflexivity.
Qed.

(** X7. [birthday_sim] returns a share between 0 and 1 for every number of
    people and every sequence of draws; it is 0 for fewer than two people
    and 1 for more than 365. *)
Theorem birthday_sim_at_the_ends (people : nat) (k : kernel) :
  exists out k',
    birthday_sim people k = (Ok out, k')
    /\ 0 <= out <= 1
    /\ ((people <= 1)%nat -> out == 0)
    /\ ((365 < people)%nat -> out == 1).
Proof.
  unfold birthday_sim, bind at 1, enter.
  set (k0 := Kernel _ _ _ _ _).
  destruct (for_range_invariant 2000
              (fun (_ : nat) unique_birthdays =>
                 draw <- choice days people ;;
                 ret (if (length draw =? size (list_to_set draw : gset nat))%nat
                      then S unique_birthdays else unique_birthdays))
              (fun j u _ => (u <= j)%nat
                            /\ ((people <= 1)%nat -> u = j)
                            /\ ((365 < people)%nat -> u = 0%nat)) 0%nat k0)
    as (u & k' & Hrun & Hle & Hfew & Hmany).
  - split; [apply Nat.le_refl|]. split; reflexivity.
  - intros j acc kk _ (Hle & Hfew & Hmany).
    destruct (choice_nonempty days people kk) as (draw & Hd & Hlen & Hin).
    { unfold days. intros H. apply (f_equal length) in H. by rewrite length_seq in H. }
    eexists _, _. split; [unfold bind; rewrite Hd; reflexivity|].
    split; [|split].
    + destruct (_ =? _)%nat; [by apply le_n_S|by apply Nat.le_le_succ_r].
    + intros Hp. rewrite fewer_than_two_people by (by rewrite Hlen).
      f_equal. by apply Hfew.
    + intros Hp. rewrite more_people_than_days by (by rewrite ?Hlen). by apply Hmany.
  - eexists _, k'. split; [run_bind Hrun; reflexivity|].
    split; [apply share_bounds; [apply Nat.lt_0_succ|exact Hle]|].
    split.
    + intros Hp. rewrite (Hfew Hp). reflexivity.
    + intros Hp. rewrite (Hmany Hp). reflexivity.
Qed.

End BirthdayEdges.

(** ** Sign up Flow and Purchase Flow *)
Section Flows.
Import Np Probability.
Local Open Scope Q_scope.

(** The first two sampler calls of [get_signups], when no mean it draws
    is negative. *)
Lemma get_signups_impressions (cost : string) (ct_rate su_rate : gmap string Q) (sims : nat)
    (k : kernel) :
  Forall (fun l => 0 <= l) (drawn_lam sims k) ->
  get_signups cost ct_rate su_rate sims k
  = (ct <- getitem ct_rate cost ;;
     clicks <- binomial_array (drawn_impressions sims k) ct ;;
     su <- getitem su_rate cost ;;
     signups <- binomial_array clicks su ;;
     ret signups) (signups_kernel 2 k).
Proof.
  intros Hlam.
  unfold get_signups, bind at 1, enter, bind at 1, normal, sampler.
  cbn [tape cursor seeded calls heap].
  change (Qle_bool 0 lambda_std) with true. cbv iota.
  unfold bind at 1, poisson_array, sampler. cbn [tape cursor seeded calls heap].
  fold (drawn_lam sims k).
  assert (Hall : forallb (Qle_bool 0) (drawn_lam sims k) = true).
  { apply forallb_forall. intros x Hx. apply Qle_bool_iff.
    rewrite Forall_forall in Hlam. apply Hlam. by apply list_elem_of_In. }
  rewrite Hall. reflexivity.
Qed.

(** X8. A cost that is not a key of the rates is noticed only after the
    impressions were drawn: [get_signups] raises [KeyError] after two sampler
    calls when the click-through rates lack it, and after three when only
    the sign-up rates do. *)
Theorem get_signups_unknown_cost (cost : string) (ct_rate su_rate : gmap string Q)
    (sims : nat) (k : kernel) :
  Forall (fun l => 0 <= l) (drawn_lam sims k) ->
  (ct_rate !! cost = None ->
   get_signups cost ct_rate su_rate sims k = (Raise KeyError, signups_kernel 2 k))
  /\ (forall ct, ct_rate !! cost = Some ct -> 0 <= ct <= 1 -> su_rate !! cost = None ->
      get_signups cost ct_rate su_rate sims k = (Raise KeyError, signups_kernel 3 k)).
Proof.
  intros Hlam. rewrite (get_signups_impressions _ _ _ _ _ Hlam). split.
  - intros Hct. unfold bind at 1, getitem at 1. rewrite Hct. reflexivity.
  - intros ct Hct [H0 H1] Hsu.
    unfold bind at 1, getitem at 1. rewrite Hct. unfold ret at 1.
    unfold bind at 1, binomial_array at 1, sampler.
    apply Qle_bool_iff in H0, H1. rewrite H0, H1. cbn [andb].
    unfold bind at 1, getitem at 1. rewrite Hsu. reflexivity.
Qed.

Lemma get_signups_unknown_cost_witness :
  get_signups "medium" some_ct_rate some_su_rate 3 quiet_kernel
  = (Raise KeyError, signups_kernel 2 quiet_kernel).
Proof.
  apply (get_signups_unknown_cost "medium" some_ct_rate some_su_rate 3 quiet_kernel).
  - repeat constructor; discriminate.
  - reflexivity.
Defined.

(** X9. The funnel narrows: with rates in [0, 1] for the cost, [get_signups]
    returns one count per simulation, and no count exceeds the impressions
    drawn for its simulation. *)
Theorem get_signups_funnel (cost : string) (ct_rate su_rate : gmap string Q) (sims : nat)
    (k : kernel) (ct su : Q) :
  Forall (fun l => 0 <= l) (drawn_lam sims k) ->
  ct_rate !! cost = Some ct -> 0 <= ct <= 1 ->
  su_rate !! cost = Some su -> 0 <= su <= 1 ->
  exists signups,
    get_signups cost ct_rate su_rate sims k = (Ok signups, signups_kernel 4 k)
    /\ length signups = sims
    /\ Forall2 (fun s impressions => (s <= impressions)%nat)
               signups (drawn_impressions sims k).
Proof.
  intros Hlam Hct [Hc0 Hc1] Hsu [Hs0 Hs1].
  rewrite (get_signups_impressions _ _ _ _ _ Hlam).
  apply Qle_bool_iff in Hc0, Hc1, Hs0, Hs1.
  unfold bind at 1, getitem at 1. rewrite Hct. unfold ret at 1.
  unfold bind at 1, binomial_array at 1, sampler. rewrite Hc0, Hc1. cbn [andb].
  unfold bind at 1, getitem at 1. rewrite Hsu. unfold ret at 1.
  unfold bind at 1, binomial_array at 1, sampler. rewrite Hs0, Hs1. cbn [andb].
  cbn [tape cursor seeded calls heap signups_kernel].
  eexists. split; [reflexivity|].
  assert (Hlen : length (drawn_impressions sims k) = sims).
  { unfold drawn_impressions, drawn_lam. by rewrite length_imap, length_map, length_seq. }
  split; [by rewrite !length_imap|].
  apply Forall2_same_length_lookup. split; [by rewrite !length_imap|].
  intros i s imp Hs Himp.
  rewrite list_lookup_imap in Hs. rewrite list_lookup_imap in Hs.
  rewrite Himp in Hs. cbn in Hs. injection Hs as <-.
  set (clicks := random_index (S imp) _).
  assert (clicks < S imp)%nat by (apply random_index_lt; lia).
  assert (random_index (S clicks) (tape k (S (S (S (cursor k)))) i) < S clicks)%nat
    by (apply random_index_lt; lia).
  lia.
Qed.

Lemma get_signups_funnel_witness :
  exists signups,
    get_signups "low" some_ct_rate some_su_rate 3 quiet_kernel
    = (Ok signups, signups_kernel 4 quiet_kernel)
    /\ length signups = 3%nat
    /\ Forall2 (fun s impressions => (s <= impressions)%nat)
               signups (drawn_impressions 3 quiet_kernel).
Proof.
  apply (get_signups_funnel "low" some_ct_rate some_su_rate 3 quiet_kernel (1 # 100) (2 # 10)).
  - repeat constructor; discriminate.
  - reflexivity.
  - split; discriminate.
  - reflexivity.
  - split; discriminate.
Defined.

Lemma revenue_entry_nonnegative (stream : nat -> nat -> Q) (j s : nat) :
  0 <= revenue_entry stream j s.
Proof.
  unfold revenue_entry. apply Qsum_nonnegative, Forall_forall.
  intros q Hq. apply list_elem_of_fmap in Hq as (i & -> & _).
  pose proof (Qabs_nonneg (stream (2 * j + 1)%nat i)). unfold purchase_value_mean. nra.
Qed.

Lemma revenue_entry_no_signups (stream : nat -> nat -> Q) (j : nat) :
  revenue_entry stream j 0 = 0.
Proof.
  unfold revenue_entry, random_index.
  change (Z.of_nat 1) with 1%Z. rewrite Z.mod_1_r. reflexivity.
Qed.

(** X10. [get_revenue] returns for every list of sign-ups and every sequence of
    draws: one revenue per entry, never negative, and nothing where nobody
    signed up. An empty list gives an empty list. *)
Theorem get_revenue_per_entry (signups : list nat) (k : kernel) :
  exists rev k',
    get_revenue signups k = (Ok rev, k')
    /\ length rev = length signups
    /\ Forall (fun r => 0 <= r) rev
    /\ (forall j, signups !! j = Some 0%nat -> rev !! j = Some 0).
Proof.
  eexists _, _. split; [apply get_revenue_run|].
  unfold revenue_from. split; [by rewrite length_imap|]. split.
  - apply Forall_forall. intros r Hr.
    apply list_elem_of_lookup in Hr as (j & Hj). rewrite list_lookup_imap in Hj.
    destruct (signups !! j); [|done]. injection Hj as <-.
    apply revenue_entry_nonnegative.
  - intros j Hj. rewrite list_lookup_imap, Hj. cbn.
    by rewrite revenue_entry_no_signups.
Qed.

End Flows.

(** ** Generating a single permutation *)
Section SinglePermutation.
Import Np Permuting.
Local Open Scope Q_scope.

Lemma map_nth_seq (data : list Q) : map (fun i => nth i data 0) (seq 0 (length data)) = data.
Proof.
  apply list_eq. intros i. rewrite list_lookup_fmap.
  destruct (decide (i < length data)%nat) as [Hi|Hi].
  - rewrite lookup_seq_lt by done. cbn.
    apply lookup_lt_is_Some in Hi as [x Hx]. by rewrite (nth_lookup_Some _ _ _ _ Hx), Hx.
  - rewrite lookup_seq_ge by lia. cbn. symmetry. apply lookup_ge_None. lia.
Qed.

(** X11. The permuted datasets hold the observations of both groups, each
    once: they have the sizes of the two groups and together are a
    rearrangement of the concatenated data. No index is out of range. *)
Theorem single_permutation_keeps_the_data (donations_A donations_B : list Q) (k : kernel) :
  exists permuted_A permuted_B,
    single_permutation donations_A donations_B k
    = (Ok (permuted_A, permuted_B, fsub (mean permuted_A) (mean permuted_B)), advance 1 k)
    /\ length permuted_A = length donations_A
    /\ length permuted_B = length donations_B
    /\ permuted_A ++ permuted_B ≡ₚ donations_A ++ donations_B.
Proof.
  set (n := (length donations_A + length donations_B)%nat).
  set (data := donations_A ++ donations_B).
  set (perm := shuffled (tape k (cursor k)) (seq 0 n)).
  assert (Hperm : perm ≡ₚ seq 0 n) by apply shuffled_Permutation.
  assert (Hbound : Forall (fun i => (i < length data)%nat) perm).
  { unfold data. rewrite length_app. by apply Permutation_seq_bound. }
  assert (Hlen : length perm = n) by (by rewrite Hperm, length_seq).
  exists (map (fun i => nth i data 0) (take (length donations_A) perm)),
         (map (fun i => nth i data 0) (drop (length donations_A) perm)).
  split; [|split; [|split]].
  - unfold single_permutation, bind at 1, permutation, sampler.
    cbn [tape cursor seeded calls heap]. fold n perm data.
    unfold bind at 1, lift at 1. rewrite take_at_Ok by (by apply Forall_take).
    unfold bind at 1, lift at 1. rewrite take_at_Ok by (by apply Forall_drop).
    unfold ret, advance. by rewrite Nat.add_1_r.
  - rewrite length_map, length_take. lia.
  - rewrite length_map, length_drop. lia.
  - rewrite <- map_app, take_drop, Hperm. unfold n.
    rewrite <- (length_app donations_A donations_B). fold data.
    by rewrite map_nth_seq.
Qed.

End SinglePermutation.

(** ** Game of thirteen *)
Section Thirteen.
Import Np Sampling DataGeneration.
Local Open Scope Q_scope.

(** A loop that counts the draws which pass a test. *)
Lemma counting_loop {B} (draw : M B) (g : (nat -> Q) -> B) (test : B -> bool) (n : nat)
    (k : kernel) :
  (forall k, draw k = (Ok (g (tape k (cursor k))), advance 1 k)) ->
  for_range n (fun _ c => b <- draw ;; ret (if test b then S c else c)) 0%nat k
  = (Ok (count_true (map (fun i => test (g (tape k (cursor k + i)%nat))) (seq 0 n))),
     advance n k).
Proof.
  intros Hdraw.
  destruct (for_range_invariant n
              (fun (_ : nat) c => b <- draw ;; ret (if test b then S c else c))
              (fun j c k' =>
                 k' = advance j k
                 /\ c = count_true (map (fun i => test (g (tape k (cursor k + i)%nat)))
                                        (seq 0 j)))
              0%nat k) as (c & k' & Hrun & -> & ->).
  - by rewrite advance_0.
  - intros j c kj _ [-> ->]. eexists _, _. split.
    + unfold bind. rewrite Hdraw. reflexivity.
    + split; [rewrite advance_advance; f_equal; lia|].
      rewrite seq_S, map_app. cbn [map]. rewrite count_true_snoc. reflexivity.
  - exact Hrun.
Qed.

(** A count out of [n] as a share. *)
Lemma count_share (c n : nat) :
  (c <= n)%nat -> 0 <= inject_Z (Z.of_nat c) / inject_Z (Z.of_nat n) <= 1.
Proof.
  intros Hc. destruct n as [|n].
  - assert (c = 0%nat) as -> by lia. by compute.
  - assert (Hn : 0 < inject_Z (Z.of_nat (S n))).
    { change 0 with (inject_Z 0). rewrite <- Zlt_Qlt. lia. }
    split.
    + apply Qle_shift_div_l; [exact Hn|]. rewrite Qmult_0_l.
      change 0 with (inject_Z 0). rewrite <- Zle_Qle. lia.
    + apply Qle_shift_div_r; [exact Hn|]. rewrite Qmult_1_l. rewrite <- Zle_Qle. lia.
Qed.

Lemma coincidence_from (draw : list nat) :
  forall s,
    existsb (fun b : bool => b) (zip_with Nat.eqb draw (seq (S s) (length draw)))
    = negb (forallb (fun jc : nat * nat => negb (jc.2 =? S jc.1)%nat)
                    (imap (fun j c => (s + j, c)%nat) draw)).
Proof.
  induction draw as [|c draw IH]; intros s; [reflexivity|].
  cbn [length seq zip_with existsb imap forallb fst snd].
  rewrite Nat.add_0_r. rewrite IH.
  rewrite negb_andb, negb_involutive. f_equal. f_equal. f_equal.
  apply imap_ext. intros j x _. cbn. f_equal. lia.
Qed.

Lemma dealt_Permutation (row : nat -> Q) :
  map (fun j => nth j (seq 1 13) 1%nat) (take 13 (shuffled row (seq 0 13))) ≡ₚ seq 1 13.
Proof.
  pose proof (shuffled_Permutation row (seq 0 13)) as Hp.
  pose proof (Permutation_length Hp) as Hlen. rewrite length_seq in Hlen.
  rewrite firstn_all2 by (rewrite Hlen; apply Nat.le_refl).
  etrans; [apply Permutation_map, Hp|]. reflexivity.
Qed.

Lemma thirteen_draw_Permutation (k : kernel) (i : nat) : thirteen_draw k i ≡ₚ seq 1 13.
Proof. unfold thirteen_draw. apply dealt_Permutation. Qed.

(** A sample no larger than the population is drawn without error: the
    items at the first positions of a permutation of the positions. *)
Lemma choice_without_replacement_run {A} (a : list A) (d : A) (size : nat) (k : kernel) :
  (0 < length a)%nat -> (size <= length a)%nat ->
  choice_without_replacement a size k
  = (Ok (map (fun i => nth i a d)
             (take size (shuffled (tape k (cursor k)) (seq 0 (length a))))),
     advance 1 k).
Proof.
  intros Hne Hsize. destruct a as [|d0 a']; [cbn in Hne; lia|].
  unfold choice_without_replacement, sampler.
  rewrite (proj2 (Nat.ltb_ge _ _) Hsize).
  unfold advance. rewrite Nat.add_1_r. f_equal. f_equal.
  apply map_ext_in. intros i Hi. apply nth_indep.
  apply list_elem_of_In in Hi. apply elem_of_take in Hi as (j & Hj & _).
  apply list_elem_of_lookup_2 in Hj.
  pose proof (Permutation_seq_bound _ _
                (shuffled_Permutation (tape k (cursor k)) (seq 0 (length (d0 :: a')))))
    as Hb.
  rewrite Forall_forall in Hb. by apply Hb.
Qed.

(** X12. Every game deals all thirteen cards, each once, and no draw fails;
    the probability reported is the share of the 10000 games in which no card
    came up at its own count. *)
Theorem game_of_thirteen_deals_every_card (k : kernel) :
  let wins := count_true (map (fun i => no_coincidence (thirteen_draw k i)) (seq 0 10000)) in
  game_of_thirteen k
  = (Ok (inject_Z (Z.of_nat wins) / inject_Z (Z.of_nat 10000)), advance 10000 k)
  /\ (forall i, thirteen_draw k i ≡ₚ seq 1 13)
  /\ 0 <= inject_Z (Z.of_nat wins) / inject_Z (Z.of_nat 10000) <= 1.
Proof.
  intros wins. split; [|split; [apply thirteen_draw_Permutation|]].
  - unfold game_of_thirteen. subst wins. generalize 10000%nat. intros sims.
    assert (Hpos : (0 < length (seq 1 13))%nat) by (rewrite length_seq; lia).
    rewrite (bind_Ok _ _ _ _ _
               (counting_loop (choice_without_replacement (seq 1 13) (length (seq 1 13)))
                  (fun row => map (fun i => nth i (seq 1 13) 1%nat)
                                  (take (length (seq 1 13))
                                        (shuffled row (seq 0 (length (seq 1 13))))))
                  (fun draw => Bool.eqb (existsb (fun b : bool => b)
                                           (zip_with Nat.eqb draw (seq 1 13))) false)
                  sims k
                  (fun k0 => choice_without_replacement_run (seq 1 13) 1%nat
                               (length (seq 1 13)) k0 Hpos (Nat.le_refl _)))).
    assert (Heq : forall i,
               Bool.eqb (existsb (fun b : bool => b)
                           (zip_with Nat.eqb
                              (map (fun j => nth j (seq 1 13) 1%nat)
                                   (take (length (seq 1 13))
                                         (shuffled (tape k (cursor k + i)%nat)
                                                   (seq 0 (length (seq 1 13))))))
                              (seq 1 13))) false
               = no_coincidence (thirteen_draw k i)).
    { intros i. unfold thirteen_draw. rewrite !length_seq.
      pose proof (Permutation_length (dealt_Permutation (tape k (cursor k + i)%nat))) as Hlen.
      rewrite length_seq in Hlen. revert Hlen.
      generalize (map (fun j => nth j (seq 1 13) 1%nat)
                      (take 13 (shuffled (tape k (cursor k + i)%nat) (seq 0 13)))).
      intros d Hlen.
      rewrite <- Hlen at 1. rewrite (coincidence_from d 0). unfold no_coincidence.
      rewrite (imap_ext (fun j c => (0 + j, c)%nat) pair d) by done.
      generalize (forallb (fun jc : nat * nat => negb (jc.2 =? S jc.1)%nat) (imap pair d)).
      by intros []. }
    rewrite (map_ext _ _ Heq).
    reflexivity.
  - apply count_share. etrans; [apply count_true_le|].
    rewrite length_map, length_seq. apply Nat.le_refl.
Qed.

End Thirteen.

(** ** Percentiles: order statistics of the sorted array *)
Section Percentiles.
Import Np.
Local Open Scope Q_scope.

Lemma insert_sorted_Permutation (x : Q) (s : list Q) : insert_sorted x s ≡ₚ x :: s.
Proof.
  induction s as [|y s IH]; [reflexivity|].
  cbn [insert_sorted]. destruct (Qle_bool x y); [reflexivity|].
  rewrite IH. apply Permutation_swap.
Qed.

Lemma sort_Permutation (xs : list Q) : sort xs ≡ₚ xs.
Proof.
  induction xs as [|x xs IH]; [reflexivity|].
  unfold sort in *. cbn [foldr]. rewrite insert_sorted_Permutation. by rewrite IH.
Qed.

Lemma insert_sorted_sorted (x : Q) (s : list Q) :
  StronglySorted Qle s -> StronglySorted Qle (insert_sorted x s).
Proof.
  induction 1 as [|y s Hs IH Hy]; cbn [insert_sorted].
  - repeat constructor.
  - destruct (Qle_bool x y) eqn:E.
    + apply Qle_bool_iff in E. constructor; [by constructor|].
      constructor; [exact E|].
      eapply List.Forall_impl; [|exact Hy]. intros z Hz. cbv beta in Hz. lra.
    + constructor; [exact IH|].
      assert (Hyx : y <= x).
      { apply Qlt_le_weak, Qnot_le_lt. intros H. apply Qle_bool_iff in H. congruence. }
      apply Forall_forall. intros z Hz.
      rewrite insert_sorted_Permutation in Hz.
      apply elem_of_cons in Hz as [->|Hz]; [exact Hyx|].
      rewrite Forall_forall in Hy. by apply Hy.
Qed.

Lemma sort_sorted (xs : list Q) : StronglySorted Qle (sort xs).
Proof.
  induction xs as [|x xs IH]; [constructor|].
  unfold sort in *. cbn [foldr]. by apply insert_sorted_sorted.
Qed.


Lemma position_floor (pos : Q) (n : nat) :
  0 <= pos <= inject_Z (Z.of_nat n) ->
  (Z.to_nat (Qfloor pos) <= n)%nat
  /\ (0 <= Qfloor pos)%Z
  /\ 0 <= pos - inject_Z (Qfloor pos) < 1.
Proof.
  intros [H0 Hn].
  pose proof (Qfloor_le pos) as Hle. pose proof (Qlt_floor pos) as Hlt.
  rewrite inject_Z_plus in Hlt. change (inject_Z 1) with 1 in Hlt.
  assert (Hf0 : (0 <= Qfloor pos)%Z).
  { change 0%Z with (Qfloor 0). by apply Qfloor_resp_le. }
  assert (Hfn : (Qfloor pos <= Z.of_nat n)%Z).
  { rewrite <- (Qfloor_Z (Z.of_nat n)). by apply Qfloor_resp_le. }
  split; [lia|]. split; [exact Hf0|]. lra.
Qed.

Lemma interpolate_between (s : list Q) (d a b pos : Q) :
  s <> [] -> Forall (fun x => a <= x <= b) s ->
  0 <= pos <= inject_Z (Z.of_nat (length s - 1)) ->
  a <= interpolate s d pos <= b.
Proof.
  intros Hne Hall Hpos. unfold interpolate.
  destruct (position_floor pos _ Hpos) as (Hf & _ & Hw).
  assert (Hlen : (0 < length s)%nat) by (destruct s; [done|cbn; lia]).
  rewrite Forall_forall in Hall.
  assert (Hx : a <= nth (Z.to_nat (Qfloor pos)) s d <= b).
  { apply Hall, list_elem_of_In, nth_In. lia. }
  assert (Hy : a <= nth (Nat.min (S (Z.to_nat (Qfloor pos))) (length s - 1)) s d <= b).
  { apply Hall, list_elem_of_In, nth_In. lia. }
  set (x := nth _ s d) in *. set (y := nth (Nat.min _ _) s d) in *.
  set (w := pos - inject_Z (Qfloor pos)) in *.
  split; nra.
Qed.


Lemma percentile_interpolate (xs : list Q) (q : Q) (d : Q) (xs' : list Q) :
  xs = d :: xs' ->
  percentile xs q
  = Some (interpolate (sort xs) d (q / 100 * inject_Z (Z.of_nat (length xs - 1)))).
Proof.
  intros ->. unfold percentile, interpolate.
  rewrite (Permutation_length (sort_Permutation (d :: xs'))). reflexivity.
Qed.

Lemma percentile_position (q : Q) (n : nat) :
  0 <= q <= 100 ->
  0 <= q / 100 * inject_Z (Z.of_nat n) <= inject_Z (Z.of_nat n).
Proof.
  intros [H0 H1].
  assert (Hn : 0 <= inject_Z (Z.of_nat n)).
  { change 0 with (inject_Z 0). rewrite <- Zle_Qle. lia. }
  assert (Hq : 0 <= q / 100 <= 1).
  { split; [apply Qle_shift_div_l; lra|apply Qle_shift_div_r; lra]. }
  set (f := q / 100) in *. split; nra.
Qed.

(** A percentile of a non-empty array lies within any bounds of the
    array. *)
Lemma percentile_between (xs : list Q) (q a b : Q) :
  xs <> [] -> Forall (fun x => a <= x <= b) xs -> 0 <= q <= 100 ->
  exists v, percentile xs q = Some v /\ a <= v <= b.
Proof.
  intros Hne Hall Hq. destruct xs as [|d xs']; [done|].
  eexists. split; [by eapply percentile_interpolate|].
  apply interpolate_between.
  - intros E. apply (f_equal length) in E.
    rewrite (Permutation_length (sort_Permutation _)) in E. discriminate.
  - by rewrite sort_Permutation.
  - rewrite (Permutation_length (sort_Permutation _)). by apply percentile_position.
Qed.


End Percentiles.

(** ** Confidence intervals from percentiles *)
Section Intervals.
Import Np Resampling Investing.
Local Open Scope Q_scope.

Lemma Qsum_between (xs : list Q) (a b : Q) :
  Forall (fun x => a <= x <= b) xs ->
  inject_Z (Z.of_nat (length xs)) * a <= Qsum xs <= inject_Z (Z.of_nat (length xs)) * b.
Proof.
  induction 1 as [|x xs Hx _ IH].
  - unfold Qsum. cbn [length foldr]. change (inject_Z (Z.of_nat 0)) with 0. lra.
  - rewrite Qsum_cons. cbn [length]. rewrite Nat2Z.inj_succ. unfold Z.succ.
    rewrite inject_Z_plus. change (inject_Z 1) with 1. lra.
Qed.

(** The mean of a non-empty array lies within any bounds of the array. *)
Lemma mean_between (xs : list Q) (a b : Q) :
  xs <> [] -> Forall (fun x => a <= x <= b) xs ->
  exists m, mean xs = Some m /\ a <= m <= b.
Proof.
  intros Hne Hall. destruct xs as [|x xs']; [done|].
  eexists. split; [reflexivity|].
  pose proof (Qsum_between _ _ _ Hall) as [Hlo Hhi].
  assert (Hn : 0 < inject_Z (Z.of_nat (length (x :: xs')))).
  { change 0 with (inject_Z 0). rewrite <- Zlt_Qlt. cbn [length]. lia. }
  split.
  - apply Qle_shift_div_l; [exact Hn|]. lra.
  - apply Qle_shift_div_r; [exact Hn|]. lra.
Qed.

Lemma finite_map_Some_id (qs : list Q) : finite (map Some qs) = Some qs.
Proof. induction qs as [|q qs IH]; [done|]. cbn. by rewrite IH. Qed.

(** What the bootstrap cell computes: the statistics of the 1000
    resample means. *)
Lemma simple_bootstrap_run (wrench_lengths : list Q) (k : kernel) :
  wrench_lengths <> [] ->
  simple_bootstrap wrench_lengths k
  = (Ok (fmean (resample_means wrench_lengths k),
         [fpercentile (resample_means wrench_lengths k) (25 # 10);
          fpercentile (resample_means wrench_lengths k) (975 # 10)]),
     advance 1000 k).
Proof.
  intros Hne. unfold simple_bootstrap, resample_means, for_range.
  generalize 1000%nat as sims. intros sims.
  destruct wrench_lengths as [|d wl]; [done|].
  unfold bind at 1, choice.
  rewrite (for_each_sampler_append
             (fun (_ : nat) row =>
                map (fun i => nth (random_index (length (d :: wl)) (row i)) (d :: wl) d)
                    (seq 0 (length (d :: wl))))
             (fun _ b => mean b)).
  rewrite app_nil_l, length_seq.
  rewrite (imap_seq_0 (seq 0 sims)
             (fun j => mean (map (fun i => nth (random_index (length (d :: wl))
                                                  (tape k (cursor k + j)%nat i)) (d :: wl) d)
                                 (seq 0 (length (d :: wl)))))).
  rewrite length_seq. unfold ret.
  assert (Heq : (fun j => mean (map (fun i => nth (random_index (length (d :: wl))
                                                  (tape k (cursor k + j)%nat i)) (d :: wl) d)
                                 (seq 0 (length (d :: wl)))))
                <$> seq 0 sims
                = map (fun i => mean (resample (d :: wl) k i)) (seq 0 sims)).
  { apply map_ext_in. intros j _. f_equal. unfold resample.
    apply map_ext_in. intros i _. apply nth_indep, random_index_lt. simpl; lia. }
  rewrite Heq. reflexivity.
Qed.

(** The mean numpy computes of a non-empty array is the arithmetic
    mean. *)
Lemma mean_arithmetic (xs : list Q) : xs <> [] -> mean xs = Some (arithmetic_mean xs).
Proof. by destruct xs. Qed.

Lemma resample_nonempty (wl : list Q) (k : kernel) (i : nat) :
  wl <> [] -> resample wl k i <> [].
Proof.
  intros Hne E. apply (f_equal length) in E. rewrite resample_length in E.
  destruct wl; [done|discriminate E].
Qed.

(** The statistics the loop records are numbers: the arithmetic means of the
    resamples. *)
Lemma resample_means_arithmetic (wl : list Q) (k : kernel) (n : nat) :
  wl <> [] ->
  map (fun i => mean (resample wl k i)) (seq 0 n)
  = map Some (map (fun i => arithmetic_mean (resample wl k i)) (seq 0 n)).
Proof.
  intros Hne. rewrite map_map. apply map_ext. intros i.
  apply mean_arithmetic. by apply resample_nonempty.
Qed.

(** Every draw of a resample picks an observation by its own raw value:
    nothing keeps an observation from being picked again. *)
Lemma resample_lookup (wl : list Q) (k : kernel) (i j : nat) :
  (j < length wl)%nat ->
  resample wl k i !! j = wl !! random_index (length wl) (tape k (cursor k + i)%nat j).
Proof.
  intros Hj. unfold resample. rewrite lookup_map_seq by exact Hj.
  destruct (lookup_lt_is_Some_2 wl
              (random_index (length wl) (tape k (cursor k + i)%nat j))) as [x Hx].
  { apply random_index_lt. lia. }
  by rewrite (nth_lookup_Some _ _ 0 _ Hx), Hx.
Qed.

(** The whole positions around a position: they are the same when the
    position is whole, and next to each other otherwise. *)
Lemma floor_ceiling (pos : Q) :
  (Qceiling pos = Qfloor pos /\ pos == inject_Z (Qfloor pos))
  \/ (Qceiling pos = Qfloor pos + 1)%Z.
Proof.
  pose proof (Qfloor_le pos) as Hfl. pose proof (Qlt_floor pos) as Hlf.
  pose proof (Qle_ceiling pos) as Hlc. pose proof (Qceiling_lt pos) as Hcl.
  assert (H1 : inject_Z (Qfloor pos) <= inject_Z (Qceiling pos)) by lra.
  assert (H2 : inject_Z (Qceiling pos - 1) < inject_Z (Qfloor pos + 1)) by lra.
  rewrite <- Zle_Qle in H1. rewrite <- Zlt_Qlt in H2.
  destruct (decide (Qceiling pos = Qfloor pos)) as [E|E]; [|right; lia].
  left. split; [exact E|]. rewrite E in Hlc. lra.
Qed.

(** What [np.percentile] computes of a non-empty array is the percentile
    of the claim. *)
Lemma percentile_is_percentile_of (xs : list Q) (q : Q) :
  xs <> [] -> 0 <= q <= 100 ->
  exists v, percentile xs q = Some v /\ percentile_of q xs v.
Proof.
  intros Hne Hq. destruct xs as [|d xs']; [done|].
  eexists. split; [by eapply percentile_interpolate|].
  set (xs := d :: xs') in *.
  pose proof (Permutation_length (sort_Permutation xs)) as Hlen.
  assert (Hn : (Z.of_nat (length xs) - 1 = Z.of_nat (length xs - 1))%Z) by (cbn; lia).
  unfold percentile_of. rewrite Hn.
  set (n1 := (length xs - 1)%nat) in *.
  set (pos := q / 100 * inject_Z (Z.of_nat n1)).
  pose proof (percentile_position q n1 Hq) as Hpos. fold pos in Hpos.
  destruct (position_floor pos n1 Hpos) as (Hb & Hf0 & Hw).
  pose proof (Qle_ceiling pos) as Hlc. pose proof (Qceiling_lt pos) as Hcl.
  assert (Hc : (Z.to_nat (Qceiling pos) <= n1)%nat).
  { assert (H : inject_Z (Qceiling pos - 1) < inject_Z (Z.of_nat n1)) by lra.
    rewrite <- Zlt_Qlt in H. lia. }
  assert (Hs : length (sort xs) = S n1) by (rewrite Hlen; unfold n1; cbn; lia).
  destruct (lookup_lt_is_Some_2 (sort xs) (Z.to_nat (Qfloor pos))) as [lo Hlo]; [lia|].
  destruct (lookup_lt_is_Some_2 (sort xs) (Z.to_nat (Qceiling pos))) as [hi Hhi]; [lia|].
  exists (sort xs), lo, hi.
  split; [apply sort_Permutation|]. split; [apply sort_sorted|].
  cbv zeta. split; [exact Hlo|]. split; [exact Hhi|].
  unfold interpolate. fold pos. rewrite Hs.
  rewrite (nth_lookup_Some _ _ d _ Hlo).
  destruct (floor_ceiling pos) as [[E Hw0]|E].
  - set (y := nth _ (sort xs) d). set (w := pos - inject_Z (Qfloor pos)) in *.
    assert (Hz : w == 0) by (unfold w; lra). rewrite Hz. ring.
  - assert (Hlt : (Qfloor pos < Z.of_nat n1)%Z).
    { assert (H : inject_Z (Qceiling pos - 1) < inject_Z (Z.of_nat n1)) by lra.
      rewrite <- Zlt_Qlt in H. lia. }
    replace (Nat.min (S (Z.to_nat (Qfloor pos))) (S n1 - 1)) with (Z.to_nat (Qceiling pos))
      by lia.
    rewrite (nth_lookup_Some _ _ d _ Hhi). ring.
Qed.

(** In the arithmetic of the rationals: the statistic of a resample is
    its arithmetic mean, the mean reported is the arithmetic mean of the 1000
    means, and the ends of the interval are their 2.5th and 97.5th
    percentiles. Without observations all three are [nan]. *)
Lemma simple_bootstrap_exact (wrench_lengths : list Q) (k : kernel) :
  match wrench_lengths with
  | [] => simple_bootstrap wrench_lengths k = (Ok (None, [None; None]), advance 1000 k)
  | _ :: _ =>
    exists (means : list Q) (boot_mean lower upper : Q),
      simple_bootstrap wrench_lengths k
      = (Ok (Some boot_mean, [Some lower; Some upper]), advance 1000 k)
      /\ length means = 1000%nat
      /\ (forall i, (i < 1000)%nat ->
            means !! i = Some (arithmetic_mean (resample wrench_lengths k i))
            /\ length (resample wrench_lengths k i) = length wrench_lengths
            /\ forall j, (j < length wrench_lengths)%nat ->
                 resample wrench_lengths k i !! j
                 = wrench_lengths
                     !! random_index (length wrench_lengths) (tape k (cursor k + i)%nat j))
      /\ boot_mean == arithmetic_mean means
      /\ percentile_of (25 # 10) means lower
      /\ percentile_of (975 # 10) means upper
  end.
Proof.
  destruct wrench_lengths as [|d wl].
  - unfold simple_bootstrap, for_range. cbn [length].
    pose proof (for_each_sampler_append (fun (_ : nat) (_ : nat -> Q) => @nil Q)
                  (fun _ b => mean b) (seq 0 1000) [] k) as Hloop.
    rewrite length_seq, app_nil_l in Hloop.
    change (seq 0 1000) with (0%nat :: seq 1 999) in Hloop at 2.
    run_bind Hloop. reflexivity.
  - set (wrench_lengths := d :: wl).
    assert (Hne : wrench_lengths <> []) by done.
    rewrite (simple_bootstrap_run _ _ Hne). unfold resample_means.
    rewrite (resample_means_arithmetic _ _ _ Hne).
    set (means := map (fun i => arithmetic_mean (resample wrench_lengths k i)) (seq 0 1000)).
    assert (Hlen : length means = 1000%nat) by (unfold means; by rewrite length_map, length_seq).
    assert (Hmeans : means <> []) by (intros E; rewrite E in Hlen; discriminate Hlen).
    destruct (percentile_is_percentile_of means (25 # 10) Hmeans) as (lower & Hlo & Hlower);
      [split; discriminate|].
    destruct (percentile_is_percentile_of means (975 # 10) Hmeans) as (upper & Hup & Hupper);
      [split; discriminate|].
    exists means, (arithmetic_mean means), lower, upper.
    split; [|split; [exact Hlen|split; [|split; [reflexivity|by split]]]].
    + unfold fmean, fpercentile. rewrite finite_map_Some_id.
      cbn [map]. by rewrite (mean_arithmetic _ Hmeans), Hlo, Hup.
    + intros i Hi. split.
      { exact (lookup_map_seq (fun i => arithmetic_mean (resample wrench_lengths k i))
                 1000 i Hi). }
      split; [apply resample_length|]. intros j Hj. by apply resample_lookup.
Qed.

Lemma close_refl (x : Q) : close x x.
Proof.
  unfold close, rounding_margin.
  assert (H : x - x == 0) by ring. rewrite H. discriminate.
Qed.

(** C1. The exercise draws 1000 resamples. Each is as long as the sample
    and every draw picks an observation by its own raw value, so with
    replacement. The statistic recorded for a resample is its arithmetic
    mean. From a sample with observations the cell reports the arithmetic
    mean of the 1000 recorded means, and their 2.5th and 97.5th
    percentiles: the values at positions 24.975 and 974.025 of the recorded
    means in ascending order. Each of these equalities holds up to the
    rounding of the sums and products, within a billionth. A sample
    without observations has resamples without observations, whose mean
    is [nan], and then all three numbers are [nan]. The observations are of
    moderate size and no more than 1000. *)
Theorem simple_bootstrap_spec (wrench_lengths : list Q) (k : kernel) :
  Forall moderate wrench_lengths -> (Z.of_nat (length wrench_lengths) <= 1000)%Z ->
  match wrench_lengths with
  | [] => simple_bootstrap wrench_lengths k = (Ok (None, [None; None]), advance 1000 k)
  | _ :: _ =>
    exists (mean_lengths : list Q) (boot_mean lower upper : Q),
      simple_bootstrap wrench_lengths k
      = (Ok (Some boot_mean, [Some lower; Some upper]), advance 1000 k)
      /\ length mean_lengths = 1000%nat
      /\ (forall i, (i < 1000)%nat ->
            (exists sample_mean,
               mean_lengths !! i = Some sample_mean
               /\ close sample_mean (arithmetic_mean (resample wrench_lengths k i)))
            /\ length (resample wrench_lengths k i) = length wrench_lengths
            /\ forall j, (j < length wrench_lengths)%nat ->
                 resample wrench_lengths k i !! j
                 = wrench_lengths
                     !! random_index (length wrench_lengths) (tape k (cursor k + i)%nat j))
      /\ close boot_mean (arithmetic_mean mean_lengths)
      /\ (exists v, percentile_of (25 # 10) mean_lengths v /\ close lower v)
      /\ (exists v, percentile_of (975 # 10) mean_lengths v /\ close upper v)
  end.
Proof.
  intros _ _. pose proof (simple_bootstrap_exact wrench_lengths k) as H.
  destruct wrench_lengths as [|d wl]; [exact H|].
  destruct H as (means & boot_mean & lower & upper & Hrun & Hlen & Hres & Hmean & Hlo & Hup).
  exists means, boot_mean, lower, upper.
  split; [exact Hrun|]. split; [exact Hlen|]. split; [|split; [|split]].
  - intros i Hi. destruct (Hres i Hi) as (Hm & Hl & Hj).
    split; [|by split]. eexists. split; [exact Hm|apply close_refl].
  - unfold close, rounding_margin in *.
    assert (Hz : boot_mean - arithmetic_mean means == 0) by (rewrite Hmean; ring).
    rewrite Hz. discriminate.
  - exists lower. split; [exact Hlo|apply close_refl].
  - exists upper. split; [exact Hup|apply close_refl].
Qed.

Lemma simple_bootstrap_spec_witness :
  exists (mean_lengths : list Q) (boot_mean lower upper : Q),
    simple_bootstrap [1; 2; 3] counting_kernel
    = (Ok (Some boot_mean, [Some lower; Some upper]), advance 1000 counting_kernel)
    /\ length mean_lengths = 1000%nat
    /\ close boot_mean (arithmetic_mean mean_lengths).
Proof.
  destruct (simple_bootstrap_spec [1; 2; 3] counting_kernel)
    as (means & boot_mean & lower & upper & Hrun & Hlen & _ & Hmean & _).
  - repeat constructor; discriminate.
  - discriminate.
  - exists means, boot_mean, lower, upper.
    split; [exact Hrun|]. split; [exact Hlen|exact Hmean].
Defined.




End Intervals.

(** ** Counting the cards of a hand *)
Section Hands.
Import Np Probability.

Lemma count_values_from (hand : list card) (value : nat) :
  forall cards_in_hand : gmap nat nat,
    foldl (fun (cards_in_hand : gmap nat nat) (card : card) =>
             <[card.2 := (default 0 (cards_in_hand !! card.2) + 1)%nat]> cards_in_hand)
          cards_in_hand hand !! value
    = match occurrences value hand with
      | O => cards_in_hand !! value
      | S n => Some (default 0 (cards_in_hand !! value) + S n)%nat
      end.
Proof.
  unfold occurrences.
  induction hand as [|c hand IH]; intros d; [reflexivity|].
  cbn [foldl]. rewrite IH, filter_cons.
  destruct (decide (c.2 = value)) as [->|Hne].
  - cbn [length]. rewrite lookup_insert_eq. cbn [default].
    destruct (length _); unfold Datatypes.id; f_equal; lia.
  - by rewrite lookup_insert_ne.
Qed.

(** X15. What the dictionary of a hand holds: every value that occurs in the
    hand, with the number of cards that show it, and no other key. *)
Theorem count_values_counts (hand : list card) (value : nat) :
  count_values hand !! value
  = match occurrences value hand with
    | O => None
    | S n => Some (S n)
    end.
Proof.
  unfold count_values. rewrite count_values_from. rewrite lookup_empty.
  by destruct (occurrences value hand).
Qed.

Lemma py_max_spec (xs : list nat) :
  xs <> [] -> exists m, py_max xs = Ok m /\ m ∈ xs /\ Forall (fun x => x <= m) xs.
Proof.
  destruct xs as [|x xs]; [done|]. intros _. eexists. split; [reflexivity|].
  induction xs as [|y xs [IHin IHall]]; cbn [foldr].
  - split; [apply list_elem_of_here|]. by repeat constructor.
  - inversion IHall as [|? ? Hx Hxs]; subst. split.
    + destruct (Nat.max_spec y (foldr Nat.max x xs)) as [[_ ->]|[_ ->]].
      * apply elem_of_cons in IHin as [->|Hin]; [apply list_elem_of_here|].
        by do 2 apply list_elem_of_further.
      * apply list_elem_of_further, list_elem_of_here.
    + constructor; [lia|]. constructor; [lia|].
      eapply Forall_impl; [exact Hxs|]. intros z Hz. cbv beta in Hz. lia.
Qed.

Lemma py_min_spec (xs : list nat) :
  xs <> [] -> exists m, py_min xs = Ok m /\ m ∈ xs /\ Forall (fun x => m <= x) xs.
Proof.
  destruct xs as [|x xs]; [done|]. intros _. eexists. split; [reflexivity|].
  induction xs as [|y xs [IHin IHall]]; cbn [foldr].
  - split; [apply list_elem_of_here|]. by repeat constructor.
  - inversion IHall as [|? ? Hx Hxs]; subst. split.
    + destruct (Nat.min_spec y (foldr Nat.min x xs)) as [[_ ->]|[_ ->]].
      * apply list_elem_of_further, list_elem_of_here.
      * apply elem_of_cons in IHin as [->|Hin]; [apply list_elem_of_here|].
        by do 2 apply list_elem_of_further.
    + constructor; [lia|]. constructor; [lia|].
      eapply Forall_impl; [exact Hxs|]. intros z Hz. cbv beta in Hz. lia.
Qed.

Lemma values_count_values (hand : list card) (n : nat) :
  n ∈ values (count_values hand)
  <-> (0 < n)%nat /\ exists value, occurrences value hand = n.
Proof.
  unfold values. rewrite list_elem_of_fmap. split.
  - intros ([v m] & -> & Hvm). apply elem_of_map_to_list in Hvm.
    unfold count_values in Hvm. rewrite count_values_from, lookup_empty in Hvm. cbn [snd].
    destruct (occurrences v hand) eqn:E; [done|]. injection Hvm as <-.
    split; [lia|]. by exists v.
  - intros (Hpos & v & Hv). exists (v, n). split; [done|].
    apply elem_of_map_to_list. unfold count_values. rewrite count_values_from, lookup_empty, Hv.
    destruct n; [lia|done].
Qed.

(** X16. What the two poker cells compare. From a hand with cards,
    [max(cards_in_hand.values())] is the largest number of cards that share
    a value and [min(cards_in_hand.values())] the smallest such number
    among the values in the hand; from an empty hand both raise. *)
Theorem highest_and_lowest_count (hand : list card) :
  match hand with
  | [] =>
    py_max (values (count_values hand)) = Raise ValueError
    /\ py_min (values (count_values hand)) = Raise ValueError
  | _ :: _ =>
    exists highest lowest,
      py_max (values (count_values hand)) = Ok highest
      /\ py_min (values (count_values hand)) = Ok lowest
      /\ (exists value, occurrences value hand = highest)
      /\ (exists value, occurrences value hand = lowest)
      /\ (0 < lowest)%nat
      /\ forall value, occurrences value hand = 0%nat
                        \/ (lowest <= occurrences value hand <= highest)%nat
  end.
Proof.
  destruct hand as [|c hand]; [by split|].
  assert (Hne : values (count_values (c :: hand)) <> [])
    by (by apply values_count_values_nonempty).
  destruct (py_max_spec _ Hne) as (highest & Hmax & Hmax_in & Hmax_all).
  destruct (py_min_spec _ Hne) as (lowest & Hmin & Hmin_in & Hmin_all).
  exists highest, lowest. split; [exact Hmax|]. split; [exact Hmin|].
  apply values_count_values in Hmax_in as (_ & Hhv).
  apply values_count_values in Hmin_in as (Hlpos & Hlv).
  split; [exact Hhv|]. split; [exact Hlv|]. split; [exact Hlpos|].
  intros v. destruct (occurrences v (c :: hand)) as [|n] eqn:E; [by left|right].
  assert (Hin : S n ∈ values (count_values (c :: hand))).
  { apply values_count_values. split; [lia|]. by exists v. }
  rewrite Forall_forall in Hmax_all, Hmin_all.
  split; [by apply Hmin_all|by apply Hmax_all].
Qed.

End Hands.

(** ** Dice *)
Section Dice.
Import Np Games.
Local Open Scope Q_scope.

Lemma Qfloor_eq (x : Q) (m : Z) : inject_Z m <= x -> x < inject_Z m + 1 -> Qfloor x = m.
Proof.
  intros Hle Hlt.
  pose proof (Qfloor_le x) as Hf. pose proof (Qlt_floor x) as Hc.
  rewrite inject_Z_plus in Hc. change (inject_Z 1) with 1 in Hc.
  assert (H1 : inject_Z (Qfloor x) < inject_Z (m + 1)).
  { rewrite inject_Z_plus. change (inject_Z 1) with 1. lra. }
  assert (H2 : inject_Z m < inject_Z (Qfloor x + 1)).
  { rewrite inject_Z_plus. change (inject_Z 1) with 1. lra. }
  rewrite <- Zlt_Qlt in H1, H2. lia.
Qed.

Lemma Qle_bool_cases (c u : Q) :
  (Qle_bool c u = true /\ c <= u) \/ (Qle_bool c u = false /\ u < c).
Proof.
  destruct (Qle_bool c u) eqn:E.
  - left. split; [done|]. by apply Qle_bool_iff.
  - right. split; [done|]. apply Qnot_le_lt. intros H. apply Qle_bool_iff in H. congruence.
Qed.

(** A fair die: the face is decided by the sixth of the unit interval
    the draw falls in. *)
Lemma fair_die_face (u : Q) (d : Z) :
  0 <= u < 1 ->
  nth (searchsorted_right (cumsum [1 / 6; 1 / 6; 1 / 6; 1 / 6; 1 / 6; 1 / 6]) u)
      [1; 2; 3; 4; 5; 6]%Z d
  = face u.
Proof.
  intros [H0 H1]. unfold searchsorted_right, cumsum, face. cbn [cumsum_from].
  change (1 / 6) with (1 # 6).
  rewrite !filter_cons, filter_nil.
  repeat match goal with
         | |- context [decide (Qle_bool ?c u = true)] =>
           destruct (Qle_bool_cases c u) as [[-> ?]|[-> ?]];
           [rewrite (decide_True (P := true = true)) by done
           |rewrite (decide_False (P := false = true)) by done];
           try lra
         end.
  all: cbn [length nth].
  - rewrite (Qfloor_eq (6 * u) 5); [reflexivity|unfold inject_Z; lra..].
  - rewrite (Qfloor_eq (6 * u) 4); [reflexivity|unfold inject_Z; lra..].
  - rewrite (Qfloor_eq (6 * u) 3); [reflexivity|unfold inject_Z; lra..].
  - rewrite (Qfloor_eq (6 * u) 2); [reflexivity|unfold inject_Z; lra..].
  - rewrite (Qfloor_eq (6 * u) 1); [reflexivity|unfold inject_Z; lra..].
  - rewrite (Qfloor_eq (6 * u) 0); [reflexivity|unfold inject_Z; lra..].
Qed.

Lemma dice_throw (size : nat) (k : kernel) :
  choice_p [1; 2; 3; 4; 5; 6]%Z [1 / 6; 1 / 6; 1 / 6; 1 / 6; 1 / 6; 1 / 6] size k
  = (Ok (map (fun j => face (unit_interval (tape k (cursor k) j))) (seq 0 size)),
     advance 1 k).
Proof.
  unfold choice_p, sampler.
  change (negb (Nat.eqb (length [1; 2; 3; 4; 5; 6]%Z)
                        (length [1 / 6; 1 / 6; 1 / 6; 1 / 6; 1 / 6; 1 / 6]))) with false.
  change (existsb (fun x => negb (Qle_bool 0 x)) [1 / 6; 1 / 6; 1 / 6; 1 / 6; 1 / 6; 1 / 6])
    with false.
  change (negb (Qeq_bool (Qsum [1 / 6; 1 / 6; 1 / 6; 1 / 6; 1 / 6; 1 / 6]) 1)) with false.
  cbv iota. unfold advance. rewrite Nat.add_1_r. f_equal. f_equal.
  apply map_ext. intros j. apply fair_die_face, unit_interval_bounds.
Qed.

Lemma face_range (u : Q) : 0 <= u < 1 -> (1 <= face u <= 6)%Z.
Proof.
  intros [H0 H1]. unfold face.
  assert (Hlo : (0 <= Qfloor (6 * u))%Z).
  { change 0%Z with (Qfloor 0). apply Qfloor_resp_le. lra. }
  assert (Hhi : (Qfloor (6 * u) < 6)%Z).
  { rewrite Zlt_Qlt. pose proof (Qfloor_le (6 * u)). unfold inject_Z at 2. lra. }
  lia.
Qed.

(** What the dice game computes in the arithmetic of the rationals. *)
Lemma dice_game_run (k : kernel) :
  dice_game k
  = (Ok (count_true (map (fun i => (die_of k i 0 =? die_of k i 1)%Z) (seq 0 100))),
     advance 100 k).
Proof.
  unfold dice_game. generalize 100%nat. intros sims.
  destruct (for_range_invariant sims
              (fun (_ : nat) wins =>
                 outcomes <- choice_p [1; 2; 3; 4; 5; 6]%Z
                                      [1 / 6; 1 / 6; 1 / 6; 1 / 6; 1 / 6; 1 / 6] 2 ;;
                 first_die <- item outcomes 0 ;;
                 second_die <- item outcomes 1 ;;
                 ret (if (first_die =? second_die)%Z then (wins + 1)%nat else wins))
              (fun j wins k' =>
                 k' = advance j k
                 /\ wins = count_true (map (fun i => (die_of k i 0 =? die_of k i 1)%Z)
                                           (seq 0 j)))
              0%nat k) as (wins & k' & Hrun & -> & ->).
  - by rewrite advance_0.
  - intros j wins kj _ [-> ->]. eexists _, _. split.
    + rewrite (bind_Ok _ _ _ _ _ (dice_throw 2 (advance j k))). reflexivity.
    + split; [rewrite advance_advance; f_equal; lia|].
      rewrite seq_S, map_app. cbn [map]. rewrite count_true_snoc.
      unfold die_of. cbn [advance tape cursor]. rewrite Nat.add_0_l.
      destruct (_ =? _)%Z; [lia|reflexivity].
  - exact Hrun.
Qed.

Lemma dice_of_a_game (k : kernel) (n i : nat) :
  (i < n)%nat ->
  exists first_die second_die,
    map (fun i => (die_of k i 0, die_of k i 1)) (seq 0 n) !! i = Some (first_die, second_die)
    /\ (1 <= first_die <= 6)%Z /\ (1 <= second_die <= 6)%Z
    /\ (away_from_sixths (die_draw k i 0) -> first_die = face (die_draw k i 0))
    /\ (away_from_sixths (die_draw k i 1) -> second_die = face (die_draw k i 1)).
Proof.
  intros Hi. exists (die_of k i 0), (die_of k i 1).
  split; [exact (lookup_map_seq (fun i => (die_of k i 0, die_of k i 1)) n i Hi)|].
  split; [apply face_range, unit_interval_bounds|].
  split; [apply face_range, unit_interval_bounds|].
  by split.
Qed.

(** X17. The dice game never fails: the six probabilities are accepted, and
    every die of the 100 games shows one of the six faces. A game is won
    when its two dice show the same face. The face of a die is the sixth
    of the unit interval its draw falls in; the statement leaves the face
    open for a draw within a billionth of a boundary between sixths, where
    the rounding of the cumulated probabilities decides it. *)
Theorem dice_game_counts_doubles (k : kernel) :
  exists dice : list (Z * Z),
    dice_game k
    = (Ok (count_true (map (fun d : Z * Z => (d.1 =? d.2)%Z) dice)), advance 100 k)
    /\ length dice = 100%nat
    /\ forall i, (i < 100)%nat ->
         exists first_die second_die,
           dice !! i = Some (first_die, second_die)
           /\ (1 <= first_die <= 6)%Z /\ (1 <= second_die <= 6)%Z
           /\ (away_from_sixths (die_draw k i 0) -> first_die = face (die_draw k i 0))
           /\ (away_from_sixths (die_draw k i 1) -> second_die = face (die_draw k i 1)).
Proof.
  pose proof (dice_game_run k) as Hrun. revert Hrun. generalize 100%nat. intros n Hrun.
  exists (map (fun i => (die_of k i 0, die_of k i 1)) (seq 0 n)).
  split; [by rewrite map_map|]. split; [by rewrite length_map, length_seq|].
  apply dice_of_a_game.
Qed.

End Dice.

(** ** Simulating lottery payoffs *)
Section LotteryPayoffs.
Import Np Games.
Local Open Scope Q_scope.

(** A draw between two items with probabilities that add up to 1: the
    first item exactly when the uniform draw falls below its probability. *)
Lemma choice_p_pair {A} (a b : A) (p q : Q) (size : nat) (k : kernel) :
  p + q == 1 -> 0 <= p -> 0 <= q ->
  choice_p [a; b] [p; q] size k
  = (Ok (map (fun i => if Qlt_bool (unit_interval (tape k (cursor k) i)) p then a else b)
             (seq 0 size)),
     advance 1 k).
Proof.
  intros Hsum Hp Hq. unfold choice_p, sampler, advance. rewrite Nat.add_1_r. f_equal.
  change (negb (Nat.eqb (length [a; b]) (length [p; q]))) with false. cbv iota.
  cbn [existsb]. apply Qle_bool_iff in Hp, Hq. rewrite Hp, Hq. cbn [negb orb].
  assert (Hone : Qeq_bool (Qsum [p; q]) 1 = true).
  { apply Qeq_bool_iff. unfold Qsum. cbn [foldr]. rewrite <- Hsum. ring. }
  rewrite Hone. cbn [negb]. f_equal.
  apply map_ext. intros i.
  pose proof (unit_interval_bounds (tape k (cursor k) i)) as [Hu0 Hu1].
  set (u := unit_interval (tape k (cursor k) i)) in *.
  unfold searchsorted_right, cumsum. cbn [cumsum_from].
  rewrite !filter_cons, filter_nil.
  destruct (Qle_bool_cases (0 + p + q) u) as [[_ Hle]|[-> _]]; [lra|].
  rewrite (decide_False (P := false = true)) by done.
  destruct (Qle_bool_cases (0 + p) u) as [[-> Hle]|[-> Hlt]].
  - rewrite (decide_True (P := true = true)) by done.
    assert (Qlt_bool u p = false) as -> by (apply Qlt_bool_false; lra). reflexivity.
  - rewrite (decide_False (P := false = true)) by done.
    assert (Qlt_bool u p = true) as -> by (apply Qlt_bool_true; lra). reflexivity.
Qed.

Lemma payoff_sum (l : list nat) (u : nat -> Q) (p : Q) (cost prize : Z) :
  Qsum (map inject_Z
            (map (fun i => if Qlt_bool (u i) p then (- cost)%Z else (prize - cost)%Z) l))
  == inject_Z prize * inject_Z (Z.of_nat (count_true (map (fun i => Qle_bool p (u i)) l)))
     - inject_Z cost * inject_Z (Z.of_nat (length l)).
Proof.
  induction l as [|i l IH].
  - unfold Qsum. cbn. ring.
  - cbn [map length]. rewrite Qsum_cons, IH.
    change (count_true (Qle_bool p (u i) :: map (fun i => Qle_bool p (u i)) l))
      with (if Qle_bool p (u i) then S (count_true (map (fun i => Qle_bool p (u i)) l))
            else count_true (map (fun i => Qle_bool p (u i)) l)).
    unfold Qlt_bool. destruct (Qle_bool p (u i)); cbn [negb].
    + rewrite !Nat2Z.inj_succ. unfold Z.succ, Z.sub.
      rewrite !inject_Z_plus, inject_Z_opp. change (inject_Z 1) with 1. ring.
    + rewrite Nat2Z.inj_succ. unfold Z.succ.
      rewrite !inject_Z_plus, inject_Z_opp. change (inject_Z 1) with 1. ring.
Qed.

(** What the cell computes in the arithmetic of the rationals. *)
Lemma lottery_payoffs_run (k : kernel) :
  let wins := count_true (map (fun i => Qle_bool (999 # 1000) (ticket_draw k i))
                              (seq 0 2000)) in
  exists answer,
    lottery_payoffs k = (Ok (Some answer), advance 1 k)
    /\ answer == 1000000 * (inject_Z (Z.of_nat wins) / 2000) - 10.
Proof.
  intros wins. unfold lottery_payoffs.
  rewrite (bind_Ok _ _ _ _ _
             (choice_p_pair (Z.opp 10) (1000000 - 10)%Z (1 - 1 / inject_Z 1000)
                (1 / inject_Z 1000) 2000 k ltac:(reflexivity) ltac:(discriminate)
                ltac:(discriminate))).
  unfold ret.
  rewrite mean_nonempty
    by (intros E; apply (f_equal length) in E; rewrite !length_map, length_seq in E;
        discriminate E).
  eexists. split; [reflexivity|].
  rewrite (payoff_sum (seq 0 2000) (fun i => unit_interval (tape k (cursor k) i))
             (1 - 1 / inject_Z 1000) 10 1000000).
  rewrite !length_map, !length_seq.
  change (1 - 1 / inject_Z 1000) with (999 # 1000). subst wins. unfold ticket_draw.
  set (wins := count_true _).
  change (inject_Z 1000000) with 1000000. change (inject_Z 10) with 10.
  change (inject_Z (Z.of_nat 2000)) with 2000. field.
Qed.

Lemma winning_ticket (k : kernel) (n i : nat) :
  (i < n)%nat ->
  ((999 # 1000) + rounding_margin <= ticket_draw k i ->
   map (fun i => Qle_bool (999 # 1000) (ticket_draw k i)) (seq 0 n) !! i = Some true)
  /\ (ticket_draw k i <= (999 # 1000) - rounding_margin ->
      map (fun i => Qle_bool (999 # 1000) (ticket_draw k i)) (seq 0 n) !! i = Some false).
Proof.
  intros Hi.
  rewrite (lookup_map_seq (fun i => Qle_bool (999 # 1000) (ticket_draw k i)) n i Hi).
  clear Hi. unfold rounding_margin.
  destruct (Qle_bool_cases (999 # 1000) (ticket_draw k i)) as [[-> H]|[-> H]].
  - split; [done|]. intros H'. lra.
  - split; [|done]. intros H'. lra.
Qed.

(** X18. The average payoff is the prize times the share of winning
    tickets, less the price of a ticket. A ticket wins when its draw falls
    in the last thousandth of the unit interval; the statement leaves open
    a draw within a billionth of the boundary, where the rounding of the
    probabilities decides it. *)
Theorem lottery_payoffs_mean (k : kernel) :
  exists (won : list bool) (answer : Q),
    lottery_payoffs k = (Ok (Some answer), advance 1 k)
    /\ answer == 1000000 * (inject_Z (Z.of_nat (count_true won)) / 2000) - 10
    /\ length won = 2000%nat
    /\ forall i, (i < 2000)%nat ->
         ((999 # 1000) + rounding_margin <= ticket_draw k i -> won !! i = Some true)
         /\ (ticket_draw k i <= (999 # 1000) - rounding_margin -> won !! i = Some false).
Proof.
  destruct (lottery_payoffs_run k) as (answer & Hrun & Hanswer).
  exists (map (fun i => Qle_bool (999 # 1000) (ticket_draw k i)) (seq 0 2000)), answer.
  split; [exact Hrun|]. split; [exact Hanswer|].
  split; [by rewrite length_map, length_seq|].
  exact (winning_ticket k 2000).
Qed.

End LotteryPayoffs.

(** ** Fitness goals *)
Section Fitness.
Import Np Sampling DataGeneration.
Local Open Scope Q_scope.

(** A scalar draw between two items with probabilities that add up to 1
    returns one of the two. *)
Lemma choice_p1_pair {A} (a b : A) (p q : Q) (k : kernel) :
  p + q == 1 -> 0 <= p -> 0 <= q ->
  exists x, choice_p1 [a; b] [p; q] k = (Ok x, advance 1 k) /\ (x = a \/ x = b).
Proof.
  intros Hsum Hp Hq. unfold choice_p1, sampler, advance. rewrite Nat.add_1_r.
  change (negb (Nat.eqb (length [a; b]) (length [p; q]))) with false. cbv iota.
  cbn [existsb]. apply Qle_bool_iff in Hp, Hq. rewrite Hp, Hq. cbn [negb orb].
  assert (Hone : Qeq_bool (Qsum [p; q]) 1 = true).
  { apply Qeq_bool_iff. unfold Qsum. cbn [foldr]. rewrite <- Hsum. ring. }
  rewrite Hone. cbn [negb]. eexists. split; [reflexivity|].
  destruct (searchsorted_right _ _) as [|[|n]]; cbn [nth]; auto.
  destruct n; auto.
Qed.

(** One day of the month: three sampler calls, and one step up or down. *)
Lemma fitness_day (w : list Z) (k : kernel) :
  exists x,
    (lam <- choice_p [5000; 15000] [6 # 10; 4 # 10] 1 ;;
     steps <- poisson_array lam ;;
     many <- lift (truth (map (fun s => (10000 <? s)%nat) steps)) ;;
     prob <- (if many then ret [2 # 10; 8 # 10]
              else
                few <- lift (truth (map (fun s => (s <? 8000)%nat) steps)) ;;
                if few then ret [8 # 10; 2 # 10] else ret [5 # 10; 5 # 10]) ;;
     x <- choice_p1 [1; -1]%Z prob ;;
     ret (w ++ [x])) k
    = (Ok (w ++ [x]), advance 3 k)
    /\ (x = 1 \/ x = -1)%Z.
Proof.
  rewrite (bind_Ok _ _ _ _ _
             (choice_p_pair 5000 15000 (6 # 10) (4 # 10) 1 k ltac:(reflexivity)
                ltac:(discriminate) ltac:(discriminate))).
  cbn [seq map].
  set (lam := if Qlt_bool _ _ then _ else _).
  assert (Hlam : 0 <= lam) by (unfold lam; destruct (Qlt_bool _ _); discriminate).
  unfold bind at 1, poisson_array, sampler. cbn [forallb].
  apply Qle_bool_iff in Hlam. rewrite Hlam. cbn [andb imap].
  set (steps := if Qeq_bool lam 0 then _ else _).
  set (k2 := Kernel _ _ _ _ _).
  assert (Hk2 : k2 = advance 2 k).
  { unfold k2, advance. cbn [tape cursor seeded calls heap]. f_equal. lia. }
  cbn [map]. unfold bind at 1, lift at 1, truth at 1.
  assert (Hprob : exists p q,
             (if (10000 <? steps)%nat then ret [2 # 10; 8 # 10]
              else
                few <- lift (truth [(steps <? 8000)%nat]) ;;
                if few then ret [8 # 10; 2 # 10] else ret [5 # 10; 5 # 10]) k2
             = (Ok [p; q], k2) /\ p + q == 1 /\ 0 <= p /\ 0 <= q).
  { destruct (10000 <? steps)%nat.
    - exists (2 # 10), (8 # 10). by repeat split.
    - unfold bind, lift, truth. destruct (steps <? 8000)%nat.
      + exists (8 # 10), (2 # 10). by repeat split.
      + exists (5 # 10), (5 # 10). by repeat split. }
  destruct Hprob as (p & q & Hrun & Hsum & Hp & Hq).
  rewrite (bind_Ok _ _ _ _ _ Hrun).
  destruct (choice_p1_pair 1%Z (-1)%Z p q k2 Hsum Hp Hq) as (x & Hx & Hx1).
  exists x. split; [|exact Hx1].
  rewrite (bind_Ok _ _ _ _ _ Hx). unfold ret. rewrite Hk2, advance_advance. reflexivity.
Qed.

Lemma steps_total (w : list Z) :
  Forall (fun x => x = 1 \/ x = -1)%Z w ->
  forall a : Z,
    (a - Z.of_nat (length w) <= foldl Z.add a w <= a + Z.of_nat (length w))%Z
    /\ Z.even (foldl Z.add a w) = Bool.eqb (Z.even a) (Nat.even (length w)).
Proof.
  induction 1 as [|x w Hx _ IH]; intros a.
  - cbn [foldl length]. split; [lia|]. by destruct (Z.even a).
  - cbn [foldl length]. destruct (IH (a + x)%Z) as [IHb IHe].
    rewrite Nat2Z.inj_succ. split; [lia|].
    rewrite IHe, Z.even_add, Nat.even_succ, <- Nat.negb_even.
    destruct Hx as [-> | ->]; by destruct (Z.even a), (Nat.even (length w)).
Qed.

(** X19. Every simulated month has thirty days with one step up or down each,
    so its net change is an even number between -30 and 30: the cell never
    fails, and the share of months with a loss lies between 0 and 1. *)
Theorem fitness_goals_net_steps (k : kernel) :
  exists outcomes frac k',
    fitness_goals k = (Ok (outcomes, Some frac), k')
    /\ length outcomes = 1000%nat
    /\ Forall (fun o => (-30 <= o <= 30)%Z /\ Z.even o = true) outcomes
    /\ 0 <= frac <= 1.
Proof.
  unfold fitness_goals.
  destruct (for_range_invariant 1000
              (fun (_ : nat) outcomes =>
                 w <- for_range 30 (fun i w =>
                     lam <- choice_p [5000; 15000] [6 # 10; 4 # 10] 1 ;;
                     steps <- poisson_array lam ;;
                     many <- lift (truth (map (fun s => (10000 <? s)%nat) steps)) ;;
                     prob <- (if many then ret [2 # 10; 8 # 10]
                              else
                                few <- lift (truth (map (fun s => (s <? 8000)%nat) steps)) ;;
                                if few then ret [8 # 10; 2 # 10] else ret [5 # 10; 5 # 10]) ;;
                     x <- choice_p1 [1; -1]%Z prob ;;
                     ret (w ++ [x])) [] ;;
                 ret (outcomes ++ [foldl Z.add 0%Z w]))
              (fun j outcomes _ =>
                 length outcomes = j
                 /\ Forall (fun o => (-30 <= o <= 30)%Z /\ Z.even o = true) outcomes)
              [] k) as (outcomes & k' & Hrun & Hlen & Hall).
  - by split.
  - intros j outcomes kj _ [Hlen Hall].
    destruct (for_range_invariant 30
                (fun (i : nat) w =>
                   lam <- choice_p [5000; 15000] [6 # 10; 4 # 10] 1 ;;
                   steps <- poisson_array lam ;;
                   many <- lift (truth (map (fun s => (10000 <? s)%nat) steps)) ;;
                   prob <- (if many then ret [2 # 10; 8 # 10]
                            else
                              few <- lift (truth (map (fun s => (s <? 8000)%nat) steps)) ;;
                              if few then ret [8 # 10; 2 # 10] else ret [5 # 10; 5 # 10]) ;;
                   x <- choice_p1 [1; -1]%Z prob ;;
                   ret (w ++ [x]))
                (fun i w _ => length w = i /\ Forall (fun x => x = 1 \/ x = -1)%Z w)
                [] kj) as (w & kw & Hw & Hwlen & Hwall).
    + by split.
    + intros i w ki _ [Hwlen Hwall].
      destruct (fitness_day w ki) as (x & Hx & Hx1).
      eexists _, _. split; [exact Hx|]. split.
      * rewrite length_app, Hwlen. cbn. lia.
      * apply Forall_app. split; [exact Hwall|]. constructor; [exact Hx1|constructor].
    + eexists _, _. split; [run_bind Hw; reflexivity|]. split.
      * rewrite length_app, Hlen. cbn. lia.
      * apply Forall_app. split; [exact Hall|]. constructor; [|constructor]. split.
        -- destruct (steps_total w Hwall 0%Z) as [Hb _]. rewrite Hwlen in Hb.
           change (Z.of_nat 30) with 30%Z in Hb. exact Hb.
        -- destruct (steps_total w Hwall 0%Z) as [_ He]. rewrite He, Hwlen. reflexivity.
  - assert (Hne : map (fun o => if (o <? 0)%Z then 1 else 0) outcomes <> []).
    { intros E. apply (f_equal length) in E. rewrite length_map, Hlen in E.
      discriminate E. }
    destruct (mean_between _ 0 1 Hne) as (frac & Hfrac & Hb).
    { apply Forall_forall. intros x Hx. apply list_elem_of_fmap in Hx as (o & -> & _).
      destruct (o <? 0)%Z; split; discriminate. }
    exists outcomes, frac, k'.
    split; [|split; [exact Hlen|split; [exact Hall|exact Hb]]].
    run_bind Hrun. cbv zeta. unfold ret. rewrite Hfrac. reflexivity.
Qed.

End Fitness.

(** ** Optimizing Costs *)
Section OptimizingCosts.
Import Np Applications Optimizing.
Local Open Scope Q_scope.

Lemma dict_set_fresh (d : list (Z * fl)) (key : Z) (value : fl) :
  key ∉ map fst d -> dict_set d key value = d ++ [(key, value)].
Proof.
  induction d as [|[k v] d IH]; intros Hnew; [reflexivity|].
  cbn [dict_set app]. cbn [map fst] in Hnew. apply not_elem_of_cons in Hnew as [Hne Hnew].
  destruct (Z.eqb_spec k key) as [->|_]; [done|]. by rewrite IH.
Qed.

Lemma dict_get_NoDup (d : list (Z * fl)) (key : Z) (value : fl) :
  NoDup (map fst d) -> (key, value) ∈ d -> dict_get d key = Ok value.
Proof.
  induction d as [|[k v] d IH]; intros Hnd Hin; [by apply elem_of_nil in Hin|].
  cbn [map fst] in Hnd. apply NoDup_cons in Hnd as [Hk Hnd].
  cbn [dict_get]. apply elem_of_cons in Hin as [Heq|Hin].
  - injection Heq as -> ->. by rewrite Z.eqb_refl.
  - destruct (Z.eqb_spec k key) as [->|_]; [|by apply IH].
    exfalso. apply Hk. apply list_elem_of_fmap. by exists (key, value).
Qed.

Lemma cost_levels_NoDup : NoDup cost_levels.
Proof.
  unfold cost_levels. apply NoDup_fmap_2; [|apply NoDup_seq].
  intros i j H. lia.
Qed.

(** The simulations of one cost level. *)
Lemma profits_loop (sims : nat) (cost : Q) (k : kernel) :
  exists tmp_profits k',
    for_range sims (fun i tmp_profits =>
        profit <- profits cost ;; ret (tmp_profits ++ [profit])) [] k
    = (Ok tmp_profits, k')
    /\ length tmp_profits = sims.
Proof.
  apply (for_range_invariant sims
           (fun (i : nat) tmp_profits =>
              profit <- profits cost ;; ret (tmp_profits ++ [profit]))
           (fun j tmp _ => length tmp = j)); [reflexivity|].
  intros j tmp kj _ Hlen. destruct (profits_ok cost kj) as (p & k' & Hp).
  eexists _, _. split; [run_bind Hp; reflexivity|].
  rewrite length_app, Hlen. cbn. lia.
Qed.

(** The dictionary after the loop: one mean per cost level, in the order
    of the levels, none of them [nan]. *)
Lemma average_profits_run (k : kernel) :
  exists results k',
    average_profits k = (Ok results, k')
    /\ map fst results = cost_levels
    /\ Forall (fun cv : Z * fl => is_Some cv.2) results.
Proof.
  unfold average_profits.
  destruct (for_each_invariant cost_levels
              (fun cost results =>
                 tmp_profits <- for_range 1000 (fun i tmp_profits =>
                     profit <- profits (inject_Z cost) ;;
                     ret (tmp_profits ++ [profit])) [] ;;
                 ret (dict_set results cost (mean tmp_profits)))
              (fun j results _ =>
                 map fst results = take j cost_levels
                 /\ Forall (fun cv : Z * fl => is_Some cv.2) results)
              [] k) as (results & k' & Hrun & Hkeys & Hall).
  - split; [by rewrite take_0|constructor].
  - intros j cost results kj Hj [Hkeys Hall].
    destruct (profits_loop 1000 (inject_Z cost) kj) as (tmp & k' & Htmp & Hlen).
    assert (Hmean : is_Some (mean tmp)).
    { destruct tmp; [discriminate Hlen|]. by eexists. }
    eexists _, _. split; [run_bind Htmp; reflexivity|].
    assert (Hnew : cost ∉ map fst results).
    { rewrite Hkeys. intros Hin. apply list_elem_of_lookup in Hin as (i & Hi).
      apply lookup_take_Some in Hi as [Hi Hlt].
      pose proof (NoDup_lookup _ _ _ _ cost_levels_NoDup Hi Hj). lia. }
    rewrite (dict_set_fresh _ _ _ Hnew). split.
    + rewrite map_app, Hkeys. cbn [map fst]. by rewrite (take_S_r _ _ _ Hj).
    + apply Forall_app. split; [exact Hall|]. by repeat constructor.
  - exists results, k'. split; [exact Hrun|]. split; [|exact Hall].
    rewrite Hkeys. apply firstn_all.
Qed.

(** The keys the comprehension keeps: those whose value equals the
    largest value. *)
Lemma keep_the_highest (results : list (Z * fl)) (highest : fl) (k : kernel) :
  NoDup (map fst results) ->
  py_max_fl (map snd results) = Ok highest ->
  forall (rs : list (Z * fl)) (best : list Z),
    rs ⊆ results ->
    for_each (map fst rs) (fun x best =>
        v <- lift (dict_get results x) ;;
        highest <- lift (py_max_fl (map snd results)) ;;
        ret (if feq v highest then best ++ [x] else best)) best k
    = (Ok (best ++ map fst (filter (fun cv : Z * fl => feq cv.2 highest = true) rs)), k).
Proof.
  intros Hnd Hmax. induction rs as [|[x v] rs IH]; intros best Hsub.
  - cbn. by rewrite app_nil_r.
  - cbn [map fst for_each].
    assert (Hget : dict_get results x = Ok v).
    { apply dict_get_NoDup; [exact Hnd|]. apply Hsub, list_elem_of_here. }
    assert (Hstep : (v <- lift (dict_get results x) ;;
                     highest <- lift (py_max_fl (map snd results)) ;;
                     ret (if feq v highest then best ++ [x] else best)) k
                    = (Ok (if feq v highest then best ++ [x] else best), k)).
    { unfold bind, lift. by rewrite Hget, Hmax. }
    run_bind Hstep.
    rewrite IH by (intros y Hy; apply Hsub; by apply list_elem_of_further).
    rewrite filter_cons. cbn [snd].
    destruct (feq v highest) eqn:E.
    + rewrite decide_True by done. cbn [map fst]. by rewrite <- app_assoc.
    + rewrite decide_False by done. reflexivity.
Qed.

Lemma py_max_fl_fold (qs : list Q) :
  forall x,
    exists h,
      foldl (fun m item => if flt m item then item else m) (Some x) (map Some qs) = Some h
      /\ h ∈ x :: qs /\ Forall (fun y => y <= h) (x :: qs).
Proof.
  induction qs as [|y qs IH]; intros x; cbn [map foldl].
  - exists x. split; [reflexivity|]. split; [apply list_elem_of_here|].
    repeat constructor. lra.
  - cbn [flt]. destruct (Qlt_bool x y) eqn:E.
    + destruct (IH y) as (h & Hh & Hin & Hall). exists h. split; [exact Hh|].
      split; [by apply list_elem_of_further|].
      apply Qlt_bool_true in E. inversion Hall as [|? ? Hy Hxs]; subst.
      constructor; [lra|]. by constructor.
    + destruct (IH x) as (h & Hh & Hin & Hall). exists h. split; [exact Hh|].
      split.
      { apply elem_of_cons in Hin as [->|Hin]; [apply list_elem_of_here|].
        by do 2 apply list_elem_of_further. }
      apply Qlt_bool_false in E. inversion Hall as [|? ? Hx Hxs]; subst.
      constructor; [exact Hx|]. constructor; [lra|exact Hxs].
Qed.

(** The first item of a list that passes a test, when one does. *)
Lemma first_passing {B} (P : B -> Prop) `{!forall x, Decision (P x)} (l : list B) (x : B) :
  x ∈ l -> P x ->
  exists before y after,
    l = before ++ y :: after /\ P y /\ Forall (fun z => ~ P z) before
    /\ filter P l = y :: filter P after.
Proof.
  induction l as [|z l IH]; intros Hin HP; [by apply elem_of_nil in Hin|].
  destruct (decide (P z)) as [Hz|Hz].
  - exists [], z, l. repeat split; [done|constructor|].
    by rewrite filter_cons, decide_True.
  - apply elem_of_cons in Hin as [->|Hin]; [done|].
    destruct (IH Hin HP) as (before & y & after & -> & Hy & Hb & Hf).
    exists (z :: before), y, after. repeat split; [done|by constructor|].
    by rewrite filter_cons, decide_False.
Qed.

Lemma all_some_values (l : list (Z * fl)) :
  Forall (fun cv : Z * fl => is_Some cv.2) l -> exists qs, map snd l = map Some qs.
Proof.
  induction 1 as [|[c v] l [q Hq] _ [qs IH]]; [by exists []|].
  cbn [snd] in Hq. subst v. exists (q :: qs). cbn [map snd]. by rewrite IH.
Qed.

(** X20. The cell returns for every sequence of draws: the dictionary holds
    one mean profit per cost level, in the order of the levels, and
    [cost_max] is the first level whose mean is the largest, so the lowest
    such cost. The list the comprehension builds is never empty. *)
Theorem optimizing_costs_first_best (k : kernel) :
  exists before cost_max best after k',
    average_profits k = (Ok (before ++ (cost_max, Some best) :: after), k')
    /\ map fst (before ++ (cost_max, Some best) :: after) = cost_levels
    /\ optimizing_costs k = (Ok cost_max, k')
    /\ Forall (fun cv : Z * fl => exists v, cv.2 = Some v /\ v < best) before
    /\ Forall (fun cv : Z * fl => exists v, cv.2 = Some v /\ v <= best) after.
Proof.
  destruct (average_profits_run k) as (results & k' & Hrun & Hkeys & Hsome).
  assert (Hnd : NoDup (map fst results)) by (rewrite Hkeys; apply cost_levels_NoDup).
  assert (Hvals : exists x qs, map snd results = Some x :: map Some qs).
  { destruct (all_some_values results Hsome) as ([|x qs] & Hqs).
    - destruct results; [discriminate Hkeys|discriminate Hqs].
    - by exists x, qs. }
  destruct Hvals as (x & qs & Hvals).
  destruct (py_max_fl_fold qs x) as (h & Hfold & Hin & Hall).
  assert (Hmax : py_max_fl (map snd results) = Ok (Some h)).
  { rewrite Hvals. unfold py_max_fl. by rewrite Hfold. }
  assert (Hh : Some h ∈ map snd results).
  { rewrite Hvals. apply elem_of_cons in Hin as [->|Hin]; [apply list_elem_of_here|].
    apply list_elem_of_further, list_elem_of_fmap. by exists h. }
  apply list_elem_of_fmap in Hh as ([c v] & Hv & Hcv). cbn [snd] in Hv. subst v.
  destruct (first_passing (fun cv : Z * fl => feq cv.2 (Some h) = true) results (c, Some h)
              Hcv) as (before & [cost_max best] & after & Hsplit & Hbest & Hbefore & Hfilter).
  { cbn. apply Qeq_bool_iff. reflexivity. }
  assert (Hle : forall cv : Z * fl, cv ∈ results -> exists v, cv.2 = Some v /\ v <= h).
  { intros [c' v'] Hin'. assert (Hv' : v' ∈ map snd results).
    { apply list_elem_of_fmap. by exists (c', v'). }
    rewrite Hvals in Hv'. rewrite Forall_forall in Hall.
    apply elem_of_cons in Hv' as [->|Hv'].
    - exists x. split; [done|]. apply Hall, list_elem_of_here.
    - apply list_elem_of_fmap in Hv' as (q & -> & Hq). exists q. split; [done|].
      by apply Hall, list_elem_of_further. }
  cbn [snd] in Hbest. destruct best as [best|]; [|discriminate Hbest].
  cbn [feq] in Hbest. apply Qeq_bool_iff in Hbest.
  assert (Hopt : optimizing_costs k = (Ok cost_max, k')).
  { unfold optimizing_costs. run_bind Hrun.
    rewrite (bind_Ok _ _ _ _ _
               (keep_the_highest results (Some h) k' Hnd Hmax results [] ltac:(done))).
    rewrite app_nil_l, Hfilter. reflexivity. }
  assert (Hlower : Forall (fun cv : Z * fl => exists v, cv.2 = Some v /\ v < best) before).
  { apply Forall_forall. intros cv Hcv'.
    destruct (Hle cv) as (v & Hv & Hvh).
    { rewrite Hsplit. apply elem_of_app. by left. }
    exists v. split; [exact Hv|].
    rewrite Forall_forall in Hbefore. specialize (Hbefore cv Hcv').
    rewrite Hv in Hbefore. cbn [feq] in Hbefore.
    destruct (Qeq_dec v h) as [Heq|Hne].
    - exfalso. apply Hbefore. by apply Qeq_bool_iff.
    - rewrite Hbest. lra. }
  assert (Hupper : Forall (fun cv : Z * fl => exists v, cv.2 = Some v /\ v <= best) after).
  { apply Forall_forall. intros cv Hcv'.
    destruct (Hle cv) as (v & Hv & Hvh).
    { rewrite Hsplit. apply elem_of_app. right. by apply list_elem_of_further. }
    exists v. split; [exact Hv|]. rewrite Hbest. exact Hvh. }
  subst results.
  exists before, cost_max, best, after, k'.
  split; [exact Hrun|]. split; [exact Hkeys|]. split; [exact Hopt|].
  split; [exact Hlower|exact Hupper].
Qed.

End OptimizingCosts.

(** ** Jackknife confidence interval for the median *)
Section JackknifeInterval.
Import Np Resampling JackknifeMedian.
Local Open Scope Q_scope.

Lemma median_nonempty (xs : list Q) : xs <> [] -> exists m, median xs = Some m.
Proof. destruct xs; [done|]. intros _. by eexists. Qed.

Lemma leave_one_out_medians (wl : list Q) :
  (2 <= length wl)%nat ->
  forall (l : list nat),
    Forall (fun i => (i < length wl)%nat) l ->
    exists ms, map (fun i => median (delete i wl)) l = map Some ms /\ length ms = length l.
Proof.
  intros Hn. induction 1 as [|i l Hi _ (ms & IH & Hlen)]; [by exists []|].
  destruct (median_nonempty (delete i wl)) as (m & Hm).
  { intros E. apply (f_equal length) in E. rewrite length_delete in E.
    - cbn in E. lia.
    - by apply lookup_lt_is_Some. }
  exists (m :: ms). cbn [map length]. by rewrite Hm, IH, Hlen.
Qed.

Lemma var_nonnegative (xs : list Q) : xs <> [] -> exists v, var xs = Some v /\ 0 <= v.
Proof.
  intros Hne. unfold var. rewrite (mean_nonempty xs Hne).
  rewrite mean_nonempty
    by (intros E; apply (f_equal length) in E; rewrite length_map in E; by destruct xs).
  eexists. split; [reflexivity|]. rewrite length_map.
  apply Qle_shift_div_l.
  - change 0 with (inject_Z 0). rewrite <- Zlt_Qlt. destruct xs; [done|cbn; lia].
  - rewrite Qmult_0_l. apply Qsum_nonnegative, Forall_forall.
    intros q Hq. apply list_elem_of_fmap in Hq as (x & -> & _). apply Qpower.Qsqr_nonneg.
Qed.

(** X21. From at least two observations, all of moderate size, the cell
    reports an interval around the estimate: the variance is not negative,
    so the square root is a number, and the jackknife estimate lies between
    the two ends. From fewer than two observations a jackknife sample is
    empty or there is none, and the estimate and both ends are [nan]. *)
Theorem jackknife_median_ci_around_the_estimate (wrench_lengths : list Q) :
  Forall moderate wrench_lengths ->
  match wrench_lengths with
  | [] | [_] => jackknife_median_ci wrench_lengths = (None, None, None)
  | _ =>
    exists (estimate : Q) (lower upper : R),
      jackknife_median_ci wrench_lengths = (Some estimate, Some lower, Some upper)
      /\ (lower <= Q2R estimate <= upper)%R
  end.
Proof.
  intros _. destruct wrench_lengths as [|x [|y wl]]; [reflexivity|reflexivity|].
  set (wrench_lengths := x :: y :: wl).
  assert (Hn : (2 <= length wrench_lengths)%nat) by (cbn; lia).
  unfold jackknife_median_ci. rewrite foldl_append, app_nil_l.
  rewrite (map_ext _ (fun i => median (delete i wrench_lengths)))
    by (intros i; by rewrite jk_sample_delete).
  destruct (leave_one_out_medians wrench_lengths Hn (seq 0 (length wrench_lengths)))
    as (ms & -> & Hlen).
  { apply Forall_forall. intros i Hi. apply elem_of_seq in Hi. lia. }
  rewrite length_seq in Hlen.
  assert (Hne : ms <> []) by (intros E; rewrite E in Hlen; cbn in Hlen; lia).
  unfold fmean, fvar. rewrite finite_map_Some_id.
  rewrite (mean_nonempty ms Hne).
  destruct (var_nonnegative ms Hne) as (v & -> & Hv).
  cbn [fl_lift2 np_sqrt option_map].
  assert (Hvar : 0 <= inject_Z (Z.of_nat (length wrench_lengths) - 1) * v).
  { apply Qmult_le_0_compat; [|exact Hv].
    change 0 with (inject_Z 0). rewrite <- Zle_Qle. lia. }
  apply Qle_bool_iff in Hvar. rewrite Hvar. cbn [rl_lift2].
  eexists _, _, _. split; [reflexivity|].
  pose proof (sqrt_pos (Q2R (inject_Z (Z.of_nat (length wrench_lengths) - 1) * v))) as Hs.
  split; lra.
Qed.

Lemma jackknife_median_ci_around_the_estimate_witness :
  exists (estimate : Q) (lower upper : R),
    jackknife_median_ci [1; 2; 4] = (Some estimate, Some lower, Some upper)
    /\ (lower <= Q2R estimate <= upper)%R.
Proof.
  apply (jackknife_median_ci_around_the_estimate [1; 2; 4]).
  repeat constructor; discriminate.
Defined.

End JackknifeInterval.

(** ** Portfolio Simulation - Part III *)
Section StocksAndBonds.
Import Np Investing.
Local Open Scope Q_scope.

Lemma for_each_pure {A St} (f : St -> A -> St) (xs : list A) (k : kernel) :
  forall acc, for_each xs (fun x acc => ret (f acc x)) acc k = (Ok (foldl f acc xs), k).
Proof.
  induction xs as [|x xs IH]; intros acc; [reflexivity|].
  cbn [for_each foldl]. unfold bind at 1, ret at 1. apply IH.
Qed.

(** The return, exactly: the principal compounded over the rates the one
    sampler call draws. *)
Lemma portfolio_return_exact (yrs : nat) (avg_return sd_of_return principal : Q)
    (k : kernel) :
  0 <= sd_of_return ->
  portfolio_return yrs avg_return sd_of_return principal k
  = (Ok (compounded principal
           (map (fun y => avg_return + sd_of_return * tape k (cursor k) y) (seq 0 yrs))),
     entered "portfolio_return" k).
Proof.
  intros Hsd. apply Qle_bool_iff in Hsd.
  unfold portfolio_return, bind at 1, enter, bind at 1, normal, sampler.
  cbn [tape cursor seeded calls heap]. rewrite Hsd.
  rewrite (bind_Ok _ _ _ _ _
             (for_each_pure (fun end_return x => end_return * (1 + x)) _ _ principal)).
  reflexivity.
Qed.

(** X22. The cell is reproducible: it seeds the generator, so its result is
    read off the stream of seed 123 alone, whatever the generator did
    before. The stocks take the even calls of that stream and the bonds the
    odd ones. *)
Theorem stocks_vs_bonds_reads_the_seeded_stream (k : kernel) :
  exists k',
    stocks_vs_bonds k
    = (Ok (fsub (percentile (stock_returns (seeded k 123)) 25)
                (percentile (bond_returns (seeded k 123)) 25)), k').
Proof.
  unfold stocks_vs_bonds, bind at 1, seed.
  set (stream := seeded k 123).
  unfold stock_returns, bond_returns. generalize 1000%nat. intros sims.
  destruct (for_range_invariant sims
              (fun (i : nat) (rets : list Q * list Q) =>
                 stock <- portfolio_return 10 (7 # 100) (3 # 10) 10000 ;;
                 bond <- portfolio_return 10 (4 # 100) (1 # 10) 10000 ;;
                 ret (rets.1 ++ [stock], rets.2 ++ [bond]))
              (fun j rets kj =>
                 tape kj = stream /\ cursor kj = (2 * j)%nat
                 /\ rets.1 = map (fun i => return_of stream (7 # 100) (3 # 10) (2 * i))
                                 (seq 0 j)
                 /\ rets.2 = map (fun i => return_of stream (4 # 100) (1 # 10) (2 * i + 1))
                                 (seq 0 j))
              ([], []) (Kernel stream 0 (seeded k) (calls k) (heap k)))
    as ([stock bond] & k' & Hrun & _ & _ & Hs & Hb).
  - by repeat split.
  - intros j [stock bond] kj _ (Ht & Hc & Hs & Hb). cbn [fst snd] in Hs, Hb.
    eexists _, _. split.
    + rewrite (bind_Ok _ _ _ _ _
                 (portfolio_return_exact 10 (7 # 100) (3 # 10) 10000 kj ltac:(discriminate))).
      rewrite (bind_Ok _ _ _ _ _
                 (portfolio_return_exact 10 (4 # 100) (1 # 10) 10000 _ ltac:(discriminate))).
      reflexivity.
    + cbn [fst snd entered tape cursor]. rewrite Ht, Hc, Hs, Hb.
      split; [reflexivity|]. split; [lia|].
      rewrite (seq_S j 0), !map_app. cbn [map].
      unfold return_of. rewrite Nat.add_0_l, Nat.add_1_r. by split.
  - cbn [fst snd] in Hs, Hb. exists k'. run_bind Hrun. cbn [fst snd].
    rewrite Hs, Hb. reflexivity.
Qed.

End StocksAndBonds.

(** ** National elections *)
Section Elections.
Import Np Sampling DataGeneration.
Local Open Scope Q_scope.

(** The share of red states in one election: between 0 and 1, and [nan]
    when there are no states. *)
Lemma election_mean (p : list Q) (row : nat -> Q) :
  match p with
  | [] => mean (map (fun e => inject_Z (Z.of_nat e))
                    (imap (fun i _ => random_index 2 (row i)) p)) = None
  | _ => exists share,
           mean (map (fun e => inject_Z (Z.of_nat e))
                     (imap (fun i _ => random_index 2 (row i)) p)) = Some share
           /\ 0 <= share <= 1
  end.
Proof.
  destruct p as [|x p]; [reflexivity|].
  apply mean_between.
  - intros E. apply (f_equal length) in E. rewrite length_map, length_imap in E.
    discriminate E.
  - apply Forall_forall. intros q Hq. apply list_elem_of_fmap in Hq as (e & -> & He).
    apply list_elem_of_lookup in He as (i & Hi). rewrite list_lookup_imap in Hi.
    destruct ((x :: p) !! i); [|done]. injection Hi as <-.
    pose proof (random_index_lt 2 (row i) ltac:(lia)) as Hlt.
    split.
    + change 0 with (inject_Z 0). rewrite <- Zle_Qle. lia.
    + change 1 with (inject_Z 1). rewrite <- Zle_Qle. lia.
Qed.

(** X23. With a probability between 0 and 1 for every state the cell returns a
    share between 0 and 1, and with a probability outside it raises at
    the first election. Without any state every election's mean is [nan],
    no comparison holds, and the share reported is 0. *)
Theorem national_elections_share (p : list Q) (k : kernel) :
  if forallb (fun x => Qle_bool 0 x && Qle_bool x 1) p then
    exists share k',
      national_elections p k = (Ok (Some share), k')
      /\ 0 <= share <= 1
      /\ (p = [] -> share == 0)
  else
    national_elections p k = (Raise ValueError, advance 1 k).
Proof.
  unfold national_elections.
  destruct (forallb _ p) eqn:Hp.
  - destruct (for_range_invariant 1000
                (fun (_ : nat) outcomes =>
                   election <- binomial_p 1 p ;;
                   ret (outcomes ++ [mean (map (fun e => inject_Z (Z.of_nat e)) election)]))
                (fun j outcomes _ =>
                   length outcomes = j /\ (p = [] -> Forall (fun o => o = None) outcomes))
                [] k) as (outcomes & k' & Hrun & Hlen & Hnan).
    + split; [reflexivity|]. intros _. constructor.
    + intros j outcomes kj _ [Hlen Hnan]. eexists _, _. split.
      * unfold bind at 1, binomial_p, sampler. rewrite Hp. reflexivity.
      * split; [rewrite length_app, Hlen; cbn; lia|].
        intros ->. apply Forall_app. split; [by apply Hnan|]. by repeat constructor.
    + assert (Hne : map (fun o => if flt o (Some (45 # 100)) then 1 else 0) outcomes <> []).
      { intros E. apply (f_equal length) in E. rewrite length_map, Hlen in E.
        discriminate E. }
      destruct (mean_between _ 0 1 Hne) as (share & Hshare & Hb).
      { apply Forall_forall. intros x Hx. apply list_elem_of_fmap in Hx as (o & -> & _).
        destruct (flt o _); split; discriminate. }
      exists share, k'. split; [|split; [exact Hb|]].
      * run_bind Hrun. cbv zeta. unfold ret. by rewrite Hshare.
      * intros Hnil. specialize (Hnan Hnil).
        destruct (mean_between _ 0 0 Hne) as (share' & Hshare' & Hb').
        { apply Forall_forall. intros x Hx. apply list_elem_of_fmap in Hx as (o & -> & Ho).
          rewrite Forall_forall in Hnan. rewrite (Hnan o Ho). cbn. split; discriminate. }
        rewrite Hshare in Hshare'. injection Hshare' as <-. lra.
  - cbn [for_range seq]. unfold for_range.
    change (seq 0 1000) with (0%nat :: seq 1 999). cbn [for_each].
    unfold bind at 1, bind at 1, bind at 1, binomial_p, sampler. rewrite Hp.
    unfold advance. by rewrite Nat.add_1_r.
Qed.

End Elections.

(** ** The rates of the sign-up flow *)
Section SignupRates.
Import Np Probability Rates.
Local Open Scope Q_scope.

(** X24. The dictionaries the cell builds hold a rate for the costs
    ["low"] and ["high"] and for no other: the historic rate for the low
    cost and, for the high cost, a rate that is not below the historic rate
    and not above 1.2 times it, up to the rounding of that product. All
    four are probabilities, so [get_signups] finds its keys and its
    binomial calls accept the rates. *)
Theorem signup_rates_are_probabilities (k : kernel) :
  exists (ct_rate su_rate : gmap string Q) (high_ctr high_sur : Q),
    signup_rates k = (Ok (ct_rate, su_rate), advance 2 k)
    /\ ct_rate !! "low"%string = Some hist_ctr
    /\ ct_rate !! "high"%string = Some high_ctr
    /\ su_rate !! "low"%string = Some hist_sur
    /\ su_rate !! "high"%string = Some high_sur
    /\ hist_ctr <= high_ctr <= hight_rate * hist_ctr + rounding_margin
    /\ hist_sur <= high_sur <= hight_rate * hist_sur + rounding_margin
    /\ Forall (fun rate => 0 <= rate <= 1) [hist_ctr; high_ctr; hist_sur; high_sur]
    /\ (forall cost, cost <> "low"%string -> cost <> "high"%string ->
        ct_rate !! cost = None /\ su_rate !! cost = None).
Proof.
  pose proof (unit_interval_bounds (tape k (cursor k) 0%nat)) as [H0 H1].
  pose proof (unit_interval_bounds (tape k (S (cursor k)) 0%nat)) as [H2 H3].
  eexists _, _, _, _.
  split; [|split; [|split; [|split; [|split; [|split; [|split; [|split]]]]]]].
  - unfold signup_rates, bind, uniform1, sampler, ret, advance.
    cbn [tape cursor seeded calls heap]. do 2 f_equal. lia.
  - rewrite lookup_insert_ne by discriminate. apply lookup_singleton_eq.
  - apply lookup_insert_eq.
  - rewrite lookup_insert_ne by discriminate. apply lookup_singleton_eq.
  - apply lookup_insert_eq.
  - unfold hist_ctr, hight_rate, rounding_margin. split; nra.
  - unfold hist_sur, hight_rate, rounding_margin. split; nra.
  - unfold hist_ctr, hist_sur, hight_rate.
    constructor; [split; lra|]. constructor; [split; nra|].
    constructor; [split; lra|]. constructor; [split; nra|]. constructor.
  - intros cost Hlow Hhigh. split;
      (rewrite lookup_insert_ne by done; by apply lookup_singleton_ne).
Qed.

End SignupRates.

(** ** The permuted datasets of the hypothesis test *)
Section PermutedDatasets.
Import Np Resampling.
Local Open Scope Q_scope.

Lemma permuted_data_split (donations_A donations_B : list Q) (perm : list nat) :
  perm ≡ₚ seq 0 (length donations_A + length donations_B) ->
  let permuted := permuted_data donations_A donations_B perm in
  length (take (length donations_A) permuted) = length donations_A
  /\ length (drop (length donations_A) permuted) = length donations_B
  /\ take (length donations_A) permuted ++ drop (length donations_A) permuted
     ≡ₚ donations_A ++ donations_B.
Proof.
  intros Hperm permuted.
  assert (Hlen : length permuted = (length donations_A + length donations_B)%nat).
  { unfold permuted, permuted_data. by rewrite length_map, Hperm, length_seq. }
  split; [rewrite length_take; lia|]. split; [rewrite length_drop; lia|].
  rewrite take_drop. unfold permuted, permuted_data.
  etrans; [apply Permutation_map, Hperm|].
  rewrite <- length_app. by rewrite map_nth_seq.
Qed.

(** X25. Every one of the 1000 pairs of permuted datasets the cell
    leaves for the next cell splits the data of the two groups anew: the
    A row has the size of group A, the B row the size of group B, and the
    two rows together hold every observation once. No index is out of
    range. *)
Theorem permuted_datasets_split_the_data (donations_A donations_B : list Q) (k : kernel) :
  exists p_val permuted_A_datasets permuted_B_datasets,
    difference_of_means donations_A donations_B k
    = (Ok (p_val, permuted_A_datasets, permuted_B_datasets), advance 1000 k)
    /\ length permuted_A_datasets = 1000%nat
    /\ Forall2 (fun row_A row_B =>
                  length row_A = length donations_A
                  /\ length row_B = length donations_B
                  /\ row_A ++ row_B ≡ₚ donations_A ++ donations_B)
               permuted_A_datasets permuted_B_datasets.
Proof.
  eexists _, _, _. split; [apply difference_of_means_run|].
  split; [by rewrite length_map, drawn_permutations_length|].
  apply Forall2_fmap, Forall_Forall2_diag.
  eapply Forall_impl; [apply drawn_permutations_Permutation|].
  intros perm Hperm. by apply permuted_data_split.
Qed.

End PermutedDatasets.
